(** * Meeting-note text normalisation: the post-processing pipeline of
    [src/services/ai_service.py]

    The four stages [_fix_common_errors], [_format_section_headers],
    [_fix_bullet_format] and [_add_signature] are embedded as Rocq functions
    over texts (sequences of Unicode code points).  The regular expressions of
    the source are kept as regular-expression values and run by a backtracking
    matcher that follows CPython's [re] module on the constructs the source
    uses (greedy repetition, optional groups, capture groups, [^], [$], [\b],
    the flags IGNORECASE and MULTILINE). *)

From Stdlib Require Import String Ascii.
From Stdlib Require Import List NArith Bool Lia PeanoNat.
Import ListNotations.

(* ================================================================= *)
(** * Texts *)

(** A Python [str] is a sequence of code points. *)
Definition char := N.
Definition text := list char.
Bind Scope N_scope with char.

Definition ch (a : ascii) : char := N_of_ascii a.

(** [str "..."] is the text of an ASCII literal of the source. *)
Definition str (s : string) : text := map N_of_ascii (list_ascii_of_string s).

Definition NL : char := 10%N.

Definition in_range (lo hi c : char) : bool := (N.leb lo c) && (N.leb c hi).

(** [str.isspace] on one code point, which is also what [\s] matches in a
    [str] pattern and what [str.rstrip()] removes. *)
Definition isspace (c : char) : bool :=
  in_range 9 13 c || in_range 28 32 c || N.eqb c 133 || N.eqb c 160
  || N.eqb c 5760 || in_range 8192 8202 c || N.eqb c 8232 || N.eqb c 8233
  || N.eqb c 8239 || N.eqb c 8287 || N.eqb c 12288.

(** The word characters of [\b] below U+0080: ASCII letters, digits and
    the underscore. *)
Definition ascii_word (c : char) : bool :=
  in_range 48 57 c || in_range 65 90 c || in_range 97 122 c || N.eqb c 95.

(** [\w] in a [str] pattern is [str.isalnum] or the underscore.  Above
    U+007F that is a table of the Unicode database, which is not part of
    the repository: it is the parameter [ua]. *)
Definition is_word (ua : char -> bool) (c : char) : bool :=
  if N.ltb c 128 then ascii_word c else ua c.

(** Case-insensitive comparison.  Under IGNORECASE the matcher compares the
    lower-cased subject character with the lower-cased pattern character and
    with its listed equivalents.  For the ASCII pattern characters of this
    module the characters compared equal are the two cases of a letter and,
    besides, U+0130 and U+0131 for [i], U+017F for [s], U+212A for [k];
    [canon] sends each of these classes to its lower-case ASCII letter. *)
Definition canon (c : char) : char :=
  if in_range 65 90 c then (c + 32)%N
  else if N.eqb c 304 || N.eqb c 305 then 105%N
  else if N.eqb c 383 then 115%N
  else if N.eqb c 8490 then 107%N
  else c.

Definition upcase (c : char) : char :=
  if in_range 97 122 c then (c - 32)%N else c.

(* ================================================================= *)
(** * Regular expressions *)

Record flags := Flags { ignorecase : bool; multiline : bool }.

(** One-character matchers. *)
Inductive atom :=
| Lit (c : char)            (* a literal character *)
| Range (lo hi : char)      (* [lo-hi] *)
| Space                     (* \s *)
| Dot                       (* . (no DOTALL in the source) *)
| Or (a b : atom).          (* two members of one [...] class *)

Fixpoint atom_ok (f : flags) (a : atom) (c : char) : bool :=
  match a with
  | Lit p => if ignorecase f then N.eqb (canon c) (canon p) else N.eqb c p
  | Range lo hi =>
      in_range lo hi c
      || (ignorecase f
          && (in_range lo hi (canon c) || in_range lo hi (upcase (canon c))))
  | Space => isspace c
  | Dot => negb (N.eqb c NL)
  | Or a b => atom_ok f a c || atom_ok f b c
  end.

Inductive re :=
| Eps
| Chr (a : atom)
| Star (a : atom)               (* greedy a* *)
| Bol                           (* ^ *)
| Eol                           (* $ *)
| Wb (w : char -> bool)         (* \b, for the word characters w *)
| Grp (n : nat) (r : re)        (* capture group number n *)
| Seq (r1 r2 : re)
| Opt (r : re).                 (* greedy r? *)

Definition cat (rs : list re) : re := fold_right Seq Eps rs.
Definition plus (a : atom) : re := Seq (Chr a) (Star a).

(** [re.escape(s)] for a literal [s]: the characters of [s], one by one. *)
Definition lits (s : text) : re := cat (map (fun c => Chr (Lit c)) s).

(** The state of one match attempt: the character before the current
    position, the text from the current position on, the number of characters
    consumed since the attempt started, and the spans of the groups closed so
    far (relative to the start of the attempt, latest first). *)
Record mstate := MState {
  m_prev : option char;
  m_rest : text;
  m_pos : nat;
  m_caps : list (nat * (nat * nat)) }.

Definition optb (w : char -> bool) (o : option char) : bool :=
  match o with Some c => w c | None => false end.

Definition at_bol (f : flags) (st : mstate) : bool :=
  match m_prev st with
  | None => true
  | Some c => multiline f && N.eqb c NL
  end.

Definition at_eol (f : flags) (st : mstate) : bool :=
  match m_rest st with
  | [] => true
  | c :: r =>
      N.eqb c NL && (multiline f || match r with [] => true | _ => false end)
  end.

Definition at_wb (w : char -> bool) (st : mstate) : bool :=
  xorb (optb w (m_prev st)) (optb w (hd_error (m_rest st))).

Definition set_cap (n start : nat) (st : mstate) : mstate :=
  MState (m_prev st) (m_rest st) (m_pos st)
         ((n, (start, m_pos st)) :: m_caps st).

(** Greedy repetition of a one-character matcher: take as many characters
    as possible, give back one at a time while the continuation fails. *)
Fixpoint star (f : flags) (a : atom) (k : mstate -> option mstate)
         (prev : option char) (pos : nat) (caps : list (nat * (nat * nat)))
         (s : text) {struct s} : option mstate :=
  match s with
  | c :: s' =>
      if atom_ok f a c then
        match star f a k (Some c) (S pos) caps s' with
        | Some r => Some r
        | None => k (MState prev s pos caps)
        end
      else k (MState prev s pos caps)
  | [] => k (MState prev s pos caps)
  end.

(** The backtracking matcher, in continuation-passing style: [k] is the
    rest of the pattern. *)
Fixpoint run (f : flags) (r : re) (k : mstate -> option mstate)
         (st : mstate) {struct r} : option mstate :=
  match r with
  | Eps => k st
  | Chr a =>
      match m_rest st with
      | c :: s' =>
          if atom_ok f a c
          then k (MState (Some c) s' (S (m_pos st)) (m_caps st))
          else None
      | [] => None
      end
  | Star a => star f a k (m_prev st) (m_pos st) (m_caps st) (m_rest st)
  | Bol => if at_bol f st then k st else None
  | Eol => if at_eol f st then k st else None
  | Wb w => if at_wb w st then k st else None
  | Grp n r' => run f r' (fun st' => k (set_cap n (m_pos st) st')) st
  | Seq r1 r2 => run f r1 (run f r2 k) st
  | Opt r' =>
      match run f r' k st with
      | Some x => Some x
      | None => k st
      end
  end.

(** One attempt at the position whose left neighbour is [prev]. *)
Definition match_here (f : flags) (r : re) (prev : option char) (s : text)
  : option mstate :=
  run f r (fun st => Some st) (MState prev s 0 []).

(** [re.match(r, s)]. *)
Definition re_match (f : flags) (r : re) (s : text) : option mstate :=
  match_here f r None s.

(** [re.search(r, s)] as a truth value: the leftmost position with a
    match, the end of the text included. *)
Fixpoint search_from (f : flags) (r : re) (prev : option char) (s : text)
  : bool :=
  match match_here f r prev s with
  | Some _ => true
  | None =>
      match s with
      | [] => false
      | c :: s' => search_from f r (Some c) s'
      end
  end.

Definition re_search (f : flags) (r : re) (s : text) : bool :=
  search_from f r None s.

(** [m.group(n)] for a match [st] that started at the head of [s]. *)
Fixpoint span_of (n : nat) (caps : list (nat * (nat * nat)))
  : option (nat * nat) :=
  match caps with
  | [] => None
  | (i, sp) :: rest => if Nat.eqb i n then Some sp else span_of n rest
  end.

Definition group (s : text) (st : mstate) (n : nat) : text :=
  match span_of n (m_caps st) with
  | Some (b, e) => firstn (e - b) (skipn b s)
  | None => []
  end.

(** Replacement templates: literal text and group references. *)
Inductive titem :=
| TLit (t : text)
| TGrp (n : nat).

Definition template := list titem.

Definition expand (tpl : template) (s : text) (st : mstate) : text :=
  flat_map (fun it => match it with
                      | TLit t => t
                      | TGrp n => group s st n
                      end) tpl.

(** [re.sub(r, tpl, s)]: scan from the left; at a match emit the expanded
    template and go on behind the match, otherwise copy one character.
    The fuel bounds the number of steps by the length of the text.  (An
    empty match emits the template and copies the next character; no
    pattern of the source matches the empty text.) *)
Fixpoint sub_go (f : flags) (r : re) (tpl : template) (fuel : nat)
         (prev : option char) (s : text) : text :=
  match fuel with
  | O => s
  | S fuel' =>
      match match_here f r prev s with
      | Some st =>
          match m_pos st with
          | O =>
              expand tpl s st ++
              match s with
              | [] => []
              | c :: s' => c :: sub_go f r tpl fuel' (Some c) s'
              end
          | S _ =>
              expand tpl s st ++ sub_go f r tpl fuel' (m_prev st) (m_rest st)
          end
      | None =>
          match s with
          | [] => []
          | c :: s' => c :: sub_go f r tpl fuel' (Some c) s'
          end
      end
  end.

Definition re_sub (f : flags) (r : re) (tpl : template) (s : text) : text :=
  sub_go f r tpl (S (length s)) None s.

(* ================================================================= *)
(** * String methods *)

(** [s.split('\n')]. *)
Fixpoint split_nl (s : text) : list text :=
  match s with
  | [] => [[]]
  | c :: s' =>
      if N.eqb c NL then [] :: split_nl s'
      else match split_nl s' with
           | l :: ls => (c :: l) :: ls
           | [] => [[c]]
           end
  end.

(** ['\n'.join(ls)]. *)
Fixpoint join_nl (ls : list text) : text :=
  match ls with
  | [] => []
  | l :: ls' =>
      match ls' with
      | [] => l
      | _ :: _ => l ++ NL :: join_nl ls'
      end
  end.

(** [s.rstrip()]. *)
Fixpoint rstrip (s : text) : text :=
  match s with
  | [] => []
  | c :: s' =>
      match rstrip s' with
      | [] => if isspace c then [] else [c]
      | r => c :: r
      end
  end.

Fixpoint text_eqb (a b : text) : bool :=
  match a, b with
  | [], [] => true
  | x :: a', y :: b' => N.eqb x y && text_eqb a' b'
  | _, _ => false
  end.

(** [s.endswith(suf)]. *)
Definition endswith (s suf : text) : bool :=
  Nat.leb (length suf) (length s)
  && text_eqb (skipn (length s - length suf) s) suf.

(* ================================================================= *)
(** * The four stages *)

Definition F_I : flags := Flags true false.    (* re.IGNORECASE *)
Definition F_IM : flags := Flags true true.    (* re.MULTILINE | re.IGNORECASE *)
Definition F_0 : flags := Flags false false.   (* no flag *)

Definition sep_atom : atom := Or (Lit (ch ".")) Space.      (* [.\s] *)

(** The replacement templates of [_fix_common_errors]. *)
Definition tpl_MBL : template := [TLit (str "MBL")].          (* 'MBL' *)
Definition tpl_1BL : template := [TGrp 1; TLit (str "BL")].   (* r'\1BL' *)

Section ErrorNormalizer.

Variable ua : char -> bool.

Definition wordb : re := Wb (is_word ua).

(** The list [patterns_to_fix] of [_fix_common_errors]. *)
Definition pat_MxL : re :=          (* \bM[.\s]*xL\b *)
  cat [wordb; Chr (Lit (ch "M")); Star sep_atom; Chr (Lit (ch "x"));
       Chr (Lit (ch "L")); wordb].
Definition pat_MxsL : re :=         (* \bM[.\s]*x\s*L\b *)
  cat [wordb; Chr (Lit (ch "M")); Star sep_atom; Chr (Lit (ch "x"));
       Star Space; Chr (Lit (ch "L")); wordb].
Definition pat_AxL : re :=          (* \b([A-Z])[.\s]*xL\b *)
  cat [wordb; Grp 1 (Chr (Range (ch "A") (ch "Z"))); Star sep_atom;
       Chr (Lit (ch "x")); Chr (Lit (ch "L")); wordb].

Definition patterns_to_fix : list (re * template) :=
  [ (pat_MxL, tpl_MBL); (pat_MxsL, tpl_MBL); (pat_AxL, tpl_1BL) ].

Definition _fix_common_errors (t : text) : text :=
  fold_left (fun t pr => re_sub F_I (fst pr) (snd pr) t) patterns_to_fix t.

End ErrorNormalizer.

(** [_fix_bullet_format]. *)
Definition BULLET : char := 8226%N.    (* U+2022 *)

Definition bullet_pattern : re :=      (* ^ ( \s* ) ( [-\u2022] ) \s+ ( .+ ) $ *)
  cat [Bol; Grp 1 (Star Space); Grp 2 (Chr (Or (Lit (ch "-")) (Lit BULLET)));
       plus Space; Grp 3 (plus Dot); Eol].

Definition fix_line (line : text) : text :=
  match re_match F_0 bullet_pattern line with
  | Some m => str " -  " ++ group line m 3
  | None => line
  end.

Definition _fix_bullet_format (t : text) : text :=
  join_nl (map fix_line (split_nl t)).

(** [_format_section_headers]. *)
Definition section_headers : list text :=
  [ str "Attendees"; str "Action Items"; str "General Notes"; str "Personal" ].

(** The four patterns of one header, as the list [patterns] is built. *)
Definition hp_bol_colon (header : text) : re :=      (* ^(H): *)
  cat [Bol; Grp 1 (lits header); Chr (Lit (ch ":"))].
Definition hp_bol_alone (header : text) : re :=      (* ^(H)$ *)
  cat [Bol; Grp 1 (lits header); Eol].
Definition hp_nl_colon (header : text) : re :=       (* \n(H): *)
  cat [Chr (Lit NL); Grp 1 (lits header); Chr (Lit (ch ":"))].
Definition hp_nl_alone (header : text) : re :=       (* \n(H)\n *)
  cat [Chr (Lit NL); Grp 1 (lits header); Chr (Lit NL)].

Definition header_patterns (header : text) : list re :=
  [ hp_bol_colon header; hp_bol_alone header;
    hp_nl_colon header; hp_nl_alone header ].

Definition bold_template : template :=            (* **\1** *)
  [TLit (str "**"); TGrp 1; TLit (str "**")].

Definition wrapped_pattern (header : text) : re := (* \*\*H\*\* *)
  cat [lits (str "**"); lits header; lits (str "**")].

(** The body of the inner loop: one pattern of one header. *)
Definition format_step (header : text) (t : text) (pattern : re) : text :=
  if negb (re_search F_IM (wrapped_pattern header) t)
  then re_sub F_IM pattern bold_template t
  else t.

(** The inner loop: the four patterns of one header, in order. *)
Definition format_header (t : text) (header : text) : text :=
  fold_left (format_step header) (header_patterns header) t.

Definition _format_section_headers (t : text) : text :=
  fold_left format_header section_headers t.

(** [_add_signature]. *)
Definition signature_pattern : re :=    (* ( signature \s* :? \s* )? michael *)
  cat [Opt (Grp 1 (cat [lits (str "signature"); Star Space;
                        Opt (Chr (Lit (ch ":"))); Star Space]));
       lits (str "michael")].

Definition _add_signature (t : text) : text :=
  if re_search F_I signature_pattern t then t
  else
    let t1 := rstrip t in
    let t2 :=
      if negb (endswith t1 [NL; NL])
      then
        if negb (endswith t1 [NL])
        then t1 ++ [NL; NL]
        else t1 ++ [NL]
      else t1 in
    t2 ++ str "Michael".

(** The post-processing of [extract_text_from_base64_images]: the spec's
    [normalize]. *)
Definition normalize (ua : char -> bool) (raw : text) : text :=
  _add_signature
    (_fix_bullet_format
       (_format_section_headers
          (_fix_common_errors ua raw))).

(* ================================================================= *)
(** * Specification-level definitions *)

(** ** Positions of a scan *)

(** The left neighbour after reading [w]. *)
Definition lastc (w : text) (d : option char) : option char :=
  fold_left (fun _ c => Some c) w d.

(** [st'] is reached from [st] by consuming a prefix of the text. *)
Definition reach (st st' : mstate) : Prop :=
  exists w, m_rest st = w ++ m_rest st'
            /\ m_pos st' = m_pos st + length w
            /\ m_prev st' = lastc w (m_prev st).

(** The scan of [re.sub] from an inner position. *)
Definition sub_from (f : flags) (r : re) (tpl : template)
           (prev : option char) (s : text) : text :=
  sub_go f r tpl (S (length s)) prev s.

(** ** Literals, case ignored *)

(** Case-insensitive comparison of one character and of a literal prefix;
    the result is the text behind the prefix. *)
Definition ci (p c : char) : bool := N.eqb (canon c) (canon p).

Fixpoint ci_prefix (k s : text) : option text :=
  match k with
  | [] => Some s
  | p :: k' =>
      match s with
      | c :: s' => if ci p c then ci_prefix k' s' else None
      | [] => None
      end
  end.

(** The literal [k] is found somewhere in [t]. *)
Fixpoint occurs_ci (k t : text) : bool :=
  match ci_prefix k t with
  | Some _ => true
  | None => match t with [] => false | _ :: t' => occurs_ci k t' end
  end.

(** The signature pattern as the specification words it,
    [( signature :? \s* )? michael], to be compared with
    [signature_pattern]. *)
Definition spec_signature_pattern : re :=
  cat [Opt (Grp 1 (cat [lits (str "signature"); Opt (Chr (Lit (ch ":")));
                        Star Space]));
       lits (str "michael")].

(** Number of positions at which the literal [k] is found, case ignored. *)
Fixpoint count_ci (k t : text) : nat :=
  (match ci_prefix k t with Some _ => 1 | None => 0 end)
  + match t with [] => 0 | _ :: t' => count_ci k t' end.

(** ** Bullet lines *)

(** A text without a line break: a line. *)
Definition no_nl (s : text) : Prop := Forall (fun c : char => N.eqb c NL = false) s.

(** The class [[-\u2022]]. *)
Definition is_marker (c : char) : bool := N.eqb c (ch "-") || N.eqb c BULLET.

(** The text captured by [(.+)] behind [\s+], read from behind the first
    white-space character: the longest white-space run is skipped, but one
    character is always left for the group. *)
Fixpoint content_of (s : text) : option text :=
  match s with
  | [] => None
  | d :: s' =>
      if isspace d then
        match content_of s' with
        | Some c => Some c
        | None => Some (d :: s')
        end
      else Some (d :: s')
  end.

(** Group 3 of [bullet_pattern] on a line, if the line matches. *)
Fixpoint bullet_line (l : text) : option text :=
  match l with
  | [] => None
  | c :: l' =>
      if isspace c then bullet_line l'
      else if is_marker c then
        match l' with
        | w :: r => if isspace w then content_of r else None
        | [] => None
        end
      else None
  end.

(** What a match of the bullet pattern is used for: its length and the
    span of group 3. *)
Definition proj3 (m : mstate) : nat * option (nat * nat) :=
  (m_pos m, span_of 3 (m_caps m)).

(** A run of white space. *)
Definition all_space (s : text) : Prop := Forall (fun c : char => isspace c = true) s.

(** The lines the bullet pattern matches: indentation, a marker, at least
    one white-space character, at least one more character. *)
Definition bullet_shape (l : text) : Prop :=
  exists ws mk ws' c,
    l = ws ++ mk :: ws' ++ c /\ all_space ws /\ is_marker mk = true
    /\ ws' <> [] /\ all_space ws' /\ c <> [].

(** ** Header lines *)

(** A position at the start of a line ([^] under MULTILINE). *)
Definition bol (prev : option char) : bool :=
  match prev with None => true | Some c => N.eqb c NL end.

Definition is_some {A} (o : option A) : bool :=
  match o with Some _ => true | None => false end.

(** A line that starts with the header and a colon: the text behind the
    colon. *)
Definition colon_form (K l : text) : option text :=
  match ci_prefix K l with
  | Some (c :: rest) => if N.eqb c (ch ":") then Some rest else None
  | _ => None
  end.

(** A line that is the header and nothing else. *)
Definition alone_form (K l : text) : bool :=
  match ci_prefix K l with Some [] => true | _ => false end.

(** The replacement [**\1**] for a group 1 that captured [k]. *)
Definition bold (k : text) : text := str "**" ++ k ++ str "**".

(** What the pattern [^(K):] makes of a line, and what [^(K)$] makes
    of it. *)
Definition wrap_colon (K l : text) : text :=
  match colon_form K l with
  | Some rest => bold (firstn (length K) l) ++ rest
  | None => l
  end.

Definition wrap_alone (K l : text) : text :=
  if alone_form K l then bold l else l.

(** A position at the end of a line ([$] under MULTILINE). *)
Definition eolm (r : text) : bool :=
  match r with [] => true | c :: _ => N.eqb c NL end.

(** Header keywords are made of letters and blanks and start with a
    letter. *)
Definition plain_char (p : char) : bool :=
  in_range 97 122 (canon p) || N.eqb p 32.

(** ... and have no [x]. *)
Definition hchar (p : char) : bool := plain_char p && negb (ci (ch "x") p).

Definition header_ok (K : text) : bool :=
  match K with
  | p :: _ => in_range 97 122 (canon p) && forallb hchar K
  | [] => false
  end.

(** A non-empty keyword of letters and blanks. *)
Definition plain (K : text) : Prop := K <> [] /\ forallb plain_char K = true.

(** The guard of [format_step]: the header occurs between emphasis
    markers, case ignored. *)
Definition wrapped (K t : text) : bool :=
  occurs_ci (str "**" ++ K ++ str "**") t.

(** Some line of [t] starts with the header and a colon; some line of [t]
    is the header alone. *)
Definition has_colon (K t : text) : bool :=
  existsb (fun l => is_some (colon_form K l)) (split_nl t).

Definition has_alone (K t : text) : bool :=
  existsb (alone_form K) (split_nl t).

(** ** The shape of the Error Normalizer's patterns *)

(** The character tests of the Error Normalizer's patterns under
    IGNORECASE. *)
Definition is_M (c : char) : bool := ci (ch "M") c.
Definition is_x (c : char) : bool := ci (ch "x") c.
Definition is_L (c : char) : bool := ci (ch "L") c.
Definition is_sep (c : char) : bool := ci (ch ".") c || isspace c.
Definition is_AZ (c : char) : bool := atom_ok F_I (Range (ch "A") (ch "Z")) c.
Definition no_gap (c : char) : bool := false.

(** [\b] between two neighbours, for the word characters [w]. *)
Definition wbb (w : char -> bool) (a b : option char) : bool :=
  xorb (optb w a) (optb w b).

(** The three patterns have one shape: a word boundary, a first letter,
    separators, [x], a gap (white space in the second pattern, nothing in the
    others), [L], a word boundary.  [e_head] is a match of that shape at the
    head of [s]: the last character of the match and the text behind it. *)
Section Shape.

Variables (w : char -> bool) (isc gap : char -> bool).

Fixpoint fin (s : text) : option (char * text) :=
  match s with
  | [] => None
  | d :: s' =>
      if is_L d then
        if wbb w (Some d) (hd_error s') then Some (d, s') else None
      else if gap d then fin s' else None
  end.

Fixpoint mid (s : text) : option (char * text) :=
  match s with
  | [] => None
  | d :: s' =>
      if is_x d then fin s'
      else if is_sep d then mid s' else None
  end.

Definition e_head (prev : option char) (s : text) : option (char * text) :=
  match s with
  | c :: s' => if wbb w prev (Some c) && isc c then mid s' else None
  | [] => None
  end.

End Shape.

(** What a match of one of the patterns is used for (left neighbour,
    remaining text, groups), and the same read off [e_head]. *)
Definition proj (st : mstate) : option char * text * list (nat * (nat * nat)) :=
  (m_prev st, m_rest st, m_caps st).

Definition inj (caps : list (nat * (nat * nat))) (p : char * text)
  : option char * text * list (nat * (nat * nat)) :=
  (Some (fst p), snd p, caps).

(** ** Edit scripts *)

(** An edit script between a text and its rewriting: characters are copied
    (at positions where [cp] holds) or a block [m] is replaced by [r] (where
    [blk] holds of the left neighbour, the block, its replacement and the
    text behind it).  The first index is the left neighbour in the input. *)
Inductive edit (cp : option char -> text -> Prop)
          (blk : option char -> text -> text -> text -> Prop)
  : option char -> text -> text -> Prop :=
| ed_nil pv : edit cp blk pv [] []
| ed_copy pv c s o :
    cp pv (c :: s) -> edit cp blk (Some c) s o ->
    edit cp blk pv (c :: s) (c :: o)
| ed_blk pv m r s o :
    blk pv m r s -> edit cp blk (lastc m pv) s o ->
    edit cp blk pv (m ++ s) (r ++ o).

(** A match of the shape somewhere in a text whose left neighbour is
    [pv]. *)
Definition occ (w isc gap : char -> bool) (pv : option char) (s : text) : Prop :=
  exists a b, s = a ++ b /\ e_head w isc gap (lastc a pv) b <> None.

(** The replacement of one match of a shape: the template of the
    Error Normalizer's third pattern keeps the first letter, the other two
    write [M]. *)
Definition keep_first (s : text) : text := firstn 1 s ++ str "BL".
Definition write_M (s : text) : text := str "MBL".

(** The blocks of a substitution for a shape: a match at the head, replaced
    by [repl]. *)
Definition shape_blk (w isc gap : char -> bool) (repl : text -> text)
           (pv : option char) (m r s : text) : Prop :=
  exists l, e_head w isc gap pv (m ++ s) = Some (l, s)
            /\ lastc m pv = Some l /\ m <> [] /\ r = repl (m ++ s).

(** A character is copied where no match of the shape starts. *)
Definition shape_cp (w isc gap : char -> bool) (pv : option char) (s : text)
  : Prop :=
  e_head w isc gap pv s = None.

(** No match of the shape can start at the head of [s]. *)
Definition nostart (isc : char -> bool) (s : text) : Prop :=
  match s with [] => True | c :: _ => isc c = false end.

(** The characters that [[A-Z]] matches under IGNORECASE. *)
Definition letter (c : char) : bool := in_range 97 122 (canon c).

(** What the transport needs of a block of the Error Normalizer: a first
    character replaced by one of the same word class, followed by [BL], for
    a block that ended in [L]. *)
Definition eblk (w : char -> bool) (pv : option char) (m r s : text) : Prop :=
  exists c c' mt l,
    m = c :: mt /\ r = [c'; 66%N; 76%N] /\ w c = w c' /\ letter c' = true
    /\ lastc m None = Some l /\ is_L l = true.

(** ** Invariants of the pipeline *)

(** A text without a match of the second or of the third pattern (every
    match of the first is one of the third). *)
Definition clean (ua : char -> bool) (t : text) : Prop :=
  ~ occ (is_word ua) is_M isspace None t
  /\ ~ occ (is_word ua) is_AZ no_gap None t.

(** The end of a line. *)
Definition line_end (s : text) : Prop := s = [] \/ exists s', s = NL :: s'.

(** The blocks of the Header Formatter: at a line start, a header and its
    colon, or a header that ends its line, replaced by the header between
    emphasis markers. *)
Definition hblk (pv : option char) (m r s : text) : Prop :=
  bol pv = true
  /\ exists k, k <> [] /\ forallb hchar k = true /\ r = bold k
               /\ (m = k ++ [ch ":"] \/ (m = k /\ line_end s)).

(** The blocks of the Bullet Normalizer: at a line start, indentation,
    marker and white space, replaced by the canonical marker. *)
Definition bblk (pv : option char) (m r s : text) : Prop :=
  bol pv = true /\ r = str " -  "
  /\ exists ws mk ws', m = ws ++ mk :: ws' /\ all_space ws
                       /\ is_marker mk = true /\ ws' <> [] /\ all_space ws'.

(** The blocks of the two line-oriented stages. *)
Definition lblk (pv : option char) (m r s : text) : Prop :=
  hblk pv m r s \/ bblk pv m r s.

(** Copying is allowed everywhere. *)
Definition any_cp (pv : option char) (s : text) : Prop := True.

(** A header whose pass has nothing left to do: it is wrapped somewhere, or
    no line starts with it in one of the two forms. *)
Definition settled (K t : text) : Prop :=
  wrapped K t = true \/ (has_colon K t = false /\ has_alone K t = false).

(** The line maps of the pipeline: a line is kept, or its start [p], free
    of emphasis markers, is replaced, and the new line starts with a
    character that no header starts with. *)
Definition line_edit (g : text -> text) : Prop :=
  (forall l, no_nl l -> no_nl (g l))
  /\ forall l, no_nl l ->
       g l = l
       \/ exists p r rest, l = p ++ rest /\ g l = r ++ rest
            /\ Forall (fun c : char => N.eqb c 42 = false) p
            /\ exists c r', r = c :: r' /\ letter c = false.

(** A run [k] followed by [r] in which no match of the shape starts, [prev]
    being the left neighbour of the run. *)
Definition solid_at (w isc gap : char -> bool) (prev : option char)
           (k r : text) : Prop :=
  forall a b, k = a ++ b -> b <> [] ->
    e_head w isc gap (lastc a prev) (b ++ r) = None.

(** ** Examples and the specification's wording *)

(** A word-character table without word characters above U+007F, for
    examples on ASCII texts. *)
Definition no_high_word (c : char) : bool := false.

(** The contract as the specification words it, to be compared with
    [_fix_common_errors]: one substitution, of the word-bounded pattern
    "capital letter, dots or blanks, xL", case ignored, by the letter and
    "BL". *)
Definition spec_error_pattern (ua : char -> bool) : re :=
  cat [wordb ua; Grp 1 (Chr (Range (ch "A") (ch "Z")));
       Star (Or (Lit (ch ".")) (Lit (ch " ")));
       Chr (Lit (ch "x")); Chr (Lit (ch "L")); wordb ua].

Definition spec_fix_common_errors (ua : char -> bool) (t : text) : text :=
  re_sub F_I (spec_error_pattern ua) tpl_1BL t.

(** The text that reaches the pass of a header: the passes of the headers
    before it have run. *)
Definition at_turn (pre : list text) (t : text) : text :=
  fold_left format_header pre t.

(* ================================================================= *)
(** * The rest of the service: more string methods *)

(** [s.lstrip()] and [s.strip()]. *)
Fixpoint lstrip (s : text) : text :=
  match s with
  | [] => []
  | c :: s' => if isspace c then lstrip s' else s
  end.

Definition strip (s : text) : text := lstrip (rstrip s).

(** [s.split()]: the maximal runs of characters that are not white
    space. *)
Fixpoint split_ws (s : text) : list text :=
  match s with
  | [] => []
  | c :: s' =>
      if isspace c then split_ws s'
      else
        match s' with
        | [] => [[c]]
        | d :: _ =>
            if isspace d then [c] :: split_ws s'
            else match split_ws s' with
                 | w :: ws => (c :: w) :: ws
                 | [] => [[c]]
                 end
        end
  end.

(** [s.split(sep)] for a separator of one character. *)
Fixpoint split_chr (sep : char) (s : text) : list text :=
  match s with
  | [] => [[]]
  | c :: s' =>
      if N.eqb c sep then [] :: split_chr sep s'
      else match split_chr sep s' with
           | l :: ls => (c :: l) :: ls
           | [] => [[c]]
           end
  end.

(** [sep.join(ls)]. *)
Fixpoint join (sep : text) (ls : list text) : text :=
  match ls with
  | [] => []
  | l :: ls' =>
      match ls' with
      | [] => l
      | _ :: _ => l ++ sep ++ join sep ls'
      end
  end.

(** The truth value of a string: it is not empty. *)
Definition truthy (s : text) : bool :=
  match s with [] => false | _ :: _ => true end.

(** [s.lower()].  On a text of ASCII characters it maps the capital
    letters to the small ones; beyond, it is a table of the Unicode database
    applied with a rule that looks at the context, the parameter
    [ulower]. *)
Definition ascii_lower (c : char) : char :=
  if in_range 65 90 c then (c + 32)%N else c.

Definition isascii (s : text) : bool := forallb (fun c : char => N.ltb c 128) s.

Definition lower (ulower : text -> text) (s : text) : text :=
  if isascii s then map ascii_lower s else ulower s.

(* ================================================================= *)
(** * The rest of the service: requests, exceptions, results *)

(** A request of [client.chat.completions.create]: the model, the
    messages, [max_tokens] and [temperature] (in tenths: the source has
    [0.0], [0.1] and [0.3]).  The content of a message is a string or a list
    of parts, a text and the URL of an image. *)
Inductive part :=
| PText (t : text)
| PImageUrl (url : text).

Inductive body :=
| Plain (t : text)
| Parts (ps : list part).

Record message := Message { msg_role : text; msg_content : body }.

Record request := Request {
  rq_model : text;
  rq_messages : list message;
  rq_max_tokens : N;
  rq_temperature : N }.

(** The exceptions the callers tell apart: [ValueError] and what derives
    from it, [HTTPException], anything else; the text is [str(e)].  Of the
    others, [IndexError] and [AttributeError] are those that reading a
    response raises. *)
Inductive exn :=
| ValueError (s : text)
| HTTPException (status_code : N) (detail : text)
| IndexError (s : text)
| AttributeError (s : text)
| OtherError (s : text).

(** What the code reads of a response of the API: the contents of the
    messages of its choices, [response.choices[i].message.content], each a
    string or [None]. *)
Definition response := list (option text).

(** [response.choices[0].message.content.strip()]: the index raises
    [IndexError] on a response without a choice, the call of [strip] raises
    [AttributeError] on the content [None]. *)
Definition first_content_stripped (r : response) : exn + text :=
  match r with
  | [] => inl (IndexError (str "list index out of range"))
  | None :: _ =>
      inl (AttributeError (str "'NoneType' object has no attribute 'strip'"))
  | Some content :: _ => inr (strip content)
  end.

(** What [json.loads] does with a string: a value, [JSONDecodeError], or
    another exception.  The values of JSON are the parameter [J]. *)
Inductive jres (J : Type) :=
| JValue (v : J)
| JSONDecodeError
| JRaise.

Arguments JValue {J} v.
Arguments JSONDecodeError {J}.
Arguments JRaise {J}.

(** A list of strings built by the code, or whatever [json.loads]
    returned. *)
Inductive items (J : Type) :=
| Strs (l : list text)
| Json (v : J).

Arguments Strs {J} l.
Arguments Json {J} v.

(** The dictionary [extract_text_from_base64_images] returns
    ([confidence] is the float [95.0]). *)
Record extraction := Extraction {
  ex_text : text;
  ex_confidence : N;
  ex_word_count : nat;
  ex_character_count : nat;
  ex_language : text;
  ex_extraction_method : text;
  ex_page_count : nat }.

(** The dictionary [analyze_text] returns. *)
Record analysis (J : Type) := Analysis {
  an_title : text;
  an_category : text;
  an_tags : items J;
  an_summary : text;
  an_sentiment : text;
  an_key_points : items J }.

Arguments Analysis {J}.
Arguments an_title {J}.
Arguments an_category {J}.
Arguments an_tags {J}.
Arguments an_summary {J}.
Arguments an_sentiment {J}.
Arguments an_key_points {J}.

(** The fallback table of [_generate_tags]. *)
Definition tag_map : list (text * list text) :=
  [ (str "Meeting Notes", [str "meeting"; str "work"; str "notes"]);
    (str "Personal Journal", [str "personal"; str "journal"; str "reflection"]);
    (str "Study Notes", [str "study"; str "learning"; str "education"]);
    (str "Shopping List", [str "shopping"; str "list"; str "items"]);
    (str "Reminder", [str "reminder"; str "todo"; str "important"]);
    (str "Ideas/Brainstorming", [str "ideas"; str "brainstorming"; str "creative"]);
    (str "Contact Info", [str "contact"; str "information"; str "people"]) ].

(** [d.get(key, default)] on a dictionary given by its items. *)
Fixpoint dict_get {V} (d : list (text * V)) (key : text) (default : V) : V :=
  match d with
  | [] => default
  | (k, v) :: d' => if text_eqb k key then v else dict_get d' key default
  end.

(* ================================================================= *)
(** * The rest of the service: [AIService] *)

Section AIServiceModel.

(** The outside world is a state [W] that every call to the API reads and
    changes; a client is the function that answers a request with a
    response, or raises. *)
Variable W : Type.
Variable J : Type.
Variable json_loads : text -> jres J.
Variable ulower : text -> text.
Variable ua : char -> bool.

Definition Client := request -> W -> (exn + response) * W.

(** The attributes of [AIService] that its methods read. *)
Record AIService := {
  client : option Client;
  model : text;
  default_prompt_template : text }.

(** The request of one page in [extract_text_from_base64_images]. *)
Definition vision_request (prompt_text base64_image : text) : request :=
  Request (str "gpt-4o")
    [Message (str "user")
       (Parts [PText prompt_text;
               PImageUrl (str "data:image/png;base64," ++ base64_image)])]
    4000 0.

(** The loop over the pages: the stripped content of each answer, in
    order; the first exception, of the call or of the reading of its
    response, ends the loop. *)
Fixpoint extract_pages (c : Client) (prompt_text : text) (base64_images : list text)
         (w : W) : (exn + list text) * W :=
  match base64_images with
  | [] => (inr [], w)
  | base64_image :: rest =>
      match c (vision_request prompt_text base64_image) w with
      | (inl e, w1) => (inl e, w1)
      | (inr response, w1) =>
          match first_content_stripped response with
          | inl e => (inl e, w1)
          | inr page_text =>
              match extract_pages c prompt_text rest w1 with
              | (inl e, w2) => (inl e, w2)
              | (inr all_text_parts, w2) => (inr (page_text :: all_text_parts), w2)
              end
          end
      end
  end.

(** [len([w for w in text.split() if w.strip()])]. *)
Definition word_count (t : text) : nat :=
  length (filter (fun w => truthy (strip w)) (split_ws t)).

Definition extract_text_from_base64_images (self : AIService)
           (base64_images : list text) (prompt_template : option text) (w : W)
  : (exn + extraction) * W :=
  match client self with
  | None =>
      (inl (ValueError (str "OpenAI API key is required for text extraction")), w)
  | Some c =>
      let prompt_text :=
        match prompt_template with
        | Some p => p
        | None => default_prompt_template self
        end in
      match extract_pages c prompt_text base64_images w with
      | (inl e, w1) => (inl e, w1)
      | (inr all_text_parts, w1) =>
          let combined_text := normalize ua (join [NL; NL] all_text_parts) in
          (inr (Extraction combined_text 95 (word_count combined_text)
                           (length combined_text) (str "en") (str "gpt4o-vision")
                           (length base64_images)), w1)
      end
  end.

(** The request of the analysis methods: a system message and the start of
    the text. *)
Definition chat_request (self : AIService) (system user : text)
           (max_tokens temperature : N) : request :=
  Request (model self)
    [Message (str "system") (Plain system); Message (str "user") (Plain user)]
    max_tokens temperature.

(** [' '.join(words) if words else 'Untitled Note'] for the first five
    words. *)
Definition first_words (t : text) : text :=
  match firstn 5 (split_ws t) with
  | [] => str "Untitled Note"
  | words => join (str " ") words
  end.

Definition _generate_title (self : AIService) (t : text) (w : W) : text * W :=
  match client self with
  | None => (first_words t, w)
  | Some c =>
      match c (chat_request self
                 (str "Generate a concise, descriptive title (max 50 characters) for the following handwritten note text:")
                 (firstn 500 t) 50 3) w with
      | (inr response, w1) =>
          match first_content_stripped response with
          | inr title => (title, w1)
          | inl _ => (first_words t, w1)
          end
      | (inl _, w1) => (first_words t, w1)
      end
  end.

Definition _categorize_text (self : AIService) (t : text) (w : W) : text * W :=
  match client self with
  | None => (str "General", w)
  | Some c =>
      match c (chat_request self
                 (str "Categorize this handwritten note into one of these categories: Meeting Notes, Personal Journal, Study Notes, Shopping List, Reminder, Ideas/Brainstorming, Contact Info, Other. Respond with only the category name.")
                 (firstn 500 t) 20 1) w with
      | (inr response, w1) =>
          match first_content_stripped response with
          | inr category => (category, w1)
          | inl _ => (str "General", w1)
          end
      | (inl _, w1) => (str "General", w1)
      end
  end.

(** [[s.strip() for s in ls if s.strip()]]. *)
Definition stripped (ls : list text) : list text :=
  map strip (filter (fun s => truthy (strip s)) ls).

(** The first three sentences, as [_extract_key_points] takes them. *)
Definition first_sentences (t : text) : list text :=
  stripped (firstn 3 (split_chr (ch ".") t)).

Definition _extract_key_points (self : AIService) (t : text) (w : W)
  : items J * W :=
  match client self with
  | None => (Strs (first_sentences t), w)
  | Some c =>
      match c (chat_request self
                 (str "Extract 3-5 key points from this handwritten note. Return as a JSON array of strings.")
                 (firstn 800 t) 200 3) w with
      | (inr response, w1) =>
          match first_content_stripped response with
          | inr result =>
              match json_loads result with
              | JValue v => (Json v, w1)
              | JSONDecodeError => (Strs (stripped (split_chr NL result)), w1)
              | JRaise => (Strs (first_sentences t), w1)
              end
          | inl _ => (Strs (first_sentences t), w1)
          end
      | (inl _, w1) => (Strs (first_sentences t), w1)
      end
  end.

(** [text[:200] + "..." if len(text) > 200 else text]. *)
Definition truncated (t : text) : text :=
  if Nat.ltb 200 (length t) then firstn 200 t ++ str "..." else t.

Definition _generate_summary (self : AIService) (t : text) (w : W) : text * W :=
  match client self with
  | None => (truncated t, w)
  | Some c =>
      match c (chat_request self
                 (str "Generate a concise summary (2-3 sentences) of this handwritten note:")
                 (firstn 1000 t) 150 3) w with
      | (inr response, w1) =>
          match first_content_stripped response with
          | inr summary => (summary, w1)
          | inl _ => (truncated t, w1)
          end
      | (inl _, w1) => (truncated t, w1)
      end
  end.

Definition _analyze_sentiment (self : AIService) (t : text) (w : W) : text * W :=
  match client self with
  | None => (str "neutral", w)
  | Some c =>
      match c (chat_request self
                 (str "Analyze the sentiment of this text. Respond with only one word: positive, negative, or neutral.")
                 (firstn 500 t) 10 1) w with
      | (inr response, w1) =>
          match first_content_stripped response with
          | inr sentiment => (lower ulower sentiment, w1)
          | inl _ => (str "neutral", w1)
          end
      | (inl _, w1) => (str "neutral", w1)
      end
  end.

Definition _generate_tags (self : AIService) (t category : text) (w : W)
  : items J * W :=
  match client self with
  | None => (Strs (dict_get tag_map category [str "general"; str "notes"]), w)
  | Some c =>
      match c (chat_request self
                 (str "Generate 3-5 relevant tags for this " ++ category
                  ++ str " note. Return as a JSON array of strings.")
                 (firstn 500 t) 100 3) w with
      | (inr response, w1) =>
          match first_content_stripped response with
          | inr result =>
              match json_loads result with
              | JValue v => (Json v, w1)
              | JSONDecodeError =>
                  (Strs (map (lower ulower) (stripped (split_chr (ch ",") result))), w1)
              | JRaise => (Strs [lower ulower category; str "notes"], w1)
              end
          | inl _ => (Strs [lower ulower category; str "notes"], w1)
          end
      | (inl _, w1) => (Strs [lower ulower category; str "notes"], w1)
      end
  end.

(** [analyze_text].  Its own [except] clause is not reached: each of the
    six methods catches what its call raises. *)
Definition analyze_text (self : AIService) (t : text) (w : W) : analysis J * W :=
  if negb (truthy (strip t)) then
    (Analysis (str "Untitled Note") (str "Unknown") (Strs []) (str "No text found")
              (str "neutral") (Strs []), w)
  else
    let (title, w1) := _generate_title self t w in
    let (category, w2) := _categorize_text self t w1 in
    let (key_points, w3) := _extract_key_points self t w2 in
    let (summary, w4) := _generate_summary self t w3 in
    let (sentiment, w5) := _analyze_sentiment self t w4 in
    let (tags, w6) := _generate_tags self t category w5 in
    (Analysis title category tags summary sentiment key_points, w6).

End AIServiceModel.

(* ================================================================= *)
(** * The caller: the upload endpoint of [api/notes.py] *)

(** What the endpoint reads of the uploaded file. *)
Record upload_file := {
  up_content_type : option text;
  up_filename : option text }.

(** The dictionary handed to [save_processed_note]. *)
Record note_data (J : Type) := NoteData {
  nd_title : text;
  nd_content : text;
  nd_original_filename : option text;
  nd_file_path : text;
  nd_confidence_score : N;
  nd_raw_text : text;
  nd_category : text;
  nd_tags : items J;
  nd_summary : text;
  nd_sentiment : text;
  nd_key_points : items J;
  nd_word_count : nat;
  nd_language : text;
  nd_page_count : nat;
  nd_extraction_method : text }.

Arguments NoteData {J}.
Arguments nd_title {J}.
Arguments nd_content {J}.
Arguments nd_raw_text {J}.
Arguments nd_category {J}.
Arguments nd_tags {J}.
Arguments nd_word_count {J}.
Arguments nd_page_count {J}.

(** What the endpoint reads of the stored note. *)
Record stored_note := { note_id : N; note_title : text }.

(** The answer of the endpoint. *)
Record upload_response := UploadResponse {
  ur_message : text;
  ur_note_id : N;
  ur_title : text;
  ur_confidence : N;
  ur_category : text;
  ur_file_type : option text;
  ur_extraction_method : text;
  ur_page_count : nat }.

(** The three [except] clauses of [upload_note]: a [ValueError] becomes
    status 400 with its text, an [HTTPException] is raised again, anything
    else becomes status 500. *)
Definition upload_error (e : exn) : exn :=
  match e with
  | ValueError s => HTTPException 400 s
  | HTTPException c d => HTTPException c d
  | IndexError s | AttributeError s | OtherError s =>
      HTTPException 500 (str "Error processing note: " ++ s)
  end.

Definition is_pdf (ct : option text) : bool :=
  match ct with
  | Some t => text_eqb t (str "application/pdf")
  | None => false
  end.

(** The dictionary [note_data] of [upload_note]. *)
Definition note_data_of {J : Type} (file : upload_file) (file_path : text)
           (extraction_result : extraction) (ai_result : analysis J) : note_data J :=
  NoteData (an_title ai_result)
           (ex_text extraction_result)
           (up_filename file)
           file_path
           (ex_confidence extraction_result)
           (ex_text extraction_result)
           (an_category ai_result)
           (an_tags ai_result)
           (an_summary ai_result)
           (an_sentiment ai_result)
           (an_key_points ai_result)
           (ex_word_count extraction_result)
           (ex_language extraction_result)
           (ex_page_count extraction_result)
           (ex_extraction_method extraction_result).

Section Upload.

Variable W : Type.
Variable J : Type.
Variable json_loads : text -> jres J.
Variable ulower : text -> text.
Variable ua : char -> bool.

(** The services the endpoint calls besides [AIService]: each call reads
    and changes the outside world, and returns or raises. *)
Variable save_uploaded_file : upload_file -> W -> (exn + text) * W.
Variable convert_pdf_to_base64_images : text -> W -> (exn + list text) * W.
Variable save_processed_note : note_data J -> W -> (exn + stored_note) * W.

Definition upload_note (ai_service : AIService W) (file : upload_file)
           (prompt_template : option text) (w : W)
  : (exn + upload_response) * W :=
  if negb (is_pdf (up_content_type file)) then
    (inl (upload_error (HTTPException 400 (str "Only PDF files are supported"))), w)
  else
    match save_uploaded_file file w with
    | (inl e, w1) => (inl (upload_error e), w1)
    | (inr file_path, w1) =>
        match convert_pdf_to_base64_images file_path w1 with
        | (inl e, w2) => (inl (upload_error e), w2)
        | (inr [], w2) =>
            (inl (upload_error
                    (HTTPException 400 (str "Could not convert PDF to images"))), w2)
        | (inr base64_images, w2) =>
            match extract_text_from_base64_images W ua ai_service base64_images
                    prompt_template w2 with
            | (inl e, w3) => (inl (upload_error e), w3)
            | (inr extraction_result, w3) =>
                if negb (truthy (strip (ex_text extraction_result))) then
                  (inl (upload_error
                          (HTTPException 400
                             (str "No text could be extracted from the PDF"))), w3)
                else
                  let (ai_result, w4) :=
                    analyze_text W J json_loads ulower ai_service
                                 (ex_text extraction_result) w3 in
                  match save_processed_note
                          (note_data_of file file_path extraction_result ai_result)
                          w4 with
                  | (inl e, w5) => (inl (upload_error e), w5)
                  | (inr note, w5) =>
                      (inr (UploadResponse (str "Note processed successfully")
                              (note_id note) (note_title note)
                              (ex_confidence extraction_result)
                              (an_category ai_result)
                              (up_content_type file)
                              (ex_extraction_method extraction_result)
                              (ex_page_count extraction_result)), w5)
                  end
            end
        end
    end.

End Upload.

(* ================================================================= *)
(** * The rest of the service: definitions for the statements *)

(** A word: not empty, without white space. *)
Definition word (w : text) : Prop :=
  w <> [] /\ Forall (fun c : char => isspace c = false) w.

(** No client, or a client whose every call raises. *)
Definition unavailable {W : Type} (self : AIService W) : Prop :=
  match client W self with
  | None => True
  | Some c => forall rq w, exists e w', c rq w = (inl e, w')
  end.

(** [p] is a piece of [t]. *)
Definition infix (p t : text) : Prop := exists a b, t = a ++ p ++ b.

(** The service without its client. *)
Definition without_client {W : Type} (self : AIService W) : AIService W :=
  Build_AIService W None (model W self) (default_prompt_template W self).

(** The prompt of an extraction: the template given, or else the default
    template of the service. *)
Definition prompt_of {W : Type} (self : AIService W) (prompt_template : option text)
  : text :=
  match prompt_template with
  | Some p => p
  | None => default_prompt_template W self
  end.

(** The client is asked for the pages [images] one after the other, from
    the world [w] on, and answers each time with a response whose first
    choice has a content: [contents] are these contents, page by page, and
    [w'] is the world after the last call. *)
Inductive answered {W : Type} (c : Client W) (prompt_text : text)
  : list text -> W -> list text -> W -> Prop :=
| answered_none w : answered c prompt_text [] w [] w
| answered_page image images w content others w1 contents w' :
    c (vision_request prompt_text image) w = (inr (Some content :: others), w1) ->
    answered c prompt_text images w1 contents w' ->
    answered c prompt_text (image :: images) w (content :: contents) w'.

(** The request for the page [image], made in the world [w], fails with
    [e] and leaves the world [w']: the client raises [e], or its response has
    no choice, or the content of its first choice is [None]. *)
Definition page_fails {W : Type} (c : Client W) (prompt_text image : text)
           (w : W) (e : exn) (w' : W) : Prop :=
  c (vision_request prompt_text image) w = (inl e, w')
  \/ (c (vision_request prompt_text image) w = (inr [], w')
      /\ e = IndexError (str "list index out of range"))
  \/ (exists others,
        c (vision_request prompt_text image) w = (inr (None :: others), w')
        /\ e = AttributeError (str "'NoneType' object has no attribute 'strip'")).

Section UploadCalls.

Variables (W J : Type) (json_loads : text -> jres J) (ulower : text -> text)
          (ua : char -> bool).
Variable save_uploaded_file : upload_file -> W -> (exn + text) * W.
Variable convert_pdf_to_base64_images : text -> W -> (exn + list text) * W.
Variable save_processed_note : note_data J -> W -> (exn + stored_note) * W.


End UploadCalls.

(** A world of one state, a JSON decoder that decodes nothing and a
    [lower] that leaves what is not ASCII alone, for examples. *)
Definition no_json (s : text) : jres unit := JSONDecodeError.
Definition same_text (s : text) : text := s.
Definition offline_service : AIService unit :=
  Build_AIService unit None (str "gpt-4o") (str "Transcribe the notes.").

(** Clients on a world of one state: one that answers every request with
    the same content, one whose every call raises, one whose responses have
    the content [None]. *)
Definition answering (page : text) : Client unit := fun _ w => (inr [Some page], w).
Definition failing : Client unit :=
  fun _ w => (inl (OtherError (str "Connection error.")), w).
Definition silent : Client unit := fun _ w => (inr [None], w).

(** A client on a world that counts the calls: it answers the first call
    and raises at every later one. *)
Definition second_call_fails : Client nat :=
  fun _ calls =>
    match calls with
    | 0 => (inr [Some (str "Page one")], 1)
    | S _ => (inl (OtherError (str "Rate limit reached.")), S calls)
    end.

Definition service_with (c : Client unit) : AIService unit :=
  Build_AIService unit (Some c) (str "gpt-4o") (str "Transcribe the notes.").

(** Services around the endpoint that do not fail. *)
Definition pdf_file : upload_file :=
  Build_upload_file (Some (str "application/pdf")) (Some (str "notes.pdf")).
Definition save_ok (f : upload_file) (w : unit) : (exn + text) * unit :=
  (inr (str "uploads/1.pdf"), w).
Definition convert_one (p : text) (w : unit) : (exn + list text) * unit :=
  (inr [str "cGFnZTE="], w).
Definition store_ok (nd : note_data unit) (w : unit) : (exn + stored_note) * unit :=
  (inr (Build_stored_note 1 (nd_title nd)), w).


(* ================================================================= *)
(** * The matcher consumes a prefix *)

Lemma lastc_app w1 w2 d : lastc (w1 ++ w2) d = lastc w2 (lastc w1 d).
Proof. unfold lastc. now rewrite fold_left_app. Qed.

Lemma reach_refl st : reach st st.
Proof. exists []. simpl. repeat split; lia. Qed.

Lemma reach_trans a b c : reach a b -> reach b c -> reach a c.
Proof.
  intros (w1 & E1 & P1 & V1) (w2 & E2 & P2 & V2).
  exists (w1 ++ w2). rewrite E1, E2, <- app_assoc, length_app, lastc_app.
  repeat split; try lia. now rewrite V2, V1.
Qed.

Lemma reach_step p c s n caps caps' :
  reach (MState p (c :: s) n caps) (MState (Some c) s (S n) caps').
Proof. exists [c]. simpl. repeat split; lia. Qed.

Lemma reach_caps st st' n b :
  reach st st' -> reach st (set_cap n b st').
Proof. intros (w & E & P & V). exists w. now simpl. Qed.

Lemma reach_same_caps p s n c1 c2 st' :
  reach (MState p s n c1) st' -> reach (MState p s n c2) st'.
Proof. intros (w & E & P & V). exists w. now simpl in *. Qed.

Lemma star_reach f a k s : forall prev pos caps res,
  star f a k prev pos caps s = Some res ->
  exists st', reach (MState prev s pos caps) st' /\ k st' = Some res.
Proof.
  induction s as [|c s IH]; intros prev pos caps res H; simpl in H.
  - eexists; split; [apply reach_refl | exact H].
  - destruct (atom_ok f a c).
    + destruct (star f a k (Some c) (S pos) caps s) eqn:E.
      * inversion H; subst. apply IH in E. destruct E as (st' & R & K).
        exists st'. split; [|exact K].
        eapply reach_trans; [apply reach_step | exact R].
      * eexists; split; [apply reach_refl | exact H].
    + eexists; split; [apply reach_refl | exact H].
Qed.

Lemma run_reach f r : forall k st res,
  run f r k st = Some res ->
  exists st', reach st st' /\ k st' = Some res.
Proof.
  induction r; intros k st res H; simpl in H.
  - eexists; split; [apply reach_refl | exact H].
  - destruct st as [p s n caps]; simpl in H. destruct s as [|c s]; [discriminate|].
    destruct (atom_ok f a c); [|discriminate].
    eexists; split; [apply reach_step | exact H].
  - destruct st as [p s n caps]; simpl in H. now apply star_reach in H.
  - destruct (at_bol f st); [|discriminate].
    eexists; split; [apply reach_refl | exact H].
  - destruct (at_eol f st); [|discriminate].
    eexists; split; [apply reach_refl | exact H].
  - destruct (at_wb w st); [|discriminate].
    eexists; split; [apply reach_refl | exact H].
  - apply IHr in H. destruct H as (st' & R & K).
    eexists; split; [|exact K]. now apply reach_caps.
  - apply IHr1 in H. destruct H as (st1 & R1 & K1).
    apply IHr2 in K1. destruct K1 as (st2 & R2 & K2).
    exists st2. split; [eapply reach_trans; eassumption | exact K2].
  - destruct (run f r k st) eqn:E.
    + inversion H; subst. now apply IHr in E.
    + eexists; split; [apply reach_refl | exact H].
Qed.

Lemma match_here_reach f r prev s st :
  match_here f r prev s = Some st ->
  exists w, s = w ++ m_rest st /\ m_pos st = length w /\ m_prev st = lastc w prev.
Proof.
  unfold match_here. intros H. apply run_reach in H.
  destruct H as (st' & (w & E & P & V) & K). inversion K; subst.
  exists w. simpl in *. auto.
Qed.

(* ================================================================= *)
(** * The scan of a substitution *)

(** The scan of [re.sub] does not depend on the fuel once it exceeds the
    length of the text. *)
Lemma sub_go_fuel f r tpl : forall n1 n2 prev s,
  length s < n1 -> length s < n2 ->
  sub_go f r tpl n1 prev s = sub_go f r tpl n2 prev s.
Proof.
  induction n1 as [|n1 IH]; intros n2 prev s H1 H2; [lia|].
  destruct n2 as [|n2]; [lia|]. simpl.
  destruct (match_here f r prev s) as [st|] eqn:E.
  - destruct (match_here_reach _ _ _ _ _ E) as (w & Es & Ep & Ev).
    destruct (m_pos st) eqn:P.
    + f_equal. destruct s as [|c s']; [reflexivity|].
      f_equal. apply IH; simpl in *; lia.
    + assert (L : length s = length w + length (m_rest st))
        by (rewrite Es at 1; apply length_app).
      f_equal. apply IH; lia.
  - destruct s as [|c s']; [reflexivity|].
    f_equal. apply IH; simpl in *; lia.
Qed.

Lemma sub_from_eq f r tpl prev s :
  sub_from f r tpl prev s =
  match match_here f r prev s with
  | Some st =>
      match m_pos st with
      | O => expand tpl s st ++
             match s with
             | [] => []
             | c :: s' => c :: sub_from f r tpl (Some c) s'
             end
      | S _ => expand tpl s st ++ sub_from f r tpl (m_prev st) (m_rest st)
      end
  | None =>
      match s with
      | [] => []
      | c :: s' => c :: sub_from f r tpl (Some c) s'
      end
  end.
Proof.
  unfold sub_from at 1. simpl.
  destruct (match_here f r prev s) as [st|] eqn:E.
  - destruct (match_here_reach _ _ _ _ _ E) as (w & Es & Ep & Ev).
    destruct (m_pos st) eqn:P.
    + f_equal. destruct s as [|c s']; [reflexivity|].
      f_equal; try (apply sub_go_fuel; simpl; lia).
    + assert (L : length s = length w + length (m_rest st))
        by (rewrite Es at 1; apply length_app).
      f_equal. apply sub_go_fuel; lia.
  - destruct s as [|c s']; [reflexivity|].
    f_equal; try (apply sub_go_fuel; simpl; lia).
Qed.

Lemma re_sub_eq f r tpl s : re_sub f r tpl s = sub_from f r tpl None s.
Proof. reflexivity. Qed.

(* ================================================================= *)
(** * Literal patterns *)

Lemma run_lits f (I : ignorecase f = true) K : forall k st,
  run f (lits K) k st =
  match ci_prefix K (m_rest st) with
  | Some rest =>
      k (MState (lastc (firstn (length K) (m_rest st)) (m_prev st)) rest
                (m_pos st + length K) (m_caps st))
  | None => None
  end.
Proof.
  induction K as [|p K IH]; intros k st.
  - destruct st as [pv s n caps]. simpl. now rewrite Nat.add_0_r.
  - destruct st as [pv s n caps].
    change (lits (p :: K)) with (Seq (Chr (Lit p)) (lits K)).
    simpl. destruct s as [|c s]; [reflexivity|].
    rewrite I. unfold ci. destruct (N.eqb (canon c) (canon p)); [|reflexivity].
    rewrite IH. simpl. destruct (ci_prefix K s); [|reflexivity].
    now rewrite Nat.add_succ_r.
Qed.

Lemma ci_prefix_app k a b r :
  ci_prefix k a = Some r -> ci_prefix k (a ++ b) = Some (r ++ b).
Proof.
  revert a. induction k as [|p k IH]; intros a H; simpl in *.
  - now inversion H.
  - destruct a as [|c a]; [discriminate|]. simpl.
    destruct (ci p c); [now apply IH | discriminate].
Qed.

Lemma occurs_app_r k a b : occurs_ci k b = true -> occurs_ci k (a ++ b) = true.
Proof.
  intros H. induction a as [|c a IH]; [exact H|].
  simpl. now destruct (ci_prefix k (c :: a ++ b)).
Qed.

Lemma occurs_app_l k a b : occurs_ci k a = true -> occurs_ci k (a ++ b) = true.
Proof.
  induction a as [|c a IH]; intros H.
  - simpl in H. destruct (ci_prefix k []) eqn:E; [|discriminate].
    apply (ci_prefix_app _ _ b) in E. destruct b; simpl in *; now rewrite E.
  - simpl in H. destruct (ci_prefix k (c :: a)) eqn:E.
    + apply (ci_prefix_app _ _ b) in E. simpl in *. now rewrite E.
    + simpl. destruct (ci_prefix k (c :: a ++ b)); [reflexivity | now apply IH].
Qed.

Lemma occurs_here k t r : ci_prefix k t = Some r -> occurs_ci k t = true.
Proof. intros H. destruct t; simpl in *; now rewrite H. Qed.

(** A pattern [( X )? literal] is found exactly where the literal is. *)
Lemma opt_lits_here f (I : ignorecase f = true) X k prev s :
  (match_here f (cat [Opt (Grp 1 X); lits k]) prev s <> None ->
   occurs_ci k s = true)
  /\ (ci_prefix k s <> None ->
      match_here f (cat [Opt (Grp 1 X); lits k]) prev s <> None).
Proof.
  unfold match_here. simpl. split.
  - destruct (run f X _ _) as [x|] eqn:E.
    + intros _. apply run_reach in E. destruct E as (st' & (w & Ew & _) & K).
      simpl in K, Ew. rewrite run_lits in K by assumption. simpl in K.
      destruct (ci_prefix k (m_rest st')) eqn:C; [|discriminate].
      rewrite Ew. apply occurs_app_r. eapply occurs_here; eassumption.
    + rewrite run_lits by assumption. simpl.
      destruct (ci_prefix k s) eqn:C; [|congruence].
      intros _. eapply occurs_here; eassumption.
  - intros C. destruct (run f X _ _) as [x|] eqn:E; [discriminate|].
    rewrite run_lits by assumption. simpl.
    destruct (ci_prefix k s); [discriminate | congruence].
Qed.

Lemma opt_lits_search f (I : ignorecase f = true) X k s : forall prev,
  search_from f (cat [Opt (Grp 1 X); lits k]) prev s = occurs_ci k s.
Proof.
  induction s as [|c s IH]; intros prev.
  - destruct (opt_lits_here f I X k prev []) as [A B]. simpl.
    destruct (match_here f _ prev []) eqn:E.
    + symmetry. apply A. discriminate.
    + destruct (ci_prefix k []); [|reflexivity]. exfalso. apply B; congruence.
  - destruct (opt_lits_here f I X k prev (c :: s)) as [A B].
    cbn [search_from occurs_ci].
    destruct (match_here f _ prev (c :: s)) eqn:E.
    + symmetry. apply A. discriminate.
    + destruct (ci_prefix k (c :: s)); [exfalso; apply B; congruence|].
      apply IH.
Qed.

Lemma search_signature t :
  re_search F_I signature_pattern t = occurs_ci (str "michael") t.
Proof. apply opt_lits_search. reflexivity. Qed.

Lemma search_spec_signature t :
  re_search F_I spec_signature_pattern t = occurs_ci (str "michael") t.
Proof. apply opt_lits_search. reflexivity. Qed.

(* ================================================================= *)
(** * String methods and the signature search *)

Lemma text_eqb_eq a : forall b, text_eqb a b = true -> a = b.
Proof.
  induction a as [|x a IH]; intros [|y b] H; simpl in H; try discriminate; auto.
  apply andb_true_iff in H. destruct H as [H1 H2].
  apply N.eqb_eq in H1. subst. f_equal. now apply IH.
Qed.

Lemma endswith_app s suf : endswith s suf = true -> exists u, s = u ++ suf.
Proof.
  unfold endswith. intros H. apply andb_true_iff in H. destruct H as [_ H].
  apply text_eqb_eq in H. exists (firstn (length s - length suf) s).
  rewrite <- H at 2. symmetry. apply firstn_skipn.
Qed.

Lemma rstrip_nil_or_last s :
  rstrip s = [] \/ exists u c, rstrip s = u ++ [c] /\ isspace c = false.
Proof.
  induction s as [|c s IH]; [now left|]. simpl.
  destruct IH as [E | (u & d & E & Hd)]; rewrite E.
  - destruct (isspace c) eqn:Hc; [now left|].
    right. exists [], c. auto.
  - right. destruct (u ++ [d]) eqn:Eu.
    + destruct u; discriminate.
    + exists (c :: u), d. rewrite <- Eu. auto.
Qed.

Lemma rstrip_no_space s u c : rstrip s = u ++ [c] -> isspace c = false.
Proof.
  intros H. destruct (rstrip_nil_or_last s) as [E | (u' & d & E & Hd)].
  - rewrite E in H. destruct u; discriminate.
  - rewrite E in H. apply app_inj_tail in H. destruct H as [_ ->]. exact Hd.
Qed.

Lemma rstrip_split s : exists ws, s = rstrip s ++ ws /\ Forall (fun c => isspace c = true) ws.
Proof.
  induction s as [|c s (ws & E & F)]; [exists []; auto|]. simpl.
  destruct (rstrip s) eqn:R.
  - destruct (isspace c) eqn:Hc.
    + exists (c :: ws). simpl in E. subst ws. auto.
    + exists ws. simpl in *. subst ws. auto.
  - exists ws. split; [|exact F]. simpl. f_equal. exact E.
Qed.

Lemma rstrip_keep u c : isspace c = false -> rstrip (u ++ [c]) = u ++ [c].
Proof.
  intros H. induction u as [|d u IH]; simpl.
  - now rewrite H.
  - rewrite IH. destruct (u ++ [c]) eqn:E; [destruct u; discriminate | reflexivity].
Qed.

Lemma endswith_rstrip_nl s : endswith (rstrip s) [NL] = false.
Proof.
  destruct (endswith (rstrip s) [NL]) eqn:E; [|reflexivity].
  apply endswith_app in E. destruct E as [u E].
  apply rstrip_no_space in E. discriminate.
Qed.

Lemma endswith_rstrip_nl2 s : endswith (rstrip s) [NL; NL] = false.
Proof.
  destruct (endswith (rstrip s) [NL; NL]) eqn:E; [|reflexivity].
  apply endswith_app in E. destruct E as [u E].
  change (u ++ [NL; NL]) with (u ++ [NL] ++ [NL]) in E. rewrite app_assoc in E.
  apply rstrip_no_space in E. discriminate.
Qed.

Lemma add_signature_found t :
  occurs_ci (str "michael") t = true -> _add_signature t = t.
Proof. intros H. unfold _add_signature. now rewrite search_signature, H. Qed.

Lemma add_signature_append t :
  occurs_ci (str "michael") t = false ->
  _add_signature t = rstrip t ++ [NL; NL] ++ (str "Michael").
Proof.
  intros H. unfold _add_signature. rewrite search_signature, H.
  rewrite endswith_rstrip_nl2, endswith_rstrip_nl. simpl.
  now rewrite <- app_assoc.
Qed.

Lemma occurs_add_signature t : occurs_ci (str "michael") (_add_signature t) = true.
Proof.
  destruct (occurs_ci (str "michael") t) eqn:H.
  - now rewrite add_signature_found.
  - rewrite add_signature_append by assumption.
    apply occurs_app_r. apply occurs_app_r. reflexivity.
Qed.

(** A literal without a line break is not found across a line break. *)
Lemma ci_prefix_nl k : Forall (fun p => ci p NL = false) k ->
  forall u r, k <> [] -> ci_prefix k (u ++ NL :: r) <> None -> ci_prefix k u <> None.
Proof.
  induction 1 as [|p k Hp Hk IH]; intros u r Hne H; [congruence|].
  destruct u as [|c u]; simpl in *.
  - now rewrite Hp in H.
  - destruct (ci p c); [|exact H].
    destruct k as [|q k]; [simpl; discriminate|].
    eapply IH; [discriminate | exact H].
Qed.

Lemma count_append_nl k r : Forall (fun p => ci p NL = false) k -> k <> [] ->
  forall u, occurs_ci k u = false ->
  count_ci k (u ++ NL :: r) = count_ci k (NL :: r).
Proof.
  intros Hk Hne. induction u as [|c u IH]; intros H; [reflexivity|].
  cbn [occurs_ci] in H. destruct (ci_prefix k (c :: u)) eqn:E; [discriminate|].
  change ((c :: u) ++ NL :: r) with (c :: (u ++ NL :: r)).
  cbn [count_ci]. rewrite IH by assumption.
  destruct (ci_prefix k (c :: u ++ NL :: r)) eqn:E2; [|reflexivity].
  exfalso. apply (ci_prefix_nl k Hk (c :: u) r Hne); simpl; congruence.
Qed.

Lemma michael_no_nl : Forall (fun p : char => ci p NL = false) (str "michael").
Proof. repeat constructor. Qed.

Lemma count_appended u :
  occurs_ci (str "michael") u = false ->
  count_ci (str "michael") (u ++ [NL; NL] ++ (str "Michael")) = 1.
Proof.
  intros H. change (u ++ [NL; NL] ++ (str "Michael")) with (u ++ NL :: (NL :: (str "Michael"))).
  rewrite count_append_nl; auto using michael_no_nl. discriminate.
Qed.

(* ================================================================= *)
(** * Lines *)

Ltac span_lia :=
  repeat match goal with
         | |- Some _ = Some _ => f_equal
         | |- (_, _) = (_, _) => apply f_equal2
         end; lia.

Lemma split_nl_nonempty s : split_nl s <> [].
Proof.
  destruct s as [|c s]; simpl; [discriminate|].
  destruct (N.eqb c NL); [discriminate|]. destruct (split_nl s); discriminate.
Qed.

Lemma join_split s : join_nl (split_nl s) = s.
Proof.
  induction s as [|c s IH]; [reflexivity|]. simpl.
  destruct (N.eqb c NL) eqn:E.
  - apply N.eqb_eq in E. subst c.
    change (join_nl ([] :: split_nl s)) with
      (match split_nl s with [] => [] | _ :: _ => [] ++ NL :: join_nl (split_nl s) end).
    pose proof (split_nl_nonempty s). destruct (split_nl s); [congruence|].
    simpl. now rewrite <- IH.
  - destruct (split_nl s) as [|l ls] eqn:S; [now destruct (split_nl_nonempty s)|].
    rewrite <- IH. simpl. now destruct ls.
Qed.

Lemma split_no_nl s : Forall no_nl (split_nl s).
Proof.
  induction s as [|c s IH]; simpl.
  - repeat constructor.
  - destruct (N.eqb c NL) eqn:E.
    + constructor; [constructor | exact IH].
    + destruct (split_nl s) as [|l ls]; [repeat constructor; exact E|].
      inversion IH; subst. constructor; [constructor; assumption | assumption].
Qed.

Lemma split_line l : no_nl l -> split_nl l = [l].
Proof.
  induction 1 as [|c l Hc Hl IH]; [reflexivity|].
  simpl. now rewrite Hc, IH.
Qed.

Lemma split_app_nl l s : no_nl l -> split_nl (l ++ NL :: s) = l :: split_nl s.
Proof.
  induction 1 as [|c l Hc Hl IH]; [reflexivity|].
  simpl. now rewrite Hc, IH.
Qed.

Lemma split_join ls : ls <> [] -> Forall no_nl ls -> split_nl (join_nl ls) = ls.
Proof.
  induction ls as [|l ls IH]; intros Hne F; [congruence|].
  inversion F; subst. destruct ls as [|l2 ls].
  - simpl. now apply split_line.
  - change (join_nl (l :: l2 :: ls)) with (l ++ NL :: join_nl (l2 :: ls)).
    rewrite split_app_nl by assumption. f_equal. apply IH; [discriminate | assumption].
Qed.

(* ================================================================= *)
(** * The bullet pattern *)

Lemma content_of_suffix s : forall c, content_of s = Some c -> exists p, s = p ++ c.
Proof.
  induction s as [|d s IH]; intros c H; simpl in H; [discriminate|].
  destruct (isspace d).
  - destruct (content_of s) as [c'|] eqn:E.
    + inversion H; subst. destruct (IH c eq_refl) as [p ->]. now exists (d :: p).
    + inversion H. now exists [].
  - inversion H. now exists [].
Qed.

Lemma bullet_line_suffix l : forall c, bullet_line l = Some c -> exists p, l = p ++ c.
Proof.
  induction l as [|d l IH]; intros c H; simpl in H; [discriminate|].
  destruct (isspace d).
  - destruct (IH c H) as [p ->]. now exists (d :: p).
  - destruct (is_marker d); [|discriminate].
    destruct l as [|w r]; [discriminate|]. destruct (isspace w); [|discriminate].
    destruct (content_of_suffix r c H) as [p ->]. now exists (d :: w :: p).
Qed.

Lemma star_dot_all s : forall prev pos caps k r,
  no_nl s ->
  k (MState (lastc s prev) [] (pos + length s) caps) = Some r ->
  star F_0 Dot k prev pos caps s = Some r.
Proof.
  induction s as [|c s IH]; intros prev pos caps k r N H; simpl in *.
  - now rewrite Nat.add_0_r in H.
  - inversion N; subst. rewrite H2. simpl.
    rewrite (IH (Some c) (S pos) caps k r); auto.
    now rewrite Nat.add_succ_r in H.
Qed.

Lemma content_step d s prev pos caps :
  no_nl (d :: s) ->
  option_map proj3
    (run F_0 (cat [Grp 3 (plus Dot); Eol]) (fun st => Some st)
         (MState prev (d :: s) pos caps))
  = Some (pos + S (length s), Some (pos, pos + S (length s))).
Proof.
  intros N. inversion N; subst. simpl. rewrite H1. simpl.
  erewrite star_dot_all; [| assumption | simpl; reflexivity].
  simpl. unfold proj3. simpl. span_lia.
Qed.

Lemma content_star s : no_nl s -> forall prev pos caps,
  option_map proj3
    (star F_0 Space (run F_0 (cat [Grp 3 (plus Dot); Eol]) (fun st => Some st))
          prev pos caps s)
  = option_map (fun c => (pos + length s,
                          Some (pos + (length s - length c), pos + length s)))
               (content_of s).
Proof.
  induction 1 as [|d s Hd Hs IH]; intros prev pos caps; [reflexivity|].
  assert (N : no_nl (d :: s)) by (constructor; assumption).
  cbn [star content_of atom_ok].
  destruct (isspace d).
  - specialize (IH (Some d) (S pos) caps).
    destruct (star F_0 Space _ (Some d) (S pos) caps s) as [r|] eqn:E.
    + destruct (content_of s) as [c|] eqn:C; [|discriminate].
      destruct (content_of_suffix s c C) as [p Ep].
      assert (length c <= length s) by (rewrite Ep, length_app; lia).
      cbn [option_map length] in *. rewrite IH. span_lia.
    + destruct (content_of s) as [c|] eqn:C; [discriminate|].
      rewrite content_step by assumption. simpl. span_lia.
  - rewrite content_step by assumption. simpl. span_lia.
Qed.

Lemma bullet_star l : no_nl l -> forall prev pos caps,
  option_map proj3
    (star F_0 Space
       (fun st' => run F_0 (cat [Grp 2 (Chr (Or (Lit (ch "-")) (Lit BULLET)));
                                 plus Space; Grp 3 (plus Dot); Eol])
                       (fun st => Some st) (set_cap 1 0 st'))
       prev pos caps l)
  = option_map (fun c => (pos + length l,
                          Some (pos + (length l - length c), pos + length l)))
               (bullet_line l).
Proof.
  induction 1 as [|d l Hd Hl IH]; intros prev pos caps; [reflexivity|].
  cbn [star bullet_line atom_ok].
  assert (M : isspace d = true -> is_marker d = false).
  { unfold is_marker, isspace, in_range, BULLET, ch. simpl.
    destruct (N.eqb_spec d 45); [subst; discriminate|].
    destruct (N.eqb_spec d 8226); [subst; discriminate|]. reflexivity. }
  destruct (isspace d) eqn:Sd.
  - specialize (IH (Some d) (S pos) caps). specialize (M eq_refl).
    destruct (star F_0 Space _ (Some d) (S pos) caps l) as [r|] eqn:E.
    + destruct (bullet_line l) as [c|] eqn:C; [|discriminate].
      destruct (bullet_line_suffix l c C) as [p Ep].
      assert (length c <= length l) by (rewrite Ep, length_app; lia).
      cbn [option_map length] in *. rewrite IH. span_lia.
    + destruct (bullet_line l) as [c|] eqn:C; [discriminate|].
      simpl. unfold is_marker in M. unfold ch in *. simpl in M. rewrite M. reflexivity.
  - simpl. unfold is_marker, ch. simpl.
    destruct (N.eqb d 45 || N.eqb d BULLET); [|reflexivity].
    destruct l as [|w r]; [reflexivity|]. simpl.
    destruct (isspace w); [|reflexivity].
    inversion Hl; subst.
    pose proof (content_star r H2 (Some w) (S (S pos)) ((2, (pos, S pos)) :: (1, (0, pos)) :: caps)) as CS.
    simpl in CS. rewrite CS.
    destruct (content_of r) as [t|] eqn:C; simpl; [|reflexivity].
    destruct (content_of_suffix r t C) as [p Ep].
    assert (length t <= length r) by (rewrite Ep, length_app; lia).
    destruct (length t) as [|[|n]]; span_lia.
Qed.

Lemma bullet_match_spec l : no_nl l ->
  match re_match F_0 bullet_pattern l, bullet_line l with
  | Some m, Some c => group l m 3 = c
  | None, None => True
  | _, _ => False
  end.
Proof.
  intros N. unfold re_match, match_here.
  pose proof (bullet_star l N None 0 []) as B.
  change (run F_0 bullet_pattern (fun st => Some st) (MState None l 0 []))
    with (star F_0 Space
       (fun st' => run F_0 (cat [Grp 2 (Chr (Or (Lit (ch "-")) (Lit BULLET)));
                                 plus Space; Grp 3 (plus Dot); Eol])
                       (fun st => Some st) (set_cap 1 0 st')) None 0 [] l).
  destruct (star F_0 Space _ None 0 [] l) as [m|];
    destruct (bullet_line l) as [c|] eqn:C; try discriminate; [|exact I].
  simpl in B. inversion B as [[P G]]. unfold group. rewrite G.
  destruct (bullet_line_suffix l c C) as [p Ep].
  rewrite P. subst l. rewrite length_app.
  replace (length p + length c - length c) with (length p) by lia.
  replace (length p + length c - length p) with (length c) by lia.
  rewrite skipn_app, skipn_all, Nat.sub_diag. simpl. apply firstn_all.
Qed.

Lemma fix_line_spec l : no_nl l ->
  fix_line l = match bullet_line l with
               | Some c => str " -  " ++ c
               | None => l
               end.
Proof.
  intros N. pose proof (bullet_match_spec l N) as B. unfold fix_line.
  destruct (re_match F_0 bullet_pattern l), (bullet_line l); try contradiction;
    [now subst | reflexivity].
Qed.

Lemma no_nl_app a b : no_nl (a ++ b) <-> no_nl a /\ no_nl b.
Proof. apply Forall_app. Qed.

Lemma marker_not_space c : is_marker c = true -> isspace c = false.
Proof.
  unfold is_marker, BULLET, ch. simpl. intros H.
  apply orb_true_iff in H. destruct H as [H|H]; apply N.eqb_eq in H; subst; reflexivity.
Qed.

Lemma content_of_some s : s <> [] -> content_of s <> None.
Proof.
  destruct s as [|d s]; [congruence|]. intros _. simpl.
  destruct (isspace d); [destruct (content_of s)|]; discriminate.
Qed.

Lemma content_of_nonempty s c : content_of s = Some c -> c <> [].
Proof.
  revert c. induction s as [|d s IH]; intros c H; simpl in H; [discriminate|].
  destruct (isspace d); [destruct (content_of s) eqn:E|]; inversion H; subst;
    try discriminate. now apply IH.
Qed.

Lemma content_of_fixed s c : content_of s = Some c -> content_of c = Some c.
Proof.
  revert c. induction s as [|d s IH]; intros c H; simpl in H; [discriminate|].
  destruct (isspace d) eqn:Sd.
  - destruct (content_of s) eqn:E; inversion H; subst; [now apply IH|].
    simpl. now rewrite Sd, E.
  - inversion H; subst. simpl. now rewrite Sd.
Qed.

Lemma content_of_split s c : content_of s = Some c ->
  exists ws, s = ws ++ c /\ all_space ws.
Proof.
  revert c. induction s as [|d s IH]; intros c H; simpl in H; [discriminate|].
  destruct (isspace d) eqn:Sd.
  - destruct (content_of s) eqn:E; inversion H; subst.
    + destruct (IH c eq_refl) as (ws & -> & F). exists (d :: ws).
      split; [reflexivity | now constructor].
    + exists []. split; [reflexivity | constructor].
  - inversion H; subst. exists []. split; [reflexivity | constructor].
Qed.

Lemma bullet_line_split l c : bullet_line l = Some c ->
  exists ws mk ws', l = ws ++ mk :: ws' ++ c /\ all_space ws /\ is_marker mk = true
                    /\ ws' <> [] /\ all_space ws' /\ c <> [] /\ content_of c = Some c.
Proof.
  revert c. induction l as [|d l IH]; intros c H; simpl in H; [discriminate|].
  destruct (isspace d) eqn:Sd.
  - destruct (IH c H) as (ws & mk & ws' & -> & F & R). exists (d :: ws), mk, ws'.
    split; [reflexivity|]. split; [now constructor | exact R].
  - destruct (is_marker d) eqn:Md; [|discriminate].
    destruct l as [|w r]; [discriminate|]. destruct (isspace w) eqn:Sw; [|discriminate].
    destruct (content_of_split r c H) as (ws' & -> & F).
    exists [], d, (w :: ws'). repeat split; auto.
    + constructor.
    + discriminate.
    + now constructor.
    + eapply content_of_nonempty; eassumption.
    + eapply content_of_fixed; eassumption.
Qed.

Lemma bullet_line_shape l : bullet_line l <> None <-> bullet_shape l.
Proof.
  split.
  - destruct (bullet_line l) as [c|] eqn:E; [|congruence]. intros _.
    destruct (bullet_line_split l c E) as (ws & mk & ws' & H & R).
    exists ws, mk, ws', c. tauto.
  - intros (ws & mk & ws' & c & -> & Fw & Mk & Hne & Fw' & Hc).
    induction Fw as [|d ws Hd Fw IH]; simpl.
    + rewrite (marker_not_space mk Mk), Mk.
      destruct ws' as [|w ws']; [congruence|]. inversion Fw'; subst.
      simpl. rewrite H1. apply content_of_some. destruct ws'; [assumption | discriminate].
    + now rewrite Hd.
Qed.

(** Group 3 starts with a character that is not white space, or it is
    one white-space character, the last of the line. *)
Lemma content_of_fixed_shape c : content_of c = Some c ->
  (exists d r, c = d :: r /\ isspace d = false)
  \/ (exists d, c = [d] /\ isspace d = true).
Proof.
  destruct c as [|d r]; simpl; [discriminate|]. destruct (isspace d) eqn:Sd.
  - destruct (content_of r) as [c'|] eqn:E.
    + intros H. inversion H as [H1]. apply content_of_suffix in E.
      destruct E as [p E]. rewrite H1 in E. apply (f_equal (@length char)) in E.
      rewrite length_app in E. simpl in E. lia.
    + intros _. right. exists d. split; [|exact Sd].
      destruct r as [|x r]; [reflexivity|].
      exfalso. apply (content_of_some (x :: r)); [discriminate | exact E].
  - intros _. left. eauto.
Qed.

Lemma content_of_spaces s d : all_space s -> isspace d = true ->
  content_of (s ++ [d]) = Some [d].
Proof.
  intros F Hd. induction F as [|x s Hx F IH]; simpl.
  - now rewrite Hd.
  - now rewrite Hx, IH.
Qed.

Lemma bullet_line_indent ws l : all_space ws -> bullet_line (ws ++ l) = bullet_line l.
Proof. induction 1 as [|x ws Hx F IH]; simpl; [reflexivity | now rewrite Hx]. Qed.

(** A line of white space and a line without marker do not match. *)
Lemma bullet_line_blank l : all_space l -> bullet_line l = None.
Proof. induction 1 as [|c l Hc F IH]; simpl; [reflexivity | now rewrite Hc]. Qed.

Lemma bullet_line_no_marker l :
  Forall (fun c : char => is_marker c = false) l -> bullet_line l = None.
Proof.
  induction 1 as [|c l Hc F IH]; simpl; [reflexivity|].
  rewrite Hc. now destruct (isspace c).
Qed.

(** A marker with white space only behind it: no match up to one
    character of white space, beyond that group 3 is the last character. *)
Lemma bullet_line_marker_only ws mk tail :
  all_space ws -> is_marker mk = true -> all_space tail ->
  (length tail <= 1 -> bullet_line (ws ++ mk :: tail) = None)
  /\ (forall ws' d, tail = ws' ++ [d] -> ws' <> [] ->
      bullet_line (ws ++ mk :: tail) = Some [d]).
Proof.
  intros Fw Mk Ft. rewrite (bullet_line_indent ws _ Fw). simpl.
  rewrite (marker_not_space mk Mk), Mk. split.
  - intros L. destruct tail as [|w [|x r]]; [reflexivity| |simpl in L; lia].
    inversion Ft as [|? ? Hw _]. now rewrite Hw.
  - intros ws' d -> Hne. destruct ws' as [|w ws']; [congruence|].
    simpl in Ft |- *. inversion Ft as [|? ? Hw Fr]. rewrite Hw.
    unfold all_space in Fr. apply Forall_app in Fr. destruct Fr as [Fs Fd].
    inversion Fd as [|? ? Hd _]. now apply content_of_spaces.
Qed.

Lemma fix_line_no_nl l : no_nl l -> no_nl (fix_line l).
Proof.
  intros N. rewrite fix_line_spec by assumption.
  destruct (bullet_line l) as [c|] eqn:E; [|assumption].
  destruct (bullet_line_suffix l c E) as [p ->]. apply no_nl_app in N.
  apply no_nl_app. split; [repeat constructor | tauto].
Qed.

Lemma bullet_line_canonical c : content_of c = Some c ->
  bullet_line (str " -  " ++ c) = Some c.
Proof. intros H. simpl. now rewrite H. Qed.

Lemma fix_line_idem l : no_nl l -> fix_line (fix_line l) = fix_line l.
Proof.
  intros N. pose proof (fix_line_no_nl l N) as N2.
  rewrite (fix_line_spec (fix_line l)) by assumption.
  rewrite fix_line_spec in * by assumption.
  destruct (bullet_line l) as [c|] eqn:E; [|now rewrite E].
  destruct (bullet_line_split l c E) as (ws & mk & ws' & _ & _ & _ & _ & _ & _ & Fx).
  now rewrite bullet_line_canonical.
Qed.

Lemma split_fix_bullet t :
  split_nl (_fix_bullet_format t) = map fix_line (split_nl t).
Proof.
  unfold _fix_bullet_format. apply split_join.
  - pose proof (split_nl_nonempty t). destruct (split_nl t); [congruence | discriminate].
  - pose proof (split_no_nl t) as F. induction F; constructor; auto using fix_line_no_nl.
Qed.

Lemma fix_bullet_idem t :
  _fix_bullet_format (_fix_bullet_format t) = _fix_bullet_format t.
Proof.
  unfold _fix_bullet_format at 1. rewrite split_fix_bullet.
  unfold _fix_bullet_format. f_equal. rewrite map_map.
  pose proof (split_no_nl t) as F.
  induction F as [|l ls Hl F IH]; [reflexivity|]. simpl.
  now rewrite fix_line_idem, IH.
Qed.

(* ================================================================= *)
(** * The header patterns *)

Lemma ci_prefix_cat a b s :
  ci_prefix (a ++ b) s =
  match ci_prefix a s with Some r => ci_prefix b r | None => None end.
Proof.
  revert s. induction a as [|p a IH]; intros s; [reflexivity|].
  simpl. destruct s as [|c s]; [reflexivity|]. destruct (ci p c); [apply IH | reflexivity].
Qed.

Lemma ci_prefix_split k : forall s r, ci_prefix k s = Some r ->
  s = firstn (length k) s ++ r /\ length (firstn (length k) s) = length k.
Proof.
  induction k as [|p k IH]; intros s r H; simpl in H.
  - inversion H. auto.
  - destruct s as [|c s]; [discriminate|]. destruct (ci p c); [|discriminate].
    destruct (IH s r H) as [E L]. simpl. rewrite L, <- E. auto.
Qed.

(** Characters compared equal, case ignored, to a character that is not a
    line break are not line breaks. *)
Lemma ci_not_nl p c : ci p NL = false -> ci p c = true -> N.eqb c NL = false.
Proof.
  unfold ci. intros H1 H2. destruct (N.eqb_spec c NL); [subst; congruence | reflexivity].
Qed.

Lemma ci_prefix_no_nl k : Forall (fun p : char => ci p NL = false) k ->
  forall s r, ci_prefix k s = Some r -> no_nl (firstn (length k) s).
Proof.
  induction 1 as [|p k Hp Hk IH]; intros s r H; simpl in *; [constructor|].
  destruct s as [|c s]; [discriminate|]. destruct (ci p c) eqn:E; [|discriminate].
  constructor; [eapply ci_not_nl; eassumption | eapply IH; eassumption].
Qed.

Lemma search_is_some f r k :
  (forall prev s, is_some (match_here f r prev s) = is_some (ci_prefix k s)) ->
  forall s prev, search_from f r prev s = occurs_ci k s.
Proof.
  intros H. induction s as [|c s IH]; intros prev; cbn [search_from occurs_ci];
    specialize (H prev); [specialize (H []) | specialize (H (c :: s))];
    destruct (match_here f r prev _), (ci_prefix k _); try discriminate; auto.
Qed.

Lemma search_wrapped K t :
  re_search F_IM (wrapped_pattern K) t = occurs_ci (str "**" ++ K ++ str "**") t.
Proof.
  apply search_is_some. intros prev s. unfold match_here, wrapped_pattern.
  cbn [cat fold_right run]. rewrite run_lits by reflexivity.
  rewrite ci_prefix_cat. cbn [m_rest].
  destruct (ci_prefix (str "**") s) as [r1|]; [|reflexivity].
  rewrite run_lits by reflexivity. rewrite ci_prefix_cat. cbn [m_rest].
  destruct (ci_prefix K r1) as [r2|]; [|reflexivity].
  rewrite run_lits by reflexivity. cbn [m_rest].
  destruct (ci_prefix (str "**") r2) as [r3|]; reflexivity.
Qed.

Lemma canon_cases c : canon c = c \/ in_range 97 122 (canon c) = true.
Proof.
  unfold canon, in_range.
  destruct (N.leb_spec 65 c), (N.leb_spec c 90); simpl; auto.
  - right. apply andb_true_iff. split; apply N.leb_le; lia.
  - destruct (N.eqb c 304 || N.eqb c 305); [now right|].
    destruct (N.eqb c 383); [now right|]. destruct (N.eqb c 8490); [now right|]. now left.
  - destruct (N.eqb c 304 || N.eqb c 305); [now right|].
    destruct (N.eqb c 383); [now right|]. destruct (N.eqb c 8490); [now right|]. now left.
  - destruct (N.eqb c 304 || N.eqb c 305); [now right|].
    destruct (N.eqb c 383); [now right|]. destruct (N.eqb c 8490); [now right|]. now left.
Qed.

(** A pattern character that is no letter is matched by itself only. *)
Lemma ci_exact p c :
  canon p = p -> in_range 97 122 p = false -> ci p c = N.eqb c p.
Proof.
  intros Hp Hr. unfold ci. rewrite Hp.
  destruct (canon_cases c) as [E|E]; [now rewrite E|].
  destruct (N.eqb_spec (canon c) p) as [E2|E2]; [congruence|].
  destruct (N.eqb_spec c p) as [E3|E3]; [|reflexivity].
  subst c. congruence.
Qed.

Lemma ci_colon c : ci (ch ":") c = N.eqb c (ch ":").
Proof. now apply ci_exact. Qed.

Lemma ci_nl c : ci NL c = N.eqb c NL.
Proof. now apply ci_exact. Qed.

Lemma at_bol_IM prev s n caps : at_bol F_IM (MState prev s n caps) = bol prev.
Proof. now destruct prev. Qed.

Lemma match_bol_colon K prev s :
  match_here F_IM (hp_bol_colon K) prev s =
  if bol prev then
    match ci_prefix K s with
    | Some (c :: r) =>
        if N.eqb c (ch ":")
        then Some (MState (Some c) r (S (length K)) [(1, (0, length K))])
        else None
    | _ => None
    end
  else None.
Proof.
  unfold match_here, hp_bol_colon. cbn [cat fold_right run].
  rewrite at_bol_IM. destruct (bol prev); [|reflexivity].
  rewrite run_lits by reflexivity. cbn [m_rest m_pos m_prev m_caps].
  destruct (ci_prefix K s) as [[|c r]|]; try reflexivity.
  cbn [set_cap m_rest m_pos m_prev m_caps atom_ok ignorecase F_IM].
  fold (ci (ch ":") c). rewrite ci_colon. destruct (N.eqb c (ch ":")); reflexivity.
Qed.

Lemma match_bol_alone K prev s :
  match_here F_IM (hp_bol_alone K) prev s =
  if bol prev then
    match ci_prefix K s with
    | Some r =>
        if eolm r
        then Some (MState (lastc (firstn (length K) s) prev) r (length K)
                          [(1, (0, length K))])
        else None
    | None => None
    end
  else None.
Proof.
  unfold match_here, hp_bol_alone. cbn [cat fold_right run].
  rewrite at_bol_IM. destruct (bol prev); [|reflexivity].
  rewrite run_lits by reflexivity. cbn [m_rest m_pos m_prev m_caps].
  destruct (ci_prefix K s) as [r|]; try reflexivity.
  unfold at_eol, eolm. cbn [set_cap m_rest m_pos m_prev m_caps multiline F_IM].
  destruct r as [|c r]; [reflexivity|]. simpl. rewrite andb_true_r.
  destruct (N.eqb c NL); reflexivity.
Qed.

Lemma match_nl_colon K prev s :
  is_some (match_here F_IM (hp_nl_colon K) prev s) =
  match s with
  | n :: s1 => N.eqb n NL && is_some (colon_form K s1)
  | [] => false
  end.
Proof.
  unfold match_here, hp_nl_colon. cbn [cat fold_right run m_rest].
  destruct s as [|n s1]; [reflexivity|].
  cbn [atom_ok ignorecase F_IM]. fold (ci NL n). rewrite ci_nl.
  destruct (N.eqb n NL); [|reflexivity].
  rewrite run_lits by reflexivity. cbn [m_rest m_pos m_prev m_caps].
  unfold colon_form. destruct (ci_prefix K s1) as [[|c r]|]; try reflexivity.
  cbn [set_cap m_rest m_pos m_prev m_caps atom_ok ignorecase F_IM].
  fold (ci (ch ":") c). rewrite ci_colon. destruct (N.eqb c (ch ":")); reflexivity.
Qed.

Lemma match_nl_alone K prev s :
  is_some (match_here F_IM (hp_nl_alone K) prev s) =
  match s with
  | n :: s1 =>
      N.eqb n NL && match ci_prefix K s1 with
                    | Some (c :: _) => N.eqb c NL
                    | _ => false
                    end
  | [] => false
  end.
Proof.
  unfold match_here, hp_nl_alone. cbn [cat fold_right run m_rest].
  destruct s as [|n s1]; [reflexivity|].
  cbn [atom_ok ignorecase F_IM]. fold (ci NL n). rewrite ci_nl.
  destruct (N.eqb n NL); [|reflexivity].
  rewrite run_lits by reflexivity. cbn [m_rest m_pos m_prev m_caps].
  destruct (ci_prefix K s1) as [[|c r]|]; try reflexivity.
  cbn [set_cap m_rest m_pos m_prev m_caps atom_ok ignorecase F_IM].
  fold (ci NL c). rewrite ci_nl. destruct (N.eqb c NL); reflexivity.
Qed.

(* ================================================================= *)
(** * Substitutions anchored at line starts *)

(** The first line of a text and what follows it. *)
Lemma split_first s :
  exists l tail, s = l ++ tail /\ no_nl l
    /\ ((tail = [] /\ split_nl s = [l])
        \/ exists t', tail = NL :: t' /\ split_nl s = l :: split_nl t').
Proof.
  induction s as [|c s (l & tail & E & N & H)].
  - exists [], []. repeat split; [constructor | now left].
  - simpl. destruct (N.eqb c NL) eqn:Ec.
    + apply N.eqb_eq in Ec. subst c. exists [], (NL :: s).
      repeat split; [constructor|]. right. now exists s.
    + exists (c :: l), tail. subst s. repeat split; [now constructor|].
      destruct H as [[-> H]|(t' & -> & H)]; rewrite H; [now left|].
      right. now exists t'.
Qed.

Lemma join_cons_app a l ls : join_nl ((a ++ l) :: ls) = a ++ join_nl (l :: ls).
Proof. destruct ls; simpl; [reflexivity | now rewrite <- app_assoc]. Qed.

Lemma lastc_bol k prev : k <> [] -> no_nl k -> bol (lastc k prev) = false.
Proof.
  intros Hne N. destruct (exists_last Hne) as (k' & c & ->).
  rewrite lastc_app. simpl. apply Forall_app in N. destruct N as [_ N].
  now inversion N.
Qed.

Section Linewise.

Variables (f : flags) (r : re) (tpl : template) (g : text -> text).

Hypothesis Hnb : forall prev s, bol prev = false -> match_here f r prev s = None.

Hypothesis Hb : forall prev l tail,
  bol prev = true -> no_nl l -> (tail = [] \/ exists t', tail = NL :: t') ->
  match match_here f r prev (l ++ tail) with
  | None => g l = l
  | Some st => exists k l', k <> [] /\ l = k ++ l' /\ m_rest st = l' ++ tail
                            /\ g l = expand tpl (l ++ tail) st ++ l'
  end.

(** A substitution anchored at line starts rewrites each line on its
    own. *)
Lemma sub_linewise : forall n s prev, length s <= n ->
  sub_from f r tpl prev s =
  match split_nl s with
  | l :: ls => join_nl ((if bol prev then g l else l) :: map g ls)
  | [] => []
  end.
Proof.
  induction n as [|n IH]; intros s prev Hn.
  - destruct s; [|simpl in Hn; lia]. rewrite sub_from_eq. simpl.
    destruct (bol prev) eqn:B.
    + pose proof (Hb prev [] [] B (Forall_nil _) (or_introl eq_refl)) as H.
      simpl in H. destruct (match_here f r prev []) as [st|] eqn:M; [|now rewrite H].
      destruct H as (k & l' & Hk & E & _). destruct k; [congruence | discriminate].
    + now rewrite Hnb.
  - rewrite sub_from_eq.
    destruct (split_first s) as (l & tail & Es & Nl & Ht).
    assert (Copy :
      (bol prev = true -> g l = l) ->
      match s with
      | [] => []
      | c :: s' => c :: sub_from f r tpl (Some c) s'
      end =
      match split_nl s with
      | l0 :: ls => join_nl ((if bol prev then g l0 else l0) :: map g ls)
      | [] => []
      end).
    { intros Hg. destruct s as [|c s'].
      - simpl. destruct l; [|discriminate].
        destruct (bol prev); [symmetry; auto | reflexivity].
      - rewrite (IH s' (Some c)) by (simpl in Hn; lia).
        simpl. destruct (N.eqb c NL) eqn:Ec.
        + destruct l as [|d l].
          * assert (G : (if bol prev then g [] else []) = [])
              by (destruct (bol prev); auto).
            rewrite G. pose proof (split_nl_nonempty s') as Hs.
            apply N.eqb_eq in Ec. subst c.
            destruct (split_nl s'); [congruence | reflexivity].
          * simpl in Es. inversion Es; subst. inversion Nl; congruence.
        + pose proof (split_nl_nonempty s') as Hs.
          destruct (split_nl s') as [|l1 ls] eqn:Sp; [congruence|].
          assert (El : l = c :: l1).
          { destruct Ht as [[-> H]|(t' & -> & H)]; simpl in H; rewrite Ec, Sp in H;
              now inversion H. }
          assert (G : (if bol prev then g (c :: l1) else c :: l1) = c :: l1)
            by (destruct (bol prev); [rewrite <- El; auto | reflexivity]).
          rewrite G. destruct ls; reflexivity. }
    destruct (bol prev) eqn:B.
    + assert (T : tail = [] \/ exists t', tail = NL :: t')
        by (destruct Ht as [[-> _]|(t' & -> & _)]; eauto).
      pose proof (Hb prev l tail B Nl T) as H. rewrite <- Es in H.
      destruct (match_here f r prev s) as [st|] eqn:M; [|now apply Copy].
      destruct H as (k & l' & Hk & El & Er & Eg).
      destruct (match_here_reach _ _ _ _ _ M) as (w & Ew & Ep & Ev).
      assert (w = k).
      { rewrite Er in Ew. rewrite Es, El, <- app_assoc in Ew.
        now apply app_inv_tail in Ew. }
      subst w. destruct (m_pos st) eqn:P; [destruct k; [congruence | discriminate]|].
      assert (Nk : no_nl k /\ no_nl l') by (apply no_nl_app; congruence).
      rewrite (IH (m_rest st)), Ev, lastc_bol; try tauto.
      * assert (Sp : split_nl s = l :: tl (split_nl s) /\
                     split_nl (m_rest st) = l' :: tl (split_nl s)).
        { rewrite Er. destruct Ht as [[-> H]|(t' & -> & H)]; rewrite H.
          - rewrite app_nil_r. now rewrite split_line.
          - now rewrite split_app_nl. }
        destruct Sp as [S1 S2]. rewrite S1, S2. simpl tl.
        rewrite Eg. now rewrite join_cons_app.
      * rewrite Ew, length_app in Hn. destruct k; [congruence | simpl in *; lia].
    + rewrite Hnb by assumption. apply Copy. discriminate.
Qed.

End Linewise.

(* ================================================================= *)
(** * One header's pass *)

Lemma hchars_plain K : forallb hchar K = true -> forallb plain_char K = true.
Proof.
  intros H. rewrite forallb_forall in *. intros x Hx. specialize (H x Hx).
  unfold hchar in H. apply andb_true_iff in H. tauto.
Qed.

Lemma header_ok_plain K : header_ok K = true -> plain K.
Proof.
  destruct K as [|p K]; [discriminate|]. unfold header_ok. intros H.
  apply andb_true_iff in H. split; [discriminate | apply hchars_plain; tauto].
Qed.

Lemma headers_ok K : In K section_headers -> header_ok K = true.
Proof.
  intros H. repeat (destruct H as [<-|H]; [reflexivity|]). destruct H.
Qed.

Lemma ci_plain p c : plain_char p = true -> ci p c = true -> plain_char c = true.
Proof.
  unfold plain_char, ci. intros Hp Hc. apply N.eqb_eq in Hc.
  apply orb_true_iff in Hp. destruct Hp as [Hp|Hp].
  - now rewrite Hc, Hp.
  - apply N.eqb_eq in Hp. subst p. change (canon 32) with 32%N in Hc.
    destruct (canon_cases c) as [E|E].
    + rewrite E in Hc. subst c. reflexivity.
    + now rewrite E.
Qed.

Lemma plain_not p c :
  plain_char c = true -> plain_char p = false -> N.eqb c p = false.
Proof. intros H1 H2. destruct (N.eqb_spec c p); [subst; congruence | reflexivity]. Qed.

Lemma plain_no_nl K : plain K -> Forall (fun p : char => ci p NL = false) K.
Proof.
  intros [_ H]. rewrite forallb_forall in H. apply Forall_forall. intros p Hp.
  specialize (H p Hp). destruct (ci p NL) eqn:E; [|reflexivity].
  apply (ci_plain p NL H) in E. discriminate.
Qed.

Lemma ci_prefix_plain K : forallb plain_char K = true ->
  forall s r, ci_prefix K s = Some r ->
  forallb plain_char (firstn (length K) s) = true.
Proof.
  induction K as [|p K IH]; intros HK s r H; [reflexivity|].
  simpl in *. apply andb_true_iff in HK. destruct HK as [Hp HK].
  destruct s as [|c s]; [discriminate|]. destruct (ci p c) eqn:E; [|discriminate].
  simpl. rewrite (ci_plain p c Hp E). simpl. eapply IH; eassumption.
Qed.

Lemma ci_prefix_line K l tail : Forall (fun p : char => ci p NL = false) K ->
  tail = [] \/ (exists t', tail = NL :: t') ->
  ci_prefix K (l ++ tail) = option_map (fun r => r ++ tail) (ci_prefix K l).
Proof.
  intros HK Ht. revert l. induction HK as [|p K Hp HK IH]; intros l; [reflexivity|].
  simpl. destruct l as [|c l]; simpl.
  - destruct Ht as [->|(t' & ->)]; [reflexivity | now rewrite Hp].
  - destruct (ci p c); [apply IH | reflexivity].
Qed.

Lemma firstn_app_le {A} n (a b : list A) :
  n <= length a -> firstn n (a ++ b) = firstn n a.
Proof.
  intros H. rewrite firstn_app. replace (n - length a) with 0 by lia.
  simpl. apply app_nil_r.
Qed.

Lemma ci_prefix_len k : forall s r, ci_prefix k s = Some r -> length k <= length s.
Proof.
  intros s r H. destruct (ci_prefix_split k s r H) as [_ L].
  rewrite length_firstn in L. lia.
Qed.

Lemma expand_bold s st n :
  m_caps st = [(1, (0, n))] ->
  expand bold_template s st = bold (firstn n s).
Proof.
  intros H. unfold expand, bold_template, bold, group. simpl. rewrite H. simpl.
  now rewrite Nat.sub_0_r.
Qed.

Lemma sub_colon_lines K : plain K -> forall s,
  re_sub F_IM (hp_bol_colon K) bold_template s =
  join_nl (map (wrap_colon K) (split_nl s)).
Proof.
  intros PK s. pose proof (plain_no_nl K PK) as NK.
  rewrite re_sub_eq.
  rewrite (sub_linewise F_IM (hp_bol_colon K) bold_template (wrap_colon K))
    with (n := length s); [| | |lia].
  - simpl. destruct (split_nl s); reflexivity.
  - intros prev s0 B. now rewrite match_bol_colon, B.
  - intros prev l tail B Nl Ht. rewrite match_bol_colon, B.
    rewrite ci_prefix_line by assumption. unfold wrap_colon, colon_form.
    destruct (ci_prefix K l) as [[|c r]|] eqn:C; cbn [option_map app].
    + destruct Ht as [->|(t' & ->)]; [reflexivity|].
      change (N.eqb NL (ch ":")) with false. reflexivity.
    + destruct (N.eqb c (ch ":")) eqn:Ec; [|reflexivity].
      destruct (ci_prefix_split K l _ C) as [E L].
      exists (firstn (length K) l ++ [c]), r.
      split; [destruct (firstn (length K) l); discriminate|].
      split; [now rewrite <- app_assoc|]. split; [reflexivity|].
      rewrite (expand_bold _ _ (length K)) by reflexivity.
      rewrite firstn_app_le by (eapply ci_prefix_len; eassumption). reflexivity.
    + reflexivity.
Qed.

Lemma sub_alone_lines K : plain K -> forall s,
  re_sub F_IM (hp_bol_alone K) bold_template s =
  join_nl (map (wrap_alone K) (split_nl s)).
Proof.
  intros PK s. pose proof (plain_no_nl K PK) as NK.
  rewrite re_sub_eq.
  rewrite (sub_linewise F_IM (hp_bol_alone K) bold_template (wrap_alone K))
    with (n := length s); [| | |lia].
  - simpl. destruct (split_nl s); reflexivity.
  - intros prev s0 B. now rewrite match_bol_alone, B.
  - intros prev l tail B Nl Ht. rewrite match_bol_alone, B.
    rewrite ci_prefix_line by assumption. unfold wrap_alone, alone_form.
    destruct (ci_prefix K l) as [[|c r]|] eqn:C; cbn [option_map app eolm].
    + assert (E : eolm tail = true) by (destruct Ht as [->|(t' & ->)]; reflexivity).
      rewrite E. destruct (ci_prefix_split K l _ C) as [El L].
      rewrite app_nil_r in El.
      exists l, []. split; [destruct PK as [PK _]; destruct l, K; simpl in *; congruence|].
      split; [now rewrite app_nil_r|]. split; [reflexivity|].
      rewrite (expand_bold _ _ (length K)) by reflexivity.
      rewrite firstn_app_le by (eapply ci_prefix_len; eassumption).
      now rewrite <- El, app_nil_r.
    + assert (E : N.eqb c NL = false).
      { destruct (ci_prefix_split K l _ C) as [El L]. rewrite El in Nl.
        apply no_nl_app in Nl. destruct Nl as [_ Nl]. now inversion Nl. }
      now rewrite E.
    + reflexivity.
Qed.

(** A substitution whose pattern matches nowhere returns the text. *)
Lemma sub_nomatch f r tpl : forall s prev,
  (forall a b, s = a ++ b -> match_here f r (lastc a prev) b = None) ->
  sub_from f r tpl prev s = s.
Proof.
  induction s as [|c s IH]; intros prev H; rewrite sub_from_eq.
  - pose proof (H [] [] eq_refl) as E. simpl in E. now rewrite E.
  - pose proof (H [] (c :: s) eq_refl) as E. simpl in E. rewrite E.
    f_equal. apply IH.
    intros a b E'. apply (H (c :: a) b). now rewrite E'.
Qed.

Lemma split_app_nl_gen a : forall s,
  split_nl (a ++ NL :: s) = split_nl a ++ split_nl s.
Proof.
  induction a as [|c a IH]; intros s; [reflexivity|].
  simpl. destruct (N.eqb c NL); [now rewrite IH|].
  rewrite IH. pose proof (split_nl_nonempty a). destruct (split_nl a); [congruence | reflexivity].
Qed.

Lemma first_line_in s l tail :
  no_nl l -> (tail = [] \/ exists t', tail = NL :: t') -> In l (split_nl (s ++ NL :: l ++ tail)).
Proof.
  intros Nl Ht. rewrite split_app_nl_gen. apply in_or_app. right.
  destruct Ht as [->|(t' & ->)].
  - rewrite app_nil_r, split_line by assumption. now left.
  - rewrite split_app_nl by assumption. now left.
Qed.

Lemma colon_form_first K s1 : Forall (fun p : char => ci p NL = false) K ->
  is_some (colon_form K s1) = true ->
  exists l tail, s1 = l ++ tail /\ no_nl l
                 /\ (tail = [] \/ exists t', tail = NL :: t')
                 /\ is_some (colon_form K l) = true.
Proof.
  intros NK H. destruct (split_first s1) as (l & tail & E & Nl & Ht).
  assert (T : tail = [] \/ exists t', tail = NL :: t')
    by (destruct Ht as [[-> _]|(t' & -> & _)]; eauto).
  exists l, tail. repeat split; auto.
  unfold colon_form in *. rewrite E, ci_prefix_line in H by assumption.
  destruct (ci_prefix K l) as [[|c r]|]; simpl in *; auto.
  - destruct T as [->|(t' & ->)]; simpl in H; auto.
  - destruct (N.eqb c 58); auto.
Qed.

Lemma sub_nl_colon_none K s : Forall (fun p : char => ci p NL = false) K ->
  (forall l, In l (split_nl s) -> colon_form K l = None) ->
  re_sub F_IM (hp_nl_colon K) bold_template s = s.
Proof.
  intros NK H. rewrite re_sub_eq. apply sub_nomatch. intros a b E.
  destruct (match_here F_IM (hp_nl_colon K) (lastc a None) b) eqn:M; [|reflexivity].
  exfalso. pose proof (match_nl_colon K (lastc a None) b) as I. rewrite M in I.
  destruct b as [|n s1]; [discriminate|]. simpl in I. symmetry in I.
  apply andb_true_iff in I. destruct I as [En I]. apply N.eqb_eq in En. subst n.
  destruct (colon_form_first K s1 NK I) as (l & tail & -> & Nl & Ht & C).
  rewrite (H l) in C; [discriminate|]. rewrite E. now apply first_line_in.
Qed.

Lemma sub_nl_alone_none K s : Forall (fun p : char => ci p NL = false) K ->
  (forall l, In l (split_nl s) -> alone_form K l = false) ->
  re_sub F_IM (hp_nl_alone K) bold_template s = s.
Proof.
  intros NK H. rewrite re_sub_eq. apply sub_nomatch. intros a b E.
  destruct (match_here F_IM (hp_nl_alone K) (lastc a None) b) eqn:M; [|reflexivity].
  exfalso. pose proof (match_nl_alone K (lastc a None) b) as I. rewrite M in I.
  destruct b as [|n s1]; [discriminate|]. simpl in I. symmetry in I.
  apply andb_true_iff in I. destruct I as [En I]. apply N.eqb_eq in En. subst n.
  destruct (split_first s1) as (l & tail & E1 & Nl & Ht).
  assert (T : tail = [] \/ exists t', tail = NL :: t')
    by (destruct Ht as [[-> _]|(t' & -> & _)]; eauto).
  rewrite E1, ci_prefix_line in I by assumption.
  assert (A : alone_form K l = true).
  { unfold alone_form. destruct (ci_prefix K l) as [[|c r]|] eqn:C; simpl in I;
      try discriminate; [reflexivity|].
    destruct (ci_prefix_split K l _ C) as [El L]. rewrite El in Nl.
    apply no_nl_app in Nl. destruct Nl as [_ Nl]. inversion Nl; congruence. }
  rewrite (H l) in A; [discriminate|]. rewrite E, E1. now apply first_line_in.
Qed.

Lemma format_step_eq K t p :
  format_step K t p = if wrapped K t then t else re_sub F_IM p bold_template t.
Proof. unfold format_step, wrapped. rewrite search_wrapped. now destruct (occurs_ci _ t). Qed.

Lemma format_header_eq K t :
  format_header t K =
  format_step K (format_step K (format_step K (format_step K t
    (hp_bol_colon K)) (hp_bol_alone K)) (hp_nl_colon K)) (hp_nl_alone K).
Proof. reflexivity. Qed.

Lemma in_join ls : forall l, In l ls -> exists a b, join_nl ls = a ++ l ++ b.
Proof.
  induction ls as [|x ls IH]; intros l H; [destruct H|].
  destruct ls as [|y ls].
  - destruct H as [->|[]]. exists [], []. simpl. now rewrite app_nil_r.
  - change (join_nl (x :: y :: ls)) with (x ++ NL :: join_nl (y :: ls)).
    destruct H as [->|H].
    + now exists [], (NL :: join_nl (y :: ls)).
    + destruct (IH l H) as (a & b & E). rewrite E.
      exists (x ++ NL :: a), b. now rewrite <- app_assoc.
Qed.

Lemma occurs_join k ls x :
  In x ls -> occurs_ci k x = true -> occurs_ci k (join_nl ls) = true.
Proof.
  intros H O. destruct (in_join ls x H) as (a & b & ->).
  apply occurs_app_r. now apply occurs_app_l.
Qed.

Lemma ci_prefix_firstn K : forall l r X,
  ci_prefix K l = Some r -> ci_prefix K (firstn (length K) l ++ X) = Some X.
Proof.
  induction K as [|p K IH]; intros l r X H; [reflexivity|].
  simpl in *. destruct l as [|c l]; [discriminate|]. simpl.
  destruct (ci p c); [eapply IH; eassumption | discriminate].
Qed.

Lemma wrapped_bold K k X :
  ci_prefix K (k ++ str "**" ++ X) = Some (str "**" ++ X) ->
  wrapped K (bold k ++ X) = true.
Proof.
  intros H. unfold wrapped, bold. apply occurs_here with (r := X).
  rewrite <- !app_assoc. rewrite ci_prefix_cat. cbn [ci_prefix str map list_ascii_of_string app].
  change (ci (N_of_ascii "*") (N_of_ascii "*")) with true. cbn iota.
  rewrite ci_prefix_cat. change (42%N :: 42%N :: X) with (str "**" ++ X).
  unfold str in H. simpl in H. simpl. now rewrite H.
Qed.

Lemma wrapped_wrap_colon K l r :
  colon_form K l = Some r -> wrapped K (wrap_colon K l) = true.
Proof.
  intros H. unfold wrap_colon. rewrite H. apply wrapped_bold.
  unfold colon_form in H. destruct (ci_prefix K l) eqn:C; [|discriminate].
  eapply ci_prefix_firstn; eassumption.
Qed.

Lemma wrapped_wrap_alone K l :
  alone_form K l = true -> wrapped K (wrap_alone K l) = true.
Proof.
  intros H. unfold wrap_alone. rewrite H.
  rewrite <- (app_nil_r (bold l)). apply wrapped_bold.
  unfold alone_form in H. destruct (ci_prefix K l) as [[|]|] eqn:C; try discriminate.
  destruct (ci_prefix_split K l [] C) as [E _]. rewrite app_nil_r in E.
  rewrite E at 1. eapply ci_prefix_firstn; eassumption.
Qed.

Lemma map_id_on {A} (g : A -> A) ls : (forall x, In x ls -> g x = x) -> map g ls = ls.
Proof.
  induction ls as [|x ls IH]; intros H; [reflexivity|]. simpl.
  rewrite H by now left. f_equal. apply IH. intros y Hy. apply H. now right.
Qed.

Lemma no_colon_id K t : has_colon K t = false ->
  forall l, In l (split_nl t) -> colon_form K l = None.
Proof.
  unfold has_colon. intros H l Hl.
  destruct (colon_form K l) eqn:C; [|reflexivity].
  assert (existsb (fun l => is_some (colon_form K l)) (split_nl t) = true)
    by (apply existsb_exists; exists l; now rewrite C).
  congruence.
Qed.

Lemma no_alone_id K t : has_alone K t = false ->
  forall l, In l (split_nl t) -> alone_form K l = false.
Proof.
  unfold has_alone. intros H l Hl.
  destruct (alone_form K l) eqn:C; [|reflexivity].
  assert (existsb (alone_form K) (split_nl t) = true)
    by (apply existsb_exists; exists l; now rewrite C).
  congruence.
Qed.

Lemma colon_lines_id K t : has_colon K t = false ->
  join_nl (map (wrap_colon K) (split_nl t)) = t.
Proof.
  intros H. rewrite map_id_on; [apply join_split|].
  intros l Hl. unfold wrap_colon. now rewrite (no_colon_id K t H l Hl).
Qed.

Lemma alone_lines_id K t : has_alone K t = false ->
  join_nl (map (wrap_alone K) (split_nl t)) = t.
Proof.
  intros H. rewrite map_id_on; [apply join_split|].
  intros l Hl. unfold wrap_alone. now rewrite (no_alone_id K t H l Hl).
Qed.

Lemma colon_lines_wrapped K t : has_colon K t = true ->
  wrapped K (join_nl (map (wrap_colon K) (split_nl t))) = true.
Proof.
  unfold has_colon. intros H. apply existsb_exists in H.
  destruct H as (l & Hl & C). destruct (colon_form K l) as [r|] eqn:E; [|discriminate].
  apply occurs_join with (x := wrap_colon K l); [now apply in_map|].
  eapply wrapped_wrap_colon; eassumption.
Qed.

Lemma alone_lines_wrapped K t : has_alone K t = true ->
  wrapped K (join_nl (map (wrap_alone K) (split_nl t))) = true.
Proof.
  unfold has_alone. intros H. apply existsb_exists in H.
  destruct H as (l & Hl & C).
  apply occurs_join with (x := wrap_alone K l); [now apply in_map|].
  now apply wrapped_wrap_alone.
Qed.

(** One header's four steps, in closed form. *)
Lemma format_header_spec K t : header_ok K = true ->
  format_header t K =
  if wrapped K t then t
  else if has_colon K t then join_nl (map (wrap_colon K) (split_nl t))
  else join_nl (map (wrap_alone K) (split_nl t)).
Proof.
  intros OK. pose proof (header_ok_plain K OK) as PK.
  pose proof (plain_no_nl K PK) as NK.
  rewrite format_header_eq. rewrite (format_step_eq K t).
  destruct (wrapped K t) eqn:W.
  - do 3 rewrite (format_step_eq K t), W. reflexivity.
  - rewrite sub_colon_lines by assumption.
    destruct (has_colon K t) eqn:C.
    + pose proof (colon_lines_wrapped K t C) as W1.
      do 3 rewrite (format_step_eq K (join_nl _)), W1. reflexivity.
    + rewrite colon_lines_id by assumption.
      rewrite (format_step_eq K t), W, sub_alone_lines by assumption.
      destruct (has_alone K t) eqn:A.
      * pose proof (alone_lines_wrapped K t A) as W1.
        do 2 rewrite (format_step_eq K (join_nl _)), W1. reflexivity.
      * rewrite alone_lines_id by assumption.
        rewrite (format_step_eq K t), W.
        rewrite sub_nl_colon_none; [|assumption|now apply no_colon_id].
        rewrite (format_step_eq K t), W.
        rewrite sub_nl_alone_none; [reflexivity|assumption|now apply no_alone_id].
Qed.

Lemma no_nl_bold k : no_nl k -> no_nl (bold k).
Proof.
  intros H. unfold bold. apply no_nl_app. split; [repeat constructor|].
  apply no_nl_app. split; [assumption | repeat constructor].
Qed.

Lemma no_nl_firstn n l : no_nl l -> no_nl (firstn n l).
Proof.
  intros H. rewrite <- (firstn_skipn n l) in H. apply no_nl_app in H. tauto.
Qed.

Lemma wrap_colon_no_nl K l : no_nl l -> no_nl (wrap_colon K l).
Proof.
  intros H. unfold wrap_colon, colon_form.
  destruct (ci_prefix K l) as [[|c r]|] eqn:C; try assumption.
  destruct (N.eqb c (ch ":")); [|assumption].
  destruct (ci_prefix_split K l _ C) as [E _].
  apply no_nl_app. split; [apply no_nl_bold, no_nl_firstn, H|].
  rewrite E in H. apply no_nl_app in H. destruct H as [_ H]. now inversion H.
Qed.

Lemma wrap_alone_no_nl K l : no_nl l -> no_nl (wrap_alone K l).
Proof.
  intros H. unfold wrap_alone. destruct (alone_form K l); [now apply no_nl_bold | assumption].
Qed.

Lemma split_join_map g t : (forall l, no_nl l -> no_nl (g l)) ->
  split_nl (join_nl (map g (split_nl t))) = map g (split_nl t).
Proof.
  intros Hg. apply split_join.
  - pose proof (split_nl_nonempty t). destruct (split_nl t); [congruence | discriminate].
  - pose proof (split_no_nl t) as F. induction F; constructor; auto.
Qed.

(** One header's pass rewrites the lines one by one and keeps every line
    that does not start with the header. *)
Lemma pass_lines K t : header_ok K = true ->
  exists g, split_nl (format_header t K) = map g (split_nl t)
            /\ (forall x, ci_prefix K x = None -> g x = x).
Proof.
  intros OK. rewrite format_header_spec by assumption.
  destruct (wrapped K t).
  - exists (fun x => x). split; [now rewrite map_id | reflexivity].
  - destruct (has_colon K t).
    + exists (wrap_colon K). split; [apply split_join_map, wrap_colon_no_nl|].
      intros x H. unfold wrap_colon, colon_form. now rewrite H.
    + exists (wrap_alone K). split; [apply split_join_map, wrap_alone_no_nl|].
      intros x H. unfold wrap_alone, alone_form. now rewrite H.
Qed.

Lemma passes_keep Ks : forall t i x,
  (forall K, In K Ks -> header_ok K = true /\ ci_prefix K x = None) ->
  nth_error (split_nl t) i = Some x ->
  nth_error (split_nl (fold_left format_header Ks t)) i = Some x.
Proof.
  induction Ks as [|K Ks IH]; intros t i x H N; [exact N|].
  simpl. apply IH; [intros K' HK'; apply H; now right|].
  destruct (H K (or_introl eq_refl)) as [OK C].
  destruct (pass_lines K t OK) as (g & E & Hg).
  rewrite E, nth_error_map, N. simpl. now rewrite Hg.
Qed.

(** Two headers of the list are never both a prefix of one line. *)
Lemma ci_prefix_canon K : forall l r,
  ci_prefix K l = Some r -> map canon (firstn (length K) l) = map canon K.
Proof.
  induction K as [|p K IH]; intros l r H; [reflexivity|].
  simpl in H. destruct l as [|c l]; [discriminate|].
  destruct (ci p c) eqn:E; [|discriminate]. simpl.
  unfold ci in E. apply N.eqb_eq in E. rewrite E. f_equal. eapply IH; eassumption.
Qed.

Lemma headers_disjoint K K' l :
  In K section_headers -> In K' section_headers ->
  ci_prefix K l <> None -> ci_prefix K' l <> None -> K = K'.
Proof.
  intros HK HK' C C'.
  destruct (ci_prefix K l) as [r|] eqn:E; [|congruence].
  destruct (ci_prefix K' l) as [r'|] eqn:E'; [|congruence].
  apply ci_prefix_canon in E. apply ci_prefix_canon in E'.
  apply (f_equal (firstn 2)) in E. apply (f_equal (firstn 2)) in E'.
  rewrite <- !firstn_map, !firstn_firstn in E, E'.
  assert (L : forall H, In H section_headers -> Nat.min 2 (length H) = 2).
  { intros H I. repeat (destruct I as [<-|I]; [reflexivity|]). destruct I. }
  rewrite (L K HK) in E. rewrite (L K' HK') in E'. rewrite E in E'.
  simpl in HK, HK'.
  repeat (destruct HK as [<-|HK]; [repeat (destruct HK' as [<-|HK']; [first [reflexivity | discriminate]|]); destruct HK'|]).
  destruct HK.
Qed.

Lemma headers_split pre K post :
  section_headers = pre ++ K :: post ->
  In K section_headers
  /\ (forall K', In K' post -> In K' section_headers /\ K' <> K).
Proof.
  intros E. split; [rewrite E; apply in_elt|].
  intros K' I. split; [rewrite E; apply in_or_app; right; now right|].
  intros ->. unfold section_headers in E.
  destruct pre as [|a [|b [|c [|d [|e pre]]]]]; simpl in E; inversion E; subst;
    simpl in I; repeat (destruct I as [I|I]; [discriminate|]); try destruct I.
Qed.

Lemma star_line_kept K x : header_ok K = true ->
  ci_prefix K (str "**" ++ x) = None.
Proof.
  destruct K as [|p K]; [discriminate|]. unfold header_ok. intros H.
  apply andb_true_iff in H. destruct H as [H _]. simpl.
  destruct (ci p 42) eqn:E; [|reflexivity].
  unfold ci in E. apply N.eqb_eq in E. change (canon 42) with 42%N in E.
  rewrite <- E in H. discriminate.
Qed.

(** The lines of the Header Formatter's result, seen from the turn of the
    header [K]: [tK] is the text as the passes of the headers before [K]
    leave it. *)
Lemma header_turn pre K post t :
  section_headers = pre ++ K :: post ->
  let tK := fold_left format_header pre t in
  forall i l, nth_error (split_nl tK) i = Some l ->
  ci_prefix K l <> None ->
  nth_error (split_nl (_format_section_headers t)) i =
  Some (if wrapped K tK then l
        else if has_colon K tK then wrap_colon K l
        else wrap_alone K l).
Proof.
  intros E tK i l N C. destruct (headers_split pre K post E) as [HK Hpost].
  unfold _format_section_headers. rewrite E, fold_left_app. simpl. fold tK.
  pose proof (headers_ok K HK) as OK.
  assert (Keep : forall x, (ci_prefix K x <> None \/ exists y, x = str "**" ++ y) ->
            forall K', In K' post -> header_ok K' = true /\ ci_prefix K' x = None).
  { intros x Hx K' I. destruct (Hpost K' I) as [I' D].
    split; [now apply headers_ok|]. destruct Hx as [Hx|(y & ->)].
    - destruct (ci_prefix K' x) eqn:E'; [|reflexivity].
      exfalso. apply D. apply (headers_disjoint K' K x); auto. congruence.
    - apply star_line_kept. now apply headers_ok. }
  apply passes_keep.
  - apply Keep. destruct (wrapped K tK); [now left|].
    unfold wrap_colon, wrap_alone, colon_form, alone_form, bold.
    destruct (has_colon K tK).
    + destruct (ci_prefix K l) as [[|c r]|] eqn:E1; try (left; congruence).
      destruct (N.eqb c (ch ":")); [|left; congruence].
      right. rewrite <- app_assoc. eauto.
    + destruct (ci_prefix K l) as [[|c r]|] eqn:E1; try (left; congruence).
      right. eauto.
  - rewrite format_header_spec by assumption.
    destruct (wrapped K tK); [exact N|]. destruct (has_colon K tK).
    + rewrite split_join_map by apply wrap_colon_no_nl. now rewrite nth_error_map, N.
    + rewrite split_join_map by apply wrap_alone_no_nl. now rewrite nth_error_map, N.
Qed.

(* ================================================================= *)
(** * The patterns of the Error Normalizer as shapes *)

Lemma sep_not_x d : is_sep d = true -> is_x d = false.
Proof.
  unfold is_sep, is_x, ci. intros H.
  destruct (N.eqb_spec (canon d) (canon (ch "x"))) as [E|E]; [|reflexivity].
  change (canon (ch "x")) with 120%N in E.
  assert (D : d = 120%N \/ d = 88%N).
  { unfold canon, in_range in E.
    destruct (N.leb_spec 65 d), (N.leb_spec d 90); simpl in E;
      try (right; lia);
      destruct (N.eqb d 304 || N.eqb d 305); try discriminate;
      destruct (N.eqb d 383); try discriminate;
      destruct (N.eqb d 8490); try discriminate; now left. }
  destruct D; subst; discriminate.
Qed.

Lemma space_not_L d : isspace d = true -> is_L d = false.
Proof.
  unfold is_L, ci. intros H.
  destruct (N.eqb_spec (canon d) (canon (ch "L"))) as [E|E]; [|reflexivity].
  change (canon (ch "L")) with 108%N in E.
  assert (D : d = 108%N \/ d = 76%N).
  { unfold canon, in_range in E.
    destruct (N.leb_spec 65 d), (N.leb_spec d 90); simpl in E;
      try (right; lia);
      destruct (N.eqb d 304 || N.eqb d 305); try discriminate;
      destruct (N.eqb d 383); try discriminate;
      destruct (N.eqb d 8490); try discriminate; now left. }
  destruct D; subst; discriminate.
Qed.

Section EngineShape.

Variable ua : char -> bool.
Let W := is_word ua.

(** [L\b] behind the gap. *)
Lemma run_L_wb d s' prev pos caps :
  option_map proj
    (run F_I (cat [Chr (Lit (ch "L")); wordb ua]) (fun st => Some st)
         (MState prev (d :: s') pos caps))
  = if is_L d then
      if wbb W (Some d) (hd_error s') then Some (Some d, s', caps) else None
    else None.
Proof.
  cbn [cat fold_right run m_rest atom_ok ignorecase F_I wordb].
  fold (ci (ch "L") d). fold (is_L d). destruct (is_L d); [|reflexivity].
  unfold at_wb, wbb. cbn [m_prev m_rest]. fold W.
  destruct (xorb _ _); reflexivity.
Qed.

Lemma fin_no_gap s prev pos caps :
  option_map proj
    (run F_I (cat [Chr (Lit (ch "L")); wordb ua]) (fun st => Some st)
         (MState prev s pos caps))
  = option_map (inj caps) (fin W no_gap s).
Proof.
  destruct s as [|d s']; [reflexivity|]. rewrite run_L_wb. simpl.
  destruct (is_L d); [|reflexivity]. destruct (wbb W (Some d) (hd_error s')); reflexivity.
Qed.

Lemma fin_space s : forall prev pos caps,
  option_map proj
    (star F_I Space
          (run F_I (cat [Chr (Lit (ch "L")); wordb ua]) (fun st => Some st))
          prev pos caps s)
  = option_map (inj caps) (fin W isspace s).
Proof.
  induction s as [|d s IH]; intros prev pos caps; [reflexivity|].
  cbn [star atom_ok fin].
  destruct (isspace d) eqn:Sd.
  - rewrite (space_not_L d Sd). specialize (IH (Some d) (S pos) caps).
    destruct (star F_I Space _ (Some d) (S pos) caps s) as [r|] eqn:E.
    + exact IH.
    + rewrite <- IH. rewrite run_L_wb, (space_not_L d Sd). reflexivity.
  - rewrite run_L_wb. destruct (is_L d); [|reflexivity].
    destruct (wbb W (Some d) (hd_error s)); reflexivity.
Qed.

(** Separators and [x] in front of a tail [k] that behaves as [fin]. *)
Lemma mid_star gap (tail : re) :
  (forall s prev pos caps,
      option_map proj (run F_I tail (fun st => Some st) (MState prev s pos caps))
      = option_map (inj caps) (fin W gap s)) ->
  forall s prev pos caps,
    option_map proj
      (star F_I sep_atom
            (run F_I (Seq (Chr (Lit (ch "x"))) tail) (fun st => Some st))
            prev pos caps s)
    = option_map (inj caps) (mid W gap s).
Proof.
  intros Ht. induction s as [|d s IH]; intros prev pos caps; [reflexivity|].
  assert (K : option_map proj
            (run F_I (Seq (Chr (Lit (ch "x"))) tail) (fun st => Some st)
                 (MState prev (d :: s) pos caps))
          = if is_x d then option_map (inj caps) (fin W gap s) else None).
  { cbn [run m_rest atom_ok ignorecase F_I]. fold (ci (ch "x") d). fold (is_x d).
    destruct (is_x d); [apply Ht | reflexivity]. }
  cbn [star mid]. change (atom_ok F_I sep_atom d) with (is_sep d).
  destruct (is_sep d) eqn:Sd.
  - rewrite (sep_not_x d Sd) in *. specialize (IH (Some d) (S pos) caps).
    destruct (star F_I sep_atom _ (Some d) (S pos) caps s) as [r|] eqn:E.
    + exact IH.
    + rewrite <- IH. exact K.
  - rewrite K. destruct (is_x d); reflexivity.
Qed.

Lemma match_MxL prev s :
  option_map proj (match_here F_I (pat_MxL ua) prev s)
  = option_map (inj []) (e_head W is_M no_gap prev s).
Proof.
  unfold match_here, pat_MxL. cbn [cat fold_right run wordb].
  unfold at_wb. cbn [m_prev m_rest]. fold W.
  destruct s as [|c s1]; [simpl; destruct (xorb _ _); reflexivity|].
  cbn [hd_error e_head m_rest atom_ok ignorecase F_I]. fold (wbb W prev (Some c)).
  destruct (wbb W prev (Some c)); [|reflexivity].
  fold (ci (ch "M") c). fold (is_M c). destruct (is_M c); [|reflexivity].
  cbn [andb m_prev m_pos m_caps].
  apply (mid_star no_gap (cat [Chr (Lit (ch "L")); wordb ua])).
  intros. apply fin_no_gap.
Qed.

Lemma match_MxsL prev s :
  option_map proj (match_here F_I (pat_MxsL ua) prev s)
  = option_map (inj []) (e_head W is_M isspace prev s).
Proof.
  unfold match_here, pat_MxsL. cbn [cat fold_right run wordb].
  unfold at_wb. cbn [m_prev m_rest]. fold W.
  destruct s as [|c s1]; [simpl; destruct (xorb _ _); reflexivity|].
  cbn [hd_error e_head m_rest atom_ok ignorecase F_I]. fold (wbb W prev (Some c)).
  destruct (wbb W prev (Some c)); [|reflexivity].
  fold (ci (ch "M") c). fold (is_M c). destruct (is_M c); [|reflexivity].
  cbn [andb m_prev m_pos m_caps].
  apply (mid_star isspace (cat [Star Space; Chr (Lit (ch "L")); wordb ua])).
  intros. apply fin_space.
Qed.

Lemma match_AxL prev s :
  option_map proj (match_here F_I (pat_AxL ua) prev s)
  = option_map (inj [(1, (0, 1))]) (e_head W is_AZ no_gap prev s).
Proof.
  unfold match_here, pat_AxL. cbn [cat fold_right run wordb].
  unfold at_wb. cbn [m_prev m_rest]. fold W.
  destruct s as [|c s1]; [simpl; destruct (xorb _ _); reflexivity|].
  cbn [hd_error e_head m_rest]. fold (wbb W prev (Some c)).
  destruct (wbb W prev (Some c)); [|reflexivity].
  fold (is_AZ c). destruct (is_AZ c); [|reflexivity].
  cbn [andb m_prev m_pos m_caps set_cap].
  apply (mid_star no_gap (cat [Chr (Lit (ch "L")); wordb ua])).
  intros. apply fin_no_gap.
Qed.

End EngineShape.

Lemma fin_suffix w gap s : forall l r, fin w gap s = Some (l, r) ->
  exists m, s = m ++ r /\ lastc m None = Some l /\ m <> [].
Proof.
  induction s as [|d s IH]; intros l r H; simpl in H; [discriminate|].
  destruct (is_L d).
  - destruct (wbb w (Some d) (hd_error s)); inversion H; subst.
    exists [l]. repeat split. discriminate.
  - destruct (gap d); [|discriminate].
    destruct (IH l r H) as (m & -> & Hl & Hm). exists (d :: m).
    repeat split; [|discriminate]. simpl.
    destruct m; [congruence|]. exact Hl.
Qed.

Lemma lastc_cons d m pv : m <> [] -> lastc (d :: m) pv = lastc m None.
Proof. destruct m; [congruence|]. reflexivity. Qed.

Lemma lastc_nonempty m pv pv' : m <> [] -> lastc m pv = lastc m pv'.
Proof. destruct m; [congruence|]. reflexivity. Qed.

Lemma mid_suffix w gap s : forall l r, mid w gap s = Some (l, r) ->
  exists m, s = m ++ r /\ lastc m None = Some l /\ m <> [].
Proof.
  induction s as [|d s IH]; intros l r H; simpl in H; [discriminate|].
  destruct (is_x d).
  - destruct (fin_suffix w gap s l r H) as (m & -> & Hl & Hm).
    exists (d :: m). repeat split; [|discriminate]. now rewrite lastc_cons.
  - destruct (is_sep d); [|discriminate].
    destruct (IH l r H) as (m & -> & Hl & Hm).
    exists (d :: m). repeat split; [|discriminate]. now rewrite lastc_cons.
Qed.

Lemma e_head_suffix w isc gap pv s l r : e_head w isc gap pv s = Some (l, r) ->
  exists m, s = m ++ r /\ lastc m pv = Some l /\ m <> [].
Proof.
  destruct s as [|c s]; simpl; [discriminate|].
  destruct (wbb w pv (Some c) && isc c); [|discriminate]. intros H.
  destruct (mid_suffix w gap s l r H) as (m & -> & Hl & Hm).
  exists (c :: m). repeat split; [|discriminate]. now rewrite lastc_cons.
Qed.

Lemma expand_caps tpl s st st' :
  m_caps st = m_caps st' -> expand tpl s st = expand tpl s st'.
Proof.
  intros H. unfold expand. apply flat_map_ext. intros [t|n]; [reflexivity|].
  unfold group. now rewrite H.
Qed.

Section SubShape.

Variables (w isc gap : char -> bool) (p : re) (tpl : template)
          (caps0 : list (nat * (nat * nat))).

Hypothesis Hp : forall prev s,
  option_map proj (match_here F_I p prev s)
  = option_map (inj caps0) (e_head w isc gap prev s).

(** One step of the scan, read off the shape. *)
Lemma sub_shape prev s :
  sub_from F_I p tpl prev s =
  match e_head w isc gap prev s with
  | Some (l, rest) =>
      expand tpl s (MState None [] 0 caps0) ++ sub_from F_I p tpl (Some l) rest
  | None =>
      match s with
      | [] => []
      | c :: s' => c :: sub_from F_I p tpl (Some c) s'
      end
  end.
Proof.
  rewrite sub_from_eq. specialize (Hp prev s).
  destruct (match_here F_I p prev s) as [st|] eqn:M;
    destruct (e_head w isc gap prev s) as [[l rest]|] eqn:E; try discriminate;
    [|reflexivity].
  simpl in Hp. inversion Hp as [[Hv Hr Hc]].
  destruct (match_here_reach _ _ _ _ _ M) as (a & Ea & Ep & _).
  destruct (e_head_suffix _ _ _ _ _ _ _ E) as (m & Em & _ & Hm).
  assert (a = m) by (rewrite Hr, Em in Ea; now apply app_inv_tail in Ea).
  subst a. destruct (m_pos st) eqn:P; [destruct m; [congruence | discriminate]|].
  now rewrite (expand_caps tpl s st (MState None [] 0 (m_caps st))).
Qed.

Lemma sub_edit : forall n s prev, length s <= n ->
  edit (shape_cp w isc gap)
       (shape_blk w isc gap (fun s => expand tpl s (MState None [] 0 caps0)))
       prev s (sub_from F_I p tpl prev s).
Proof.
  induction n as [|n IH]; intros s prev Hn; rewrite sub_shape.
  - destruct s; [|simpl in Hn; lia]. simpl. constructor.
  - destruct (e_head w isc gap prev s) as [[l rest]|] eqn:E.
    + destruct (e_head_suffix _ _ _ _ _ _ _ E) as (m & Em & Hl & Hm).
      rewrite Em at 1. apply ed_blk.
      * exists l. rewrite <- Em. auto.
      * rewrite Hl. apply IH. rewrite Em, length_app in Hn.
        destruct m; [congruence | simpl in Hn; lia].
    + destruct s as [|c s']; [constructor|].
      apply ed_copy; [exact E|]. apply IH. simpl in Hn. lia.
Qed.

End SubShape.

(* ================================================================= *)
(** * Matches carried back through an edit script *)

Section Transport.

Variables (w isc gap : char -> bool).
Variable cp : option char -> text -> Prop.
Variable blk : option char -> text -> text -> text -> Prop.

(** What the blocks of a script must satisfy for matches of the shape to
    be carried back from the output to the input: no match starts inside a
    replacement, none runs into one, and the word boundaries at both
    ends of a replacement are those of the block it replaces. *)
Hypothesis K0 : forall pv m r s, blk pv m r s -> m <> [] /\ r <> [].
Hypothesis K1 : forall pv m r s, blk pv m r s ->
  forall r1 r2 o pvo, r = r1 ++ r2 -> r2 <> [] ->
  e_head w isc gap (lastc r1 pvo) (r2 ++ o) = None.
Hypothesis K2 : forall pv m r s, blk pv m r s ->
  forall o, mid w gap (r ++ o) = None /\ fin w gap (r ++ o) = None.
Hypothesis K3 : forall d m r s, blk (Some d) m r s -> is_L d = true ->
  optb w (hd_error r) = optb w (hd_error m).
Hypothesis K4 : forall pv m r s, blk pv m r s ->
  optb w (lastc r None) = optb w (lastc m None) \/ nostart isc s.

Lemma hd_app_ne (a b : text) : a <> [] -> hd_error (a ++ b) = hd_error a.
Proof. destruct a; [congruence | reflexivity]. Qed.

Lemma ht_hd d s o :
  edit cp blk (Some d) s o -> is_L d = true ->
  optb w (hd_error o) = optb w (hd_error s).
Proof.
  intros H L. inversion H as [|pv c s' o' C E'|pv m r s' o' B E']; subst;
    try reflexivity.
  destruct (K0 _ _ _ _ B) as [Hm Hr].
  rewrite !hd_app_ne by assumption. eapply K3; eassumption.
Qed.

Lemma ht_fin pv s o :
  edit cp blk pv s o -> fin w gap o <> None -> fin w gap s <> None.
Proof.
  induction 1 as [pv|pv d s o C E IH|pv m r s o B E IH]; intros F.
  - exact F.
  - simpl in *. destruct (is_L d) eqn:L.
    + unfold wbb in *. rewrite <- (ht_hd d s o E L).
      destruct (xorb _ _); [discriminate | exact F].
    + destruct (gap d); [now apply IH | exact F].
  - destruct (K2 _ _ _ _ B o) as [_ F']. congruence.
Qed.

Lemma ht_mid pv s o :
  edit cp blk pv s o -> mid w gap o <> None -> mid w gap s <> None.
Proof.
  induction 1 as [pv|pv d s o C E IH|pv m r s o B E IH]; intros F.
  - exact F.
  - simpl in *. destruct (is_x d).
    + eapply ht_fin; eassumption.
    + destruct (is_sep d); [now apply IH | exact F].
  - destruct (K2 _ _ _ _ B o) as [F' _]. congruence.
Qed.

(** A match in the output of a script lies, character by character, in
    copied text: the input has it at a position that was copied. *)
Theorem transport pv s o :
  edit cp blk pv s o ->
  forall pvo, optb w pvo = optb w pv \/ nostart isc s ->
  forall a b, o = a ++ b -> e_head w isc gap (lastc a pvo) b <> None ->
  exists a' b', s = a' ++ b'
                /\ e_head w isc gap (lastc a' pv) b' <> None
                /\ cp (lastc a' pv) b'.
Proof.
  induction 1 as [pv|pv c s o C E IH|pv m r s o B E IH];
    intros pvo Ctx a b Eo M.
  - destruct a; [|discriminate]. simpl in Eo. subst b. now simpl in M.
  - destruct a as [|c' a].
    + simpl in Eo. subst b. simpl in M. exists [], (c :: s). simpl.
      split; [reflexivity|]. split; [|exact C].
      destruct (wbb w pvo (Some c) && isc c) eqn:G; [|congruence].
      apply andb_true_iff in G. destruct G as [G1 G2].
      assert (G : wbb w pv (Some c) = true).
      { destruct Ctx as [Ctx|Ctx]; [unfold wbb in *; now rewrite <- Ctx|].
        simpl in Ctx. congruence. }
      rewrite G, G2. simpl. eapply ht_mid; eassumption.
    + simpl in Eo. inversion Eo; subst c' o.
      destruct (IH (Some c) (or_introl eq_refl) a b eq_refl M)
        as (a' & b' & Es & M' & C').
      exists (c :: a'), b'. simpl. subst s. auto.
  - destruct (K0 _ _ _ _ B) as [Hm Hr].
    apply app_eq_app in Eo. destruct Eo as (x & [[Er Eb]|[Ea Eo]]).
    + destruct x as [|y x].
      * rewrite app_nil_r in Er. subst a. simpl in Eb. subst b.
        assert (Ctx' : optb w (lastc r pvo) = optb w (lastc m pv) \/ nostart isc s).
        { destruct (K4 _ _ _ _ B) as [G|G]; [left|now right].
          now rewrite (lastc_nonempty r pvo None), (lastc_nonempty m pv None). }
        destruct (IH (lastc r pvo) Ctx' [] o eq_refl M) as (a' & b' & Es & M' & C').
        exists (m ++ a'), b'. rewrite lastc_app, Es, <- app_assoc. auto.
      * exfalso. subst b. apply M.
        apply (K1 _ _ _ _ B a (y :: x) o pvo); [assumption | discriminate].
    + subst a. rewrite lastc_app in M.
      assert (Ctx' : optb w (lastc r pvo) = optb w (lastc m pv) \/ nostart isc s).
      { destruct (K4 _ _ _ _ B) as [G|G]; [left|now right].
        now rewrite (lastc_nonempty r pvo None), (lastc_nonempty m pv None). }
      destruct (IH (lastc r pvo) Ctx' x b Eo M) as (a' & b' & Es & M' & C').
      exists (m ++ a'), b'. rewrite lastc_app, Es, <- app_assoc. auto.
Qed.

End Transport.

(* ================================================================= *)
(** * Characters *)

Ltac nbool :=
  repeat match goal with
         | H : (_ && _) = true |- _ => apply andb_true_iff in H; destruct H
         | H : (_ || _) = true |- _ => apply orb_true_iff in H; destruct H
         | H : N.leb _ _ = true |- _ => apply N.leb_le in H
         | H : N.eqb _ _ = true |- _ => apply N.eqb_eq in H
         | H : N.ltb _ _ = true |- _ => apply N.ltb_lt in H
         end.

Ltac ncases :=
  repeat match goal with
         | |- context [N.leb ?a ?b] => destruct (N.leb_spec a b)
         | |- context [N.eqb ?a ?b] => destruct (N.eqb_spec a b)
         | |- context [N.ltb ?a ?b] => destruct (N.ltb_spec a b)
         end; simpl; try reflexivity; try discriminate; try lia.

Lemma letter_cases c : letter c = true ->
  in_range 65 90 c = true \/ in_range 97 122 c = true
  \/ c = 304%N \/ c = 305%N \/ c = 383%N \/ c = 8490%N.
Proof.
  unfold letter, canon. intros L.
  destruct (in_range 65 90 c); [now left|]. right.
  destruct (N.eqb_spec c 304) as [E1|E1]; [auto|].
  destruct (N.eqb_spec c 305) as [E2|E2]; [auto|]. simpl in L.
  destruct (N.eqb_spec c 383) as [E3|E3]; [auto 6|].
  destruct (N.eqb_spec c 8490) as [E4|E4]; [auto 6|]. now left.
Qed.

Lemma is_AZ_letter c : is_AZ c = letter c.
Proof.
  destruct (letter c) eqn:L.
  - unfold is_AZ. cbn [atom_ok ignorecase F_I andb]. fold (letter c) in *.
    unfold letter in L.
    destruct (letter_cases c L) as [H|[H|[H|[H|[H|H]]]]];
      try (subst c; reflexivity).
    + change (ch "A") with 65%N. change (ch "Z") with 90%N. now rewrite H.
    + apply orb_true_iff. right. apply orb_true_iff. right.
      unfold upcase. rewrite L. unfold canon in *. unfold in_range in *. nbool.
      change (ch "A") with 65%N. change (ch "Z") with 90%N.
      destruct (N.leb_spec 65 c), (N.leb_spec c 90); simpl in *; try lia.
      * destruct (N.eqb_spec c 304); [lia|]. destruct (N.eqb_spec c 305); [lia|].
        simpl. destruct (N.eqb_spec c 383); [lia|]. destruct (N.eqb_spec c 8490); [lia|].
        apply andb_true_iff. split; apply N.leb_le; lia.
  - unfold is_AZ. cbn [atom_ok ignorecase F_I andb].
    change (ch "A") with 65%N. change (ch "Z") with 90%N.
    unfold letter in L. unfold upcase. rewrite L.
    destruct (in_range 65 90 c) eqn:R1.
    + exfalso. unfold canon in L. rewrite R1 in L. unfold in_range in *. nbool.
      assert (N.leb 97 (c + 32) && N.leb (c + 32) 122 = true)
        by (apply andb_true_iff; split; apply N.leb_le; lia). congruence.
    + simpl. rewrite orb_diag. unfold canon in *. rewrite R1 in *.
      destruct (N.eqb c 304 || N.eqb c 305); [discriminate|].
      destruct (N.eqb c 383); [discriminate|]. destruct (N.eqb c 8490); [discriminate|].
      exact R1.
Qed.

Lemma space_canon c : isspace c = true -> letter c = false /\ N.eqb c 46 = false.
Proof.
  intros H.
  assert (R : (9 <= c /\ (c <= 32 \/ c = 133 \/ c = 160 \/ c = 5760
                          \/ (8192 <= c /\ c <= 8202) \/ 8232 <= c))%N).
  { unfold isspace, in_range in H. nbool; lia. }
  assert (A1 : in_range 65 90 c = false)
    by (unfold in_range; destruct (N.leb_spec 65 c), (N.leb_spec c 90); simpl; try reflexivity; lia).
  assert (A2 : in_range 97 122 c = false)
    by (unfold in_range; destruct (N.leb_spec 97 c), (N.leb_spec c 122); simpl; try reflexivity; lia).
  assert (A3 : N.eqb c 304 = false) by (apply N.eqb_neq; lia).
  assert (A4 : N.eqb c 305 = false) by (apply N.eqb_neq; lia).
  assert (A5 : N.eqb c 383 = false) by (apply N.eqb_neq; lia).
  assert (A6 : N.eqb c 8490 = false).
  { apply N.eqb_neq. intros ->. discriminate. }
  assert (A7 : N.eqb c 46 = false) by (apply N.eqb_neq; intros ->; discriminate).
  split; [|exact A7]. unfold letter, canon. now rewrite A1, A3, A4, A5, A6.
Qed.

Lemma letter_not_space c : letter c = true -> isspace c = false.
Proof.
  intros H. destruct (isspace c) eqn:E; [|reflexivity].
  apply space_canon in E. destruct E. congruence.
Qed.

Lemma ci_dot c : ci (ch ".") c = N.eqb c 46.
Proof. now apply ci_exact. Qed.

Lemma letter_not_sep c : letter c = true -> is_sep c = false.
Proof.
  intros H. unfold is_sep. rewrite ci_dot, (letter_not_space c H), orb_false_r.
  destruct (N.eqb_spec c 46); [subst; discriminate | reflexivity].
Qed.

Lemma ci_letter p c : letter p = true -> ci p c = true -> letter c = true.
Proof. unfold letter, ci. intros H E. apply N.eqb_eq in E. now rewrite E. Qed.

Lemma is_M_letter c : is_M c = true -> letter c = true.
Proof. apply ci_letter. reflexivity. Qed.

Lemma is_L_letter c : is_L c = true -> letter c = true.
Proof. apply ci_letter. reflexivity. Qed.

Lemma is_x_letter c : is_x c = true -> letter c = true.
Proof. apply ci_letter. reflexivity. Qed.

(** A character compared equal to an ASCII letter other than [i], [s] and
    [k] is one of its two cases. *)
Lemma ci_two_cases p c :
  in_range 97 122 p = true -> p <> 105%N -> p <> 115%N -> p <> 107%N ->
  canon c = p -> c = p \/ c = (p - 32)%N.
Proof.
  intros R H1 H2 H3 E. unfold canon, in_range in *. nbool.
  destruct (N.leb_spec 65 c), (N.leb_spec c 90); simpl in E; try (right; lia);
    (destruct (N.eqb_spec c 304); [simpl in E; lia|]);
    (destruct (N.eqb_spec c 305); [simpl in E; lia|]); simpl in E;
    (destruct (N.eqb_spec c 383); [lia|]);
    (destruct (N.eqb_spec c 8490); [lia|]); now left.
Qed.

Lemma is_L_cases c : is_L c = true -> c = 108%N \/ c = 76%N.
Proof.
  unfold is_L, ci. intros H. apply N.eqb_eq in H.
  change (canon (ch "L")) with 108%N in H.
  apply (ci_two_cases 108 c); try reflexivity; try lia; assumption.
Qed.

Lemma is_M_cases c : is_M c = true -> c = 109%N \/ c = 77%N.
Proof.
  unfold is_M, ci. intros H. apply N.eqb_eq in H.
  change (canon (ch "M")) with 109%N in H.
  apply (ci_two_cases 109 c); try reflexivity; try lia; assumption.
Qed.

Lemma is_L_word ua c : is_L c = true -> is_word ua c = true.
Proof. intros H. destruct (is_L_cases c H); subst; reflexivity. Qed.

Lemma is_M_word ua c : is_M c = true -> is_word ua c = true.
Proof. intros H. destruct (is_M_cases c H); subst; reflexivity. Qed.

(* ================================================================= *)
(** * The Error Normalizer leaves no match *)

Ltac case_if :=
  match goal with |- context [if ?x then _ else _] => destruct x end.

Lemma edit_weaken cp blk blk' :
  (forall pv m r s, blk pv m r s -> blk' pv m r s) ->
  forall pv s o, edit cp blk pv s o -> edit cp blk' pv s o.
Proof.
  intros H pv s o E. induction E; constructor; auto.
Qed.

Lemma fin_last w gap s : forall l r, fin w gap s = Some (l, r) -> is_L l = true.
Proof.
  induction s as [|d s IH]; intros l r H; simpl in H; [discriminate|].
  destruct (is_L d) eqn:L.
  - destruct (wbb w (Some d) (hd_error s)); inversion H; subst. exact L.
  - destruct (gap d); [eapply IH; eassumption | discriminate].
Qed.

Lemma mid_last w gap s : forall l r, mid w gap s = Some (l, r) -> is_L l = true.
Proof.
  induction s as [|d s IH]; intros l r H; simpl in H; [discriminate|].
  destruct (is_x d); [eapply fin_last; eassumption|].
  destruct (is_sep d); [eapply IH; eassumption | discriminate].
Qed.

Lemma e_head_last w isc gap pv s l r :
  e_head w isc gap pv s = Some (l, r) ->
  is_L l = true /\ exists c s', s = c :: s' /\ isc c = true.
Proof.
  destruct s as [|c s']; simpl; [discriminate|].
  destruct (wbb w pv (Some c)); simpl; [|discriminate].
  destruct (isc c) eqn:I; [|discriminate]. intros H.
  split; [eapply mid_last; eassumption | eauto].
Qed.

Lemma e_head_mono w isc isc' gap pv s :
  (forall c, isc c = true -> isc' c = true) ->
  e_head w isc gap pv s <> None -> e_head w isc' gap pv s <> None.
Proof.
  intros H. destruct s as [|c s']; simpl; [auto|].
  destruct (wbb w pv (Some c)); simpl; [|auto].
  destruct (isc c) eqn:I; [|congruence]. now rewrite (H c I).
Qed.

Section ErrorBlocks.

Variable ua : char -> bool.
Let W := is_word ua.

Lemma blk_AxL pv m r s :
  shape_blk W is_AZ no_gap keep_first pv m r s -> eblk W pv m r s.
Proof.
  intros (l & E & Hl & Hm & ->).
  destruct (e_head_last _ _ _ _ _ _ _ E) as (L & c & s' & Es & I).
  destruct m as [|c0 mt]; [congruence|]. simpl in Es. inversion Es; subst c0.
  exists c, c, mt, l. repeat split; auto.
  now rewrite <- is_AZ_letter.
Qed.

Lemma blk_MxsL gap pv m r s :
  shape_blk W is_M gap write_M pv m r s -> eblk W pv m r s.
Proof.
  intros (l & E & Hl & Hm & ->).
  destruct (e_head_last _ _ _ _ _ _ _ E) as (L & c & s' & Es & I).
  destruct m as [|c0 mt]; [congruence|]. simpl in Es. inversion Es; subst c0.
  exists c, 77%N, mt, l. repeat split; auto.
  unfold W. now rewrite (is_M_word ua c I).
Qed.

Section Target.

Variables isc gap : char -> bool.
Hypothesis Hisc : forall c, isc c = true -> letter c = true.
Hypothesis Hgap : forall c, gap c = true -> isspace c = true.

Lemma gap_letter c : letter c = true -> gap c = false.
Proof.
  intros L. destruct (gap c) eqn:G; [|reflexivity].
  apply Hgap in G. rewrite (letter_not_space c L) in G. discriminate.
Qed.

Lemma eblk_K0 pv m r s : eblk W pv m r s -> m <> [] /\ r <> [].
Proof. intros (c & c' & mt & l & -> & -> & _). split; discriminate. Qed.

Lemma eblk_K1 pv m r s : eblk W pv m r s ->
  forall r1 r2 o pvo, r = r1 ++ r2 -> r2 <> [] ->
  e_head W isc gap (lastc r1 pvo) (r2 ++ o) = None.
Proof.
  intros (c & c' & mt & l & _ & -> & _) r1 r2 o pvo E Hne.
  destruct r1 as [|a [|b [|d r1]]]; simpl in E; inversion E; subst; simpl.
  - now case_if.
  - now case_if.
  - reflexivity.
  - destruct r1, r2; simpl in *; try discriminate; congruence.
Qed.

Lemma eblk_K2 pv m r s : eblk W pv m r s ->
  forall o, mid W gap (r ++ o) = None /\ fin W gap (r ++ o) = None.
Proof.
  intros (c & c' & mt & l & _ & -> & _ & L' & _) o. simpl.
  assert (G : gap 66%N = false) by (apply gap_letter; reflexivity).
  change (is_L 66%N) with false. rewrite G, (letter_not_sep c' L'), (gap_letter c' L').
  split.
  - destruct (is_x c'); reflexivity.
  - destruct (is_L c') eqn:IL; [|reflexivity].
    unfold wbb. simpl. unfold W. rewrite (is_L_word ua c' IL). reflexivity.
Qed.

Lemma eblk_K3 d m r s : eblk W (Some d) m r s -> is_L d = true ->
  optb W (hd_error r) = optb W (hd_error m).
Proof. intros (c & c' & mt & l & -> & -> & E & _) _. simpl. now rewrite E. Qed.

Lemma eblk_K4 pv m r s : eblk W pv m r s ->
  optb W (lastc r None) = optb W (lastc m None) \/ nostart isc s.
Proof.
  intros (c & c' & mt & l & -> & -> & _ & _ & Hl & L). left.
  rewrite Hl. simpl. unfold W. now rewrite (is_L_word ua l L).
Qed.

(** Matches of the target shape in the output of a script of such
    blocks come from the input. *)
Lemma eblk_transport cp s o :
  edit cp (eblk W) None s o ->
  forall a b, o = a ++ b -> e_head W isc gap (lastc a None) b <> None ->
  exists a' b', s = a' ++ b'
                /\ e_head W isc gap (lastc a' None) b' <> None
                /\ cp (lastc a' None) b'.
Proof.
  intros E a b Eo M.
  eapply (transport W isc gap cp (eblk W) eblk_K0 eblk_K1 eblk_K2 eblk_K3 eblk_K4);
    eauto.
Qed.

End Target.

End ErrorBlocks.

Lemma fix_common_errors_eq ua t :
  _fix_common_errors ua t =
  re_sub F_I (pat_AxL ua) tpl_1BL
    (re_sub F_I (pat_MxsL ua) tpl_MBL (re_sub F_I (pat_MxL ua) tpl_MBL t)).
Proof. reflexivity. Qed.

Lemma expand_MBL s caps :
  expand tpl_MBL s (MState None [] 0 caps) = write_M s.
Proof. reflexivity. Qed.

Lemma expand_1BL s :
  expand tpl_1BL s (MState None [] 0 [(1, (0, 1))]) = keep_first s.
Proof. unfold expand, tpl_1BL, keep_first, group. simpl. now destruct s. Qed.

Lemma edit_blk_ext cp repl repl' w isc gap :
  (forall s, repl s = repl' s) ->
  forall pv s o,
    edit cp (shape_blk w isc gap repl) pv s o ->
    edit cp (shape_blk w isc gap repl') pv s o.
Proof.
  intros H. apply edit_weaken. intros pv m r s (l & E & Hl & Hm & ->).
  exists l. rewrite H. auto.
Qed.

Lemma gap_none c : no_gap c = true -> isspace c = true.
Proof. discriminate. Qed.

Lemma gap_space c : isspace c = true -> isspace c = true.
Proof. auto. Qed.

Lemma isc_AZ c : is_AZ c = true -> letter c = true.
Proof. now rewrite is_AZ_letter. Qed.

Section ErrorNormalizerFacts.

Variable ua : char -> bool.
Let W := is_word ua.

Lemma edit_MxL t :
  edit (shape_cp W is_M no_gap) (eblk W) None t
       (re_sub F_I (pat_MxL ua) tpl_MBL t).
Proof.
  apply (edit_weaken _ _ _ (blk_MxsL ua no_gap)).
  apply (sub_edit W is_M no_gap (pat_MxL ua) tpl_MBL [] (match_MxL ua) (length t)).
  lia.
Qed.

Lemma edit_MxsL t :
  edit (shape_cp W is_M isspace) (eblk W) None t
       (re_sub F_I (pat_MxsL ua) tpl_MBL t).
Proof.
  apply (edit_weaken _ _ _ (blk_MxsL ua isspace)).
  apply (sub_edit W is_M isspace (pat_MxsL ua) tpl_MBL [] (match_MxsL ua) (length t)).
  lia.
Qed.

Lemma edit_AxL t :
  edit (shape_cp W is_AZ no_gap) (eblk W) None t
       (re_sub F_I (pat_AxL ua) tpl_1BL t).
Proof.
  apply (edit_weaken _ _ _ (blk_AxL ua)).
  apply (edit_blk_ext _ _ _ _ _ _ expand_1BL).
  apply (sub_edit W is_AZ no_gap (pat_AxL ua) tpl_1BL [(1, (0, 1))]
                  (match_AxL ua) (length t)).
  lia.
Qed.

(** After the second substitution no match of the second pattern is
    left; after the third, none of the third, and none of the second
    has appeared. *)
Lemma no_MxsL_after t :
  ~ occ W is_M isspace None (re_sub F_I (pat_MxsL ua) tpl_MBL t).
Proof.
  intros (a & b & E & M).
  destruct (eblk_transport ua is_M isspace gap_space _ _ _
              (edit_MxsL t) a b E M) as (a' & b' & _ & M' & C).
  now apply M'.
Qed.

Lemma no_AxL_after t :
  ~ occ W is_AZ no_gap None (re_sub F_I (pat_AxL ua) tpl_1BL t).
Proof.
  intros (a & b & E & M).
  destruct (eblk_transport ua is_AZ no_gap gap_none _ _ _
              (edit_AxL t) a b E M) as (a' & b' & _ & M' & C).
  now apply M'.
Qed.

Lemma MxsL_back t :
  occ W is_M isspace None (re_sub F_I (pat_AxL ua) tpl_1BL t) ->
  occ W is_M isspace None t.
Proof.
  intros (a & b & E & M).
  destruct (eblk_transport ua is_M isspace gap_space _ _ _
              (edit_AxL t) a b E M) as (a' & b' & E' & M' & _).
  now exists a', b'.
Qed.

Lemma fix_common_errors_clean t : clean ua (_fix_common_errors ua t).
Proof.
  rewrite fix_common_errors_eq. split.
  - intros O. apply MxsL_back in O. revert O. apply no_MxsL_after.
  - apply no_AxL_after.
Qed.

(** A substitution for a shape that occurs nowhere returns the text. *)
Lemma sub_shape_none isc gap p tpl caps0 t :
  (forall prev s, option_map proj (match_here F_I p prev s)
                  = option_map (inj caps0) (e_head W isc gap prev s)) ->
  ~ occ W isc gap None t ->
  re_sub F_I p tpl t = t.
Proof.
  intros Hp O. rewrite re_sub_eq. apply sub_nomatch. intros a b E.
  specialize (Hp (lastc a None) b).
  destruct (match_here F_I p (lastc a None) b); [|reflexivity].
  destruct (e_head W isc gap (lastc a None) b) eqn:H; [|discriminate].
  exfalso. apply O. exists a, b. split; [assumption | congruence].
Qed.

Lemma clean_fixed t : clean ua t -> _fix_common_errors ua t = t.
Proof.
  intros [C2 C3]. rewrite fix_common_errors_eq.
  rewrite (sub_shape_none is_M no_gap (pat_MxL ua) tpl_MBL [] t (match_MxL ua)).
  - rewrite (sub_shape_none is_M isspace (pat_MxsL ua) tpl_MBL [] t (match_MxsL ua) C2).
    apply (sub_shape_none is_AZ no_gap (pat_AxL ua) tpl_1BL _ t (match_AxL ua) C3).
  - intros (a & b & E & M). apply C3. exists a, b. split; [assumption|].
    revert M. apply e_head_mono. intros c H. rewrite is_AZ_letter.
    now apply is_M_letter.
Qed.

Lemma fix_common_errors_idem t :
  _fix_common_errors ua (_fix_common_errors ua t) = _fix_common_errors ua t.
Proof. apply clean_fixed, fix_common_errors_clean. Qed.

End ErrorNormalizerFacts.

(* ================================================================= *)
(** * Header and bullet rewriting creates no match *)

Lemma bold_suffix k r1 r2 :
  bold k = r1 ++ r2 -> r2 <> [] -> forallb hchar k = true ->
  exists x y, r2 = x ++ 42%N :: y /\ forallb hchar x = true.
Proof.
  intros E Hne Hk. unfold bold in E. simpl in E.
  destruct r1 as [|a [|b r1]]; simpl in E.
  - exists [], (42%N :: k ++ str "**"). now subst r2.
  - inversion E. exists [], (k ++ str "**"). auto.
  - inversion E as [[Ea Eb E']]. apply app_eq_app in E'.
    destruct E' as (z & [[Ek Er]|[Er Ez]]).
    + exists z, [42%N]. split; [exact Er|]. subst k.
      rewrite forallb_app in Hk. apply andb_true_iff in Hk. tauto.
    + exists [], (tl r2). split; [|reflexivity].
      destruct z as [|z1 [|z2 z]]; simpl in Ez.
      * now subst r2.
      * inversion Ez. now subst r2.
      * inversion Ez as [[E1 E2 E3]]. destruct z, r2; try discriminate. congruence.
Qed.

Section LineBlocks.

Variables (w isc gap : char -> bool).
Hypothesis Hisc : forall c, isc c = true -> letter c = true.
Hypothesis Hgap : forall c, gap c = true -> isspace c = true.
(** No white-space character is a word character, and the ASCII
    punctuation of the blocks is none either. *)
Hypothesis Wsp : forall c, isspace c = true -> w c = false.
Hypothesis Wstar : w 42%N = false.
Hypothesis Wcolon : w 58%N = false.

Lemma isc_not c : letter c = false -> isc c = false.
Proof. intros H. destruct (isc c) eqn:E; [apply Hisc in E; congruence | reflexivity]. Qed.

Lemma gap_not c : isspace c = false -> gap c = false.
Proof. intros H. destruct (gap c) eqn:E; [apply Hgap in E; congruence | reflexivity]. Qed.

Lemma mid_hchars x : forallb hchar x = true ->
  forall y, mid w gap (x ++ 42%N :: y) = None.
Proof.
  induction x as [|d x IH]; intros H y; simpl.
  - reflexivity.
  - simpl in H. apply andb_true_iff in H. destruct H as [Hd Hx].
    unfold hchar in Hd. apply andb_true_iff in Hd. destruct Hd as [_ Hd].
    unfold is_x. apply negb_true_iff in Hd. rewrite Hd.
    destruct (is_sep d); [now apply IH | reflexivity].
Qed.

Lemma e_head_hchars x y pvo : forallb hchar x = true ->
  e_head w isc gap pvo (x ++ 42%N :: y) = None.
Proof.
  intros H. destruct x as [|d x]; simpl.
  - rewrite (isc_not 42%N eq_refl). now rewrite andb_false_r.
  - simpl in H. apply andb_true_iff in H. destruct H as [_ H].
    rewrite (mid_hchars x H). now case_if.
Qed.

Lemma bol_not_L d : bol (Some d) = true -> is_L d = true -> False.
Proof. simpl. intros H. apply N.eqb_eq in H. subst d. discriminate. Qed.

Lemma lblk_K0 pv m r s : lblk pv m r s -> m <> [] /\ r <> [].
Proof.
  intros [(B & k & Hk & Hc & -> & Hm)|(B & -> & ws & mk & ws' & -> & _)].
  - split; [|discriminate]. destruct Hm as [->|[-> _]]; [|assumption].
    destruct k; discriminate.
  - split; [destruct ws|]; discriminate.
Qed.

Lemma lblk_K1 pv m r s : lblk pv m r s ->
  forall r1 r2 o pvo, r = r1 ++ r2 -> r2 <> [] ->
  e_head w isc gap (lastc r1 pvo) (r2 ++ o) = None.
Proof.
  intros [(B & k & Hk & Hc & -> & Hm)|(B & -> & _)] r1 r2 o pvo E Hne.
  - destruct (bold_suffix k r1 r2 E Hne Hc) as (x & y & -> & Hx).
    rewrite <- app_assoc. simpl. now apply e_head_hchars.
  - destruct r1 as [|a [|b [|c [|d r1]]]]; simpl in E; inversion E; subst; simpl;
      try (rewrite (isc_not 32%N eq_refl), andb_false_r; reflexivity);
      try (rewrite (isc_not 45%N eq_refl), andb_false_r; reflexivity).
    destruct r1, r2; simpl in *; try discriminate; congruence.
Qed.

Lemma lblk_K2 pv m r s : lblk pv m r s ->
  forall o, mid w gap (r ++ o) = None /\ fin w gap (r ++ o) = None.
Proof.
  intros [(B & k & Hk & Hc & -> & Hm)|(B & -> & _)] o; simpl.
  - change (is_L 42%N) with false. now rewrite (gap_not 42%N eq_refl).
  - change (is_L 32%N) with false. change (is_L 45%N) with false.
    rewrite (gap_not 45%N eq_refl). split; [reflexivity|].
    now destruct (gap 32%N).
Qed.

Lemma lblk_K3 d m r s : lblk (Some d) m r s -> is_L d = true ->
  optb w (hd_error r) = optb w (hd_error m).
Proof.
  intros [(B & _)|(B & _)] L; exfalso; eapply bol_not_L; eassumption.
Qed.

Lemma lblk_K4 pv m r s : lblk pv m r s ->
  optb w (lastc r None) = optb w (lastc m None) \/ nostart isc s.
Proof.
  intros [(B & k & Hk & Hc & -> & Hm)|(B & -> & ws & mk & ws' & -> & _ & _ & Hne & Sp)].
  - destruct Hm as [->|[-> [->|(s' & ->)]]].
    + left. unfold bold. rewrite !lastc_app. simpl. now rewrite Wstar, Wcolon.
    + now right.
    + right. simpl. now apply isc_not.
  - left. destruct (exists_last Hne) as (u & c & ->).
    change (ws ++ mk :: u ++ [c]) with (ws ++ (mk :: u) ++ [c]).
    rewrite !app_assoc, lastc_app. simpl.
    apply Forall_app in Sp. destruct Sp as [_ Sp]. inversion Sp; subst.
    rewrite (Wsp 32%N eq_refl). symmetry. now apply Wsp.
Qed.

Lemma lblk_transport s o :
  edit any_cp lblk None s o ->
  occ w isc gap None o -> occ w isc gap None s.
Proof.
  intros E (a & b & Eo & M).
  destruct (transport w isc gap any_cp lblk lblk_K0 lblk_K1 lblk_K2 lblk_K3 lblk_K4
              None s o E None (or_introl eq_refl) a b Eo M)
    as (a' & b' & Es & M' & _).
  now exists a', b'.
Qed.

End LineBlocks.

Lemma edit_copy_prefix blk l : forall pv s o,
  edit any_cp blk (lastc l pv) s o -> edit any_cp blk pv (l ++ s) (l ++ o).
Proof.
  induction l as [|c l IH]; intros pv s o E; [exact E|].
  simpl. apply ed_copy; [exact I|]. now apply IH.
Qed.

(** A line-by-line rewriting whose lines are kept or change by a block at
    their start is an edit script. *)
Lemma edit_lines blk g :
  (forall l tail pv, no_nl l -> line_end tail -> bol pv = true ->
     g l = l \/ exists m r rest, l = m ++ rest /\ g l = r ++ rest
                                 /\ blk pv m r (rest ++ tail)) ->
  forall ls, Forall no_nl ls -> forall pv, bol pv = true ->
  edit any_cp blk pv (join_nl ls) (join_nl (map g ls)).
Proof.
  intros Hg ls F. induction F as [|l ls Nl F IH]; intros pv B; [constructor|].
  assert (Line : forall tin tout, line_end tin ->
            edit any_cp blk (lastc l pv) tin tout ->
            edit any_cp blk pv (l ++ tin) (g l ++ tout)).
  { intros tin tout Ht E.
    destruct (Hg l tin pv Nl Ht B) as [->|(m & r & rest & El & -> & Bk)].
    - now apply edit_copy_prefix.
    - subst l. rewrite <- !app_assoc. apply ed_blk; [exact Bk|].
      apply edit_copy_prefix. now rewrite <- lastc_app. }
  destruct ls as [|l2 ls].
  - simpl. rewrite <- (app_nil_r l) at 1. rewrite <- (app_nil_r (g l)).
    apply Line; [now left | constructor].
  - change (join_nl (l :: l2 :: ls)) with (l ++ NL :: join_nl (l2 :: ls)).
    change (join_nl (map g (l :: l2 :: ls)))
      with (g l ++ NL :: join_nl (map g (l2 :: ls))).
    apply Line; [right; eauto|]. apply ed_copy; [exact I|]. now apply IH.
Qed.

Lemma ci_hchar p c : hchar p = true -> ci p c = true -> hchar c = true.
Proof.
  unfold hchar. intros H E. apply andb_true_iff in H. destruct H as [H1 H2].
  rewrite (ci_plain p c H1 E). simpl. apply negb_true_iff in H2.
  apply negb_true_iff. unfold ci in *. apply N.eqb_eq in E. now rewrite E.
Qed.

Lemma ci_prefix_hchars K : forallb hchar K = true ->
  forall s r, ci_prefix K s = Some r ->
  forallb hchar (firstn (length K) s) = true.
Proof.
  induction K as [|p K IH]; intros HK s r H; [reflexivity|].
  simpl in *. apply andb_true_iff in HK. destruct HK as [Hp HK].
  destruct s as [|c s]; [discriminate|]. destruct (ci p c) eqn:E; [|discriminate].
  simpl. rewrite (ci_hchar p c Hp E). simpl. eapply IH; eassumption.
Qed.

Lemma header_ok_hchars K : header_ok K = true -> K <> [] /\ forallb hchar K = true.
Proof.
  destruct K as [|p K]; [discriminate|]. unfold header_ok. intros H.
  apply andb_true_iff in H. split; [discriminate | tauto].
Qed.

Lemma header_prefix_blk K l r : header_ok K = true ->
  ci_prefix K l = Some r ->
  firstn (length K) l <> [] /\ forallb hchar (firstn (length K) l) = true
  /\ l = firstn (length K) l ++ r.
Proof.
  intros OK C. destruct (header_ok_hchars K OK) as [Hne Hc].
  destruct (ci_prefix_split K l r C) as [E L]. repeat split; auto.
  - intros N. rewrite N in L. destruct K; [congruence | discriminate].
  - eapply ci_prefix_hchars; eassumption.
Qed.

Lemma wrap_colon_blk K : header_ok K = true ->
  forall l tail pv, no_nl l -> line_end tail -> bol pv = true ->
  wrap_colon K l = l
  \/ exists m r rest, l = m ++ rest /\ wrap_colon K l = r ++ rest
                      /\ lblk pv m r (rest ++ tail).
Proof.
  intros OK l tail pv Nl Ht B. unfold wrap_colon, colon_form.
  destruct (ci_prefix K l) as [[|c rest]|] eqn:C; auto.
  destruct (N.eqb_spec c (ch ":")) as [->|]; auto. right.
  destruct (header_prefix_blk K l _ OK C) as (Hne & Hc & El).
  exists (firstn (length K) l ++ [ch ":"]), (bold (firstn (length K) l)), rest.
  split; [now rewrite <- app_assoc|]. split; [reflexivity|].
  left. split; [exact B|]. exists (firstn (length K) l). auto.
Qed.

Lemma wrap_alone_blk K : header_ok K = true ->
  forall l tail pv, no_nl l -> line_end tail -> bol pv = true ->
  wrap_alone K l = l
  \/ exists m r rest, l = m ++ rest /\ wrap_alone K l = r ++ rest
                      /\ lblk pv m r (rest ++ tail).
Proof.
  intros OK l tail pv Nl Ht B. unfold wrap_alone, alone_form.
  destruct (ci_prefix K l) as [[|c rest]|] eqn:C; auto. right.
  destruct (header_prefix_blk K l _ OK C) as (Hne & Hc & El).
  rewrite app_nil_r in El. rewrite <- El in *.
  exists l, (bold l), []. rewrite !app_nil_r. repeat split.
  left. split; [exact B|]. exists l. repeat split; auto.
Qed.

Lemma fix_line_blk :
  forall l tail pv, no_nl l -> line_end tail -> bol pv = true ->
  fix_line l = l
  \/ exists m r rest, l = m ++ rest /\ fix_line l = r ++ rest
                      /\ lblk pv m r (rest ++ tail).
Proof.
  intros l tail pv Nl Ht B. rewrite fix_line_spec by assumption.
  destruct (bullet_line l) as [c|] eqn:E; auto. right.
  destruct (bullet_line_split l c E) as (ws & mk & ws' & El & F & Mk & Hne & F' & _).
  exists (ws ++ mk :: ws'), (str " -  "), c.
  split; [now rewrite El, <- app_assoc|]. split; [reflexivity|].
  right. split; [exact B|]. split; [reflexivity|]. exists ws, mk, ws'. auto.
Qed.

Section CleanPreserved.

Variable ua : char -> bool.
(** The one fact used of the Unicode table: no white-space character is
    alphanumeric. *)
Hypothesis ua_space : forall c, isspace c = true -> ua c = false.

Lemma word_space c : isspace c = true -> is_word ua c = false.
Proof.
  intros H. unfold is_word. destruct (N.ltb_spec c 128) as [L|L].
  - unfold isspace, in_range in H. unfold ascii_word, in_range. nbool; subst;
      try reflexivity; try lia;
      repeat match goal with
             | |- context [N.leb ?a ?b] => destruct (N.leb_spec a b)
             | |- context [N.eqb ?a ?b] => destruct (N.eqb_spec a b)
             end; simpl; try reflexivity; lia.
  - now apply ua_space.
Qed.

Lemma lines_clean g t :
  (forall l tail pv, no_nl l -> line_end tail -> bol pv = true ->
     g l = l \/ exists m r rest, l = m ++ rest /\ g l = r ++ rest
                                 /\ lblk pv m r (rest ++ tail)) ->
  clean ua t -> clean ua (join_nl (map g (split_nl t))).
Proof.
  intros Hg [C2 C3].
  pose proof (edit_lines lblk g Hg (split_nl t) (split_no_nl t) None eq_refl) as E.
  rewrite join_split in E. split; intros O.
  - apply C2. revert O.
    apply (lblk_transport (is_word ua) is_M isspace is_M_letter gap_space
                          word_space eq_refl eq_refl t _ E).
  - apply C3. revert O.
    apply (lblk_transport (is_word ua) is_AZ no_gap isc_AZ gap_none
                          word_space eq_refl eq_refl t _ E).
Qed.

Lemma format_header_clean K t :
  header_ok K = true -> clean ua t -> clean ua (format_header t K).
Proof.
  intros OK C. rewrite format_header_spec by assumption.
  destruct (wrapped K t); [exact C|]. destruct (has_colon K t).
  - apply lines_clean; [now apply wrap_colon_blk | exact C].
  - apply lines_clean; [now apply wrap_alone_blk | exact C].
Qed.

Lemma format_headers_clean t :
  clean ua t -> clean ua (_format_section_headers t).
Proof.
  unfold _format_section_headers.
  assert (G : forall Ks, (forall K, In K Ks -> header_ok K = true) ->
             forall t, clean ua t -> clean ua (fold_left format_header Ks t)).
  { induction Ks as [|K Ks IH]; intros HK t0 C; [exact C|].
    simpl. apply IH; [intros K' I; apply HK; now right|].
    apply format_header_clean; [apply HK; now left | exact C]. }
  apply G. apply headers_ok.
Qed.

Lemma fix_bullet_clean t : clean ua t -> clean ua (_fix_bullet_format t).
Proof. apply lines_clean. exact fix_line_blk. Qed.

End CleanPreserved.

(* ================================================================= *)
(** * Headers that are settled stay settled *)

Lemma settled_fixed K t :
  header_ok K = true -> settled K t -> format_header t K = t.
Proof.
  intros OK [W|[C A]]; rewrite format_header_spec by assumption.
  - now rewrite W.
  - rewrite C. destruct (wrapped K t); [reflexivity|]. now apply alone_lines_id.
Qed.

Lemma settled_after K t : header_ok K = true -> settled K (format_header t K).
Proof.
  intros OK. rewrite format_header_spec by assumption.
  destruct (wrapped K t) eqn:W; [now left|].
  destruct (has_colon K t) eqn:C; [left; now apply colon_lines_wrapped|].
  destruct (has_alone K t) eqn:A; [left; now apply alone_lines_wrapped|].
  rewrite alone_lines_id by assumption. now right.
Qed.

(** A literal is not found in a prefix none of whose characters matches
    its first character. *)
Lemma occurs_skip q k p rest :
  Forall (fun c : char => ci q c = false) p ->
  occurs_ci (q :: k) (p ++ rest) = true -> occurs_ci (q :: k) rest = true.
Proof.
  induction 1 as [|c p Hc Hp IH]; intros H; [exact H|].
  apply IH. simpl in H. now rewrite Hc in H.
Qed.

Lemma occurs_nl_split k a b : Forall (fun p : char => ci p NL = false) k -> k <> [] ->
  occurs_ci k (a ++ NL :: b) = true ->
  occurs_ci k a = true \/ occurs_ci k b = true.
Proof.
  intros Hk Hne. induction a as [|c a IH]; intros H.
  - right. simpl in H. destruct k as [|p k]; [congruence|].
    inversion Hk; subst. simpl in H. now rewrite H2 in H.
  - change ((c :: a) ++ NL :: b) with (c :: (a ++ NL :: b)) in H.
    cbn [occurs_ci] in H.
    destruct (ci_prefix k (c :: a ++ NL :: b)) eqn:E.
    + left. assert (C : ci_prefix k (c :: a) <> None)
        by (apply (ci_prefix_nl k Hk (c :: a) b Hne); simpl; congruence).
      destruct (ci_prefix k (c :: a)) eqn:E2; [|congruence].
      eapply occurs_here; eassumption.
    + destruct (IH H) as [G|G]; [left | now right].
      cbn [occurs_ci]. now destruct (ci_prefix k (c :: a)).
Qed.

Lemma occurs_join_inv k : Forall (fun p : char => ci p NL = false) k -> k <> [] ->
  forall ls, occurs_ci k (join_nl ls) = true ->
  exists l, In l ls /\ occurs_ci k l = true.
Proof.
  intros Hk Hne. induction ls as [|l ls IH]; intros H.
  - simpl in H. destruct k; [congruence | discriminate].
  - destruct ls as [|l2 ls].
    + exists l. split; [now left | exact H].
    + change (join_nl (l :: l2 :: ls)) with (l ++ NL :: join_nl (l2 :: ls)) in H.
      destruct (occurs_nl_split k _ _ Hk Hne H) as [G|G].
      * exists l. split; [now left | exact G].
      * destruct (IH G) as (x & I & O). exists x. split; [now right | exact O].
Qed.

(** Line maps under which a found literal stays found. *)
Lemma occurs_lines k g t :
  Forall (fun p : char => ci p NL = false) k -> k <> [] ->
  (forall l, no_nl l -> occurs_ci k l = true -> occurs_ci k (g l) = true) ->
  occurs_ci k t = true -> occurs_ci k (join_nl (map g (split_nl t))) = true.
Proof.
  intros Hk Hne Hg H. rewrite <- (join_split t) in H.
  destruct (occurs_join_inv k Hk Hne _ H) as (l & I & O).
  apply occurs_join with (x := g l); [now apply in_map|].
  apply Hg; [|exact O]. pose proof (split_no_nl t) as F.
  rewrite Forall_forall in F. now apply F.
Qed.

Lemma wrapped_no_nl K : header_ok K = true ->
  Forall (fun p : char => ci p NL = false) (str "**" ++ K ++ str "**").
Proof.
  intros OK. apply Forall_app. split; [repeat constructor|].
  apply Forall_app. split; [|repeat constructor].
  now apply plain_no_nl, header_ok_plain.
Qed.

Lemma ci_star c : ci 42%N c = N.eqb c 42.
Proof. now apply ci_exact. Qed.

Lemma letter_head_none K x c : header_ok K = true -> letter c = false ->
  ci_prefix K (c :: x) = None.
Proof.
  destruct K as [|p K]; [discriminate|]. unfold header_ok. intros H L.
  apply andb_true_iff in H. destruct H as [H _]. simpl.
  destruct (ci p c) eqn:E; [|reflexivity].
  apply (ci_letter p c H) in E. congruence.
Qed.

Lemma settled_map K g t :
  header_ok K = true -> line_edit g ->
  settled K t -> settled K (join_nl (map g (split_nl t))).
Proof.
  intros OK [Gn Ge] [W|[C A]].
  - left. unfold wrapped in *. apply occurs_lines; auto using wrapped_no_nl.
    + discriminate.
    + intros l Nl O. destruct (Ge l Nl) as [->|(p & r & rest & -> & -> & Hp & _)];
        [exact O|].
      apply occurs_app_r. apply (occurs_skip 42%N _ p); [|exact O].
      eapply Forall_impl; [|exact Hp]. intros c Hc. now rewrite ci_star.
  - right. unfold has_colon, has_alone in *.
    rewrite split_join_map by assumption.
    pose proof (split_no_nl t) as F. rewrite Forall_forall in F.
    split.
    + destruct (existsb _ (map g (split_nl t))) eqn:E; [|reflexivity].
      apply existsb_exists in E. destruct E as (y & I & Hy).
      apply in_map_iff in I. destruct I as (l & <- & I).
      destruct (Ge l (F l I)) as [Eg|(p & r & rest & _ & Eg & _ & c & r' & -> & L)];
        rewrite Eg in Hy.
      * rewrite (no_colon_id K t C l I) in Hy. discriminate.
      * unfold colon_form in Hy. simpl app in Hy.
        rewrite (letter_head_none K _ c OK L) in Hy. discriminate.
    + destruct (existsb _ (map g (split_nl t))) eqn:E; [|reflexivity].
      apply existsb_exists in E. destruct E as (y & I & Hy).
      apply in_map_iff in I. destruct I as (l & <- & I).
      destruct (Ge l (F l I)) as [Eg|(p & r & rest & _ & Eg & _ & c & r' & -> & L)];
        rewrite Eg in Hy.
      * rewrite (no_alone_id K t A l I) in Hy. discriminate.
      * unfold alone_form in Hy. simpl app in Hy.
        rewrite (letter_head_none K _ c OK L) in Hy. discriminate.
Qed.

Lemma hchars_no_star k : forallb hchar k = true ->
  Forall (fun c : char => N.eqb c 42 = false) k.
Proof.
  intros H. apply Forall_forall. intros c I. rewrite forallb_forall in H.
  specialize (H c I). unfold hchar in H. apply andb_true_iff in H.
  destruct H as [H _]. destruct (N.eqb_spec c 42); [subst; discriminate | reflexivity].
Qed.

Lemma line_edit_colon K : header_ok K = true -> line_edit (wrap_colon K).
Proof.
  intros OK. split; [apply wrap_colon_no_nl|]. intros l Nl.
  unfold wrap_colon, colon_form.
  destruct (ci_prefix K l) as [[|c rest]|] eqn:C; auto.
  destruct (N.eqb_spec c (ch ":")) as [->|]; auto. right.
  destruct (header_prefix_blk K l _ OK C) as (Hne & Hc & El).
  exists (firstn (length K) l ++ [ch ":"]), (bold (firstn (length K) l)), rest.
  split; [now rewrite <- app_assoc|]. split; [reflexivity|]. split.
  - apply Forall_app. split; [now apply hchars_no_star | repeat constructor].
  - unfold bold. simpl. eauto.
Qed.

Lemma line_edit_alone K : header_ok K = true -> line_edit (wrap_alone K).
Proof.
  intros OK. split; [apply wrap_alone_no_nl|]. intros l Nl.
  unfold wrap_alone, alone_form.
  destruct (ci_prefix K l) as [[|c rest]|] eqn:C; auto. right.
  destruct (header_prefix_blk K l _ OK C) as (Hne & Hc & El).
  rewrite app_nil_r in El. rewrite <- El in *.
  exists l, (bold l), []. rewrite !app_nil_r. repeat split.
  - now apply hchars_no_star.
  - unfold bold. simpl. eauto.
Qed.

Lemma line_edit_bullet : line_edit fix_line.
Proof.
  split; [apply fix_line_no_nl|]. intros l Nl.
  rewrite fix_line_spec by assumption.
  destruct (bullet_line l) as [c|] eqn:E; auto. right.
  destruct (bullet_line_split l c E) as (ws & mk & ws' & El & F & Mk & Hne & F' & _).
  exists (ws ++ mk :: ws'), (str " -  "), c.
  split; [now rewrite El, <- app_assoc|]. split; [reflexivity|]. split.
  - assert (S : forall u, all_space u -> Forall (fun c : char => N.eqb c 42 = false) u).
    { intros u Hu. eapply Forall_impl; [|exact Hu]. intros a Ha.
      destruct (N.eqb_spec a 42); [subst; discriminate | reflexivity]. }
    apply Forall_app. split; [now apply S|]. constructor; [|now apply S].
    destruct (N.eqb_spec mk 42); [subst; discriminate | reflexivity].
  - exists 32%N, (str "-  "). split; reflexivity.
Qed.

Lemma settled_pass K K' t :
  header_ok K = true -> header_ok K' = true ->
  settled K t -> settled K (format_header t K').
Proof.
  intros OK OK' S. rewrite (format_header_spec K') by assumption.
  destruct (wrapped K' t); [exact S|]. destruct (has_colon K' t).
  - apply settled_map; auto using line_edit_colon.
  - apply settled_map; auto using line_edit_alone.
Qed.

Lemma settled_bullet K t :
  header_ok K = true -> settled K t -> settled K (_fix_bullet_format t).
Proof. intros OK S. apply settled_map; auto using line_edit_bullet. Qed.

Lemma settled_fold K Ks : header_ok K = true ->
  (forall K', In K' Ks -> header_ok K' = true) ->
  forall t, settled K t -> settled K (fold_left format_header Ks t).
Proof.
  intros OK. induction Ks as [|K' Ks IH]; intros HK t S; [exact S|].
  simpl. apply IH; [intros K2 I; apply HK; now right|].
  apply settled_pass; auto. apply HK. now left.
Qed.

Lemma settled_headers_gen Ks : (forall K, In K Ks -> header_ok K = true) ->
  forall t K, In K Ks -> settled K (fold_left format_header Ks t).
Proof.
  induction Ks as [|K1 Ks IH]; intros HK t K I; [destruct I|].
  simpl. destruct I as [<-|I].
  - apply settled_fold; [apply HK; now left | intros K' I'; apply HK; now right|].
    apply settled_after. apply HK. now left.
  - apply IH; [intros K' I'; apply HK; now right | exact I].
Qed.

Lemma settled_headers t K :
  In K section_headers -> settled K (_format_section_headers t).
Proof. apply settled_headers_gen. apply headers_ok. Qed.

Lemma headers_fixed t :
  (forall K, In K section_headers -> settled K t) -> _format_section_headers t = t.
Proof.
  unfold _format_section_headers. intros H.
  assert (G : forall Ks, (forall K, In K Ks -> header_ok K = true /\ settled K t) ->
             fold_left format_header Ks t = t).
  { induction Ks as [|K Ks IH]; intros HK; [reflexivity|]. simpl.
    destruct (HK K (or_introl eq_refl)) as [OK S].
    rewrite (settled_fixed K t OK S). apply IH. intros K' I. apply HK. now right. }
  apply G. intros K I. split; [now apply headers_ok | now apply H].
Qed.

(* ================================================================= *)
(** * Runs that a substitution copies *)

Lemma solid_at_tail w isc gap prev c k r :
  solid_at w isc gap prev (c :: k) r -> solid_at w isc gap (Some c) k r.
Proof. intros H a b E Hb. apply (H (c :: a) b); [now rewrite E | exact Hb]. Qed.

(** A run of characters that are neither [x] nor separators, with no word
    boundary before its last character, is solid. *)
Lemma solid_run w isc gap k r :
  Forall (fun c : char => is_x c = false /\ is_sep c = false) k ->
  (forall a c prev, k = a ++ [c] -> wbb w (lastc a prev) (Some c) = false) ->
  forall prev, solid_at w isc gap prev k r.
Proof.
  intros F L prev a b E Hb. destruct b as [|c [|d b]]; [congruence| |].
  - simpl. now rewrite (L a c prev E).
  - rewrite E in F. apply Forall_app in F. destruct F as [_ F].
    inversion F as [|? ? _ F']; subst. inversion F' as [|? ? [Hx Hs] _]; subst.
    simpl. rewrite Hx, Hs. now case_if.
Qed.

Section Runs.

Variables (w isc gap : char -> bool) (p : re) (tpl : template)
          (caps0 : list (nat * (nat * nat))).

Hypothesis Hp : forall prev s,
  option_map proj (match_here F_I p prev s)
  = option_map (inj caps0) (e_head w isc gap prev s).

(** A solid run is copied. *)
Lemma sub_copy_run : forall k r prev, solid_at w isc gap prev k r ->
  sub_from F_I p tpl prev (k ++ r) = k ++ sub_from F_I p tpl (lastc k prev) r.
Proof.
  induction k as [|c k IH]; intros r prev S; [reflexivity|].
  rewrite (sub_shape w isc gap p tpl caps0 Hp).
  pose proof (S [] (c :: k) eq_refl ltac:(discriminate)) as E.
  change (lastc [] prev) with prev in E. rewrite E. simpl. f_equal.
  apply IH. eapply solid_at_tail. exact S.
Qed.

Variable sig : text.
Hypothesis Sm : mid w gap sig = None.
Hypothesis Sf : fin w gap sig = None.

Lemma fin_until u : forall l rest, fin w gap (u ++ sig) = Some (l, rest) ->
  exists u2, rest = u2 ++ sig.
Proof.
  induction u as [|d u IH]; intros l rest H; simpl in H; [congruence|].
  destruct (is_L d).
  - destruct (wbb w (Some d) (hd_error (u ++ sig))); inversion H; subst. now exists u.
  - destruct (gap d); [now apply (IH l) | discriminate].
Qed.

Lemma mid_until u : forall l rest, mid w gap (u ++ sig) = Some (l, rest) ->
  exists u2, rest = u2 ++ sig.
Proof.
  induction u as [|d u IH]; intros l rest H; simpl in H; [congruence|].
  destruct (is_x d); [now apply (fin_until u l)|].
  destruct (is_sep d); [now apply (IH l) | discriminate].
Qed.

(** A match that starts before [sig] ends before [sig]. *)
Lemma e_head_until pv c u l rest :
  e_head w isc gap pv ((c :: u) ++ sig) = Some (l, rest) ->
  exists m u2, c :: u = m ++ u2 /\ rest = u2 ++ sig /\ lastc m pv = Some l.
Proof.
  intros H. destruct (e_head_suffix _ _ _ _ _ _ _ H) as (m & Em & Hl & Hm).
  simpl in H. destruct (wbb w pv (Some c) && isc c); [|discriminate].
  destruct (mid_until u l rest H) as (u2 & ->).
  exists m, u2. rewrite app_assoc in Em. apply app_inv_tail in Em. auto.
Qed.

(** The scan reaches the start of [sig]. *)
Lemma sub_until : forall n u prev, length u <= n ->
  exists u', sub_from F_I p tpl prev (u ++ sig)
             = u' ++ sub_from F_I p tpl (lastc u prev) sig.
Proof.
  induction n as [|n IH]; intros u prev Hn;
    (destruct u as [|c u]; [now exists []|]); [simpl in Hn; lia|].
  rewrite (sub_shape w isc gap p tpl caps0 Hp).
  destruct (e_head w isc gap prev ((c :: u) ++ sig)) as [[l rest]|] eqn:E.
  - destruct (e_head_until prev c u l rest E) as (m & u2 & Eu & -> & Hl).
    assert (Hm : m <> []).
    { destruct (e_head_suffix _ _ _ _ _ _ _ E) as (m' & Em & _ & Hm').
      rewrite Eu, <- app_assoc in Em. apply app_inv_tail in Em. now subst m'. }
    destruct (IH u2 (Some l)) as (u' & ->).
    { apply (f_equal (@length char)) in Eu. rewrite length_app in Eu.
      destruct m; [congruence | simpl in *; lia]. }
    rewrite Eu, lastc_app, Hl. eexists. now rewrite app_assoc.
  - simpl. destruct (IH u (Some c)) as (u' & ->); [simpl in Hn; lia|].
    now exists (c :: u').
Qed.

End Runs.

(** A solid run that no match runs into is in the result of the
    substitution wherever it is in the text. *)
Lemma sub_keeps_run w isc gap p tpl caps0 k r :
  (forall prev s, option_map proj (match_here F_I p prev s)
                  = option_map (inj caps0) (e_head w isc gap prev s)) ->
  (forall prev, solid_at w isc gap prev k r) ->
  mid w gap (k ++ r) = None -> fin w gap (k ++ r) = None ->
  forall u, exists u' r', re_sub F_I p tpl (u ++ k ++ r) = u' ++ k ++ r'.
Proof.
  intros Hp S Sm Sf u. rewrite re_sub_eq.
  destruct (sub_until w isc gap p tpl caps0 Hp (k ++ r) Sm Sf (length u) u None (le_n _))
    as (u' & ->).
  rewrite (sub_copy_run w isc gap p tpl caps0 Hp k r _ (S _)). eauto.
Qed.

(* ================================================================= *)
(** * The Error Normalizer keeps the signature *)

Lemma ci_prefix_cons_inv q k s r : ci_prefix (q :: k) s = Some r ->
  exists c s', s = c :: s' /\ ci q c = true /\ ci_prefix k s' = Some r.
Proof.
  destruct s as [|c s']; cbn [ci_prefix]; [discriminate|].
  destruct (ci q c) eqn:E; [|discriminate]. eauto.
Qed.

Lemma occurs_split k : forall s, occurs_ci k s = true ->
  exists u v r, s = u ++ v /\ ci_prefix k v = Some r.
Proof.
  induction s as [|c s IH]; intros H; cbn [occurs_ci] in H.
  - destruct (ci_prefix k []) as [r|] eqn:E; [|discriminate]. now exists [], [], r.
  - destruct (ci_prefix k (c :: s)) as [r|] eqn:E; [now exists [], (c :: s), r|].
    destruct (IH H) as (u & v & r & -> & C). now exists (c :: u), v, r.
Qed.

(** Characters compared equal to [q] are compared equal to what [q] is. *)
Lemma ci_other q q' c : ci q' q = false -> ci q c = true -> ci q' c = false.
Proof. unfold ci. intros Hq E. apply N.eqb_eq in E. now rewrite E. Qed.

Lemma ci_hard q c : letter q = true -> ci (ch "x") q = false -> ci q c = true ->
  is_x c = false /\ is_sep c = false.
Proof.
  intros Lq Xq E. split; [exact (ci_other q _ c Xq E)|].
  apply letter_not_sep. eapply ci_letter; eassumption.
Qed.

Lemma is_e_word ua c : ci 101%N c = true -> is_word ua c = true.
Proof.
  unfold ci. intros H. apply N.eqb_eq in H. change (canon 101) with 101%N in H.
  destruct (ci_two_cases 101 c) as [-> | ->]; try reflexivity; try lia; assumption.
Qed.

(** An occurrence of the signature token, however it is spelled, is a solid
    run, and no match runs into it. *)
Lemma michael_run ua isc gap v r :
  (forall c, gap c = true -> isspace c = true) ->
  ci_prefix (str "michael") v = Some r ->
  exists k, v = k ++ r /\ ci_prefix (str "michael") k = Some []
            /\ (forall prev, solid_at (is_word ua) isc gap prev k r)
            /\ mid (is_word ua) gap (k ++ r) = None
            /\ fin (is_word ua) gap (k ++ r) = None.
Proof.
  intros Hgap H.
  change (str "michael") with [109; 105; 99; 104; 97; 101; 108]%N in *.
  destruct (ci_prefix_cons_inv _ _ _ _ H) as (c1 & s1 & -> & H1 & G1).
  destruct (ci_prefix_cons_inv _ _ _ _ G1) as (c2 & s2 & -> & H2 & G2).
  destruct (ci_prefix_cons_inv _ _ _ _ G2) as (c3 & s3 & -> & H3 & G3).
  destruct (ci_prefix_cons_inv _ _ _ _ G3) as (c4 & s4 & -> & H4 & G4).
  destruct (ci_prefix_cons_inv _ _ _ _ G4) as (c5 & s5 & -> & H5 & G5).
  destruct (ci_prefix_cons_inv _ _ _ _ G5) as (c6 & s6 & -> & H6 & G6).
  destruct (ci_prefix_cons_inv _ _ _ _ G6) as (c7 & s7 & -> & H7 & G7).
  cbn [ci_prefix] in G7. inversion G7; subst s7.
  exists [c1; c2; c3; c4; c5; c6; c7]. split; [reflexivity|]. split.
  { cbn [ci_prefix]. now rewrite H1, H2, H3, H4, H5, H6, H7. }
  destruct (ci_hard 109%N c1 eq_refl eq_refl H1) as [X1 S1].
  split; [|split].
  - apply solid_run.
    + repeat (apply Forall_cons; [eapply ci_hard; [| |eassumption]; reflexivity|]).
      apply Forall_nil.
    + intros a c prev E.
      change [c1; c2; c3; c4; c5; c6; c7] with ([c1; c2; c3; c4; c5; c6] ++ [c7]) in E.
      apply app_inj_tail in E. destruct E as [<- <-].
      unfold wbb. cbn [lastc fold_left optb].
      now rewrite (is_e_word ua c6 H6), (is_L_word ua c7 H7).
  - cbn [app mid]. now rewrite X1, S1.
  - cbn [app fin]. unfold is_L. rewrite (ci_other 109%N (ch "L") c1 eq_refl H1).
    destruct (gap c1) eqn:G; [|reflexivity].
    apply Hgap in G. rewrite (letter_not_space c1) in G; [discriminate|].
    eapply ci_letter; [|exact H1]. reflexivity.
Qed.

Lemma sub_keeps_michael ua isc gap p tpl caps0 t :
  (forall c, gap c = true -> isspace c = true) ->
  (forall prev s, option_map proj (match_here F_I p prev s)
                  = option_map (inj caps0) (e_head (is_word ua) isc gap prev s)) ->
  occurs_ci (str "michael") t = true ->
  occurs_ci (str "michael") (re_sub F_I p tpl t) = true.
Proof.
  intros Hgap Hp O. destruct (occurs_split _ _ O) as (u & v & r & -> & C).
  destruct (michael_run ua isc gap v r Hgap C) as (k & -> & Ck & S & Sm & Sf).
  destruct (sub_keeps_run _ _ _ p tpl caps0 k r Hp S Sm Sf u) as (u' & r' & ->).
  apply occurs_app_r, occurs_app_l. eapply occurs_here; eassumption.
Qed.

Lemma occurs_fix_common_errors ua t :
  occurs_ci (str "michael") t = true ->
  occurs_ci (str "michael") (_fix_common_errors ua t) = true.
Proof.
  intros O. rewrite fix_common_errors_eq.
  apply (sub_keeps_michael ua is_AZ no_gap _ _ _ _ gap_none (match_AxL ua)).
  apply (sub_keeps_michael ua is_M isspace _ _ _ _ gap_space (match_MxsL ua)).
  apply (sub_keeps_michael ua is_M no_gap _ _ _ _ gap_none (match_MxL ua)).
  exact O.
Qed.

(** The text ["MBL will attend"] is a solid run. *)
Lemma attend_solid ua isc gap r prev :
  solid_at (is_word ua) isc gap prev (str "MBL will attend") r.
Proof.
  intros a b E Hb.
  change (str "MBL will attend")
    with [77; 66; 76; 32; 119; 105; 108; 108; 32; 97; 116; 116; 101; 110; 100]%N in E.
  do 15 (destruct a as [|x a];
         [ cbn [app] in E; subst b; simpl; try reflexivity; now case_if
         | cbn [app] in E; injection E as E0 E; subst x ]).
  destruct a, b; simpl in E; try discriminate; congruence.
Qed.

(** Behind a word boundary, ["MxL will attend"] becomes
    ["MBL will attend"], whatever surrounds it. *)
Lemma MxL_will_attend ua a b :
  wbb (is_word ua) (lastc a None) (Some (ch "M")) = true ->
  exists a' b',
    _fix_common_errors ua (a ++ str "MxL will attend" ++ b)
    = a' ++ str "MBL will attend" ++ b'.
Proof.
  intros Wb. rewrite fix_common_errors_eq.
  assert (P1 : exists a1 b1,
             re_sub F_I (pat_MxL ua) tpl_MBL (a ++ str "MxL will attend" ++ b)
             = a1 ++ str "MBL will attend" ++ b1).
  { rewrite re_sub_eq.
    destruct (sub_until (is_word ua) is_M no_gap (pat_MxL ua) tpl_MBL []
                (match_MxL ua) (str "MxL will attend" ++ b) eq_refl eq_refl
                (length a) a None (le_n _)) as (a1 & ->).
    rewrite (sub_shape (is_word ua) is_M no_gap (pat_MxL ua) tpl_MBL [] (match_MxL ua)).
    assert (E : e_head (is_word ua) is_M no_gap (lastc a None)
                       (str "MxL will attend" ++ b)
                = Some (76%N, str " will attend" ++ b)).
    { change (str "MxL will attend" ++ b)
        with (77%N :: (str "xL will attend" ++ b)).
      unfold e_head. change (@Some char 77%N) with (Some (ch "M")).
      rewrite Wb. reflexivity. }
    rewrite E, expand_MBL.
    rewrite (sub_copy_run (is_word ua) is_M no_gap (pat_MxL ua) tpl_MBL []
               (match_MxL ua) (str " will attend") b).
    - exists a1. eexists. reflexivity.
    - do 3 eapply solid_at_tail. apply (attend_solid ua is_M no_gap b None). }
  destruct P1 as (a1 & b1 & ->).
  destruct (sub_keeps_run (is_word ua) is_M isspace (pat_MxsL ua) tpl_MBL []
              (str "MBL will attend") b1 (match_MxsL ua)
              (attend_solid ua is_M isspace b1) eq_refl eq_refl a1)
    as (a2 & b2 & ->).
  apply (sub_keeps_run (is_word ua) is_AZ no_gap (pat_AxL ua) tpl_1BL [(1, (0, 1))]
           (str "MBL will attend") b2 (match_AxL ua)
           (attend_solid ua is_AZ no_gap b2) eq_refl eq_refl a2).
Qed.

(* ================================================================= *)
(** * The later stages keep the signature *)

(** A literal is not found across a character that none of its characters
    matches. *)
Lemma ci_prefix_sep c0 k : Forall (fun p : char => ci p c0 = false) k ->
  forall u r, k <> [] -> ci_prefix k (u ++ c0 :: r) <> None -> ci_prefix k u <> None.
Proof.
  induction 1 as [|p k Hp Hk IH]; intros u r Hne H; [congruence|].
  destruct u as [|c u]; simpl in *.
  - now rewrite Hp in H.
  - destruct (ci p c); [|exact H].
    destruct k as [|q k]; [simpl; discriminate|].
    eapply IH; [discriminate | exact H].
Qed.

Lemma occurs_sep_split c0 k a b : Forall (fun p : char => ci p c0 = false) k -> k <> [] ->
  occurs_ci k (a ++ c0 :: b) = true ->
  occurs_ci k a = true \/ occurs_ci k b = true.
Proof.
  intros Hk Hne. induction a as [|c a IH]; intros H.
  - right. simpl in H. destruct k as [|p k]; [congruence|].
    inversion Hk; subst. simpl in H. now rewrite H2 in H.
  - change ((c :: a) ++ c0 :: b) with (c :: (a ++ c0 :: b)) in H.
    cbn [occurs_ci] in H.
    destruct (ci_prefix k (c :: a ++ c0 :: b)) eqn:E.
    + left. assert (C : ci_prefix k (c :: a) <> None)
        by (apply (ci_prefix_sep c0 k Hk (c :: a) b Hne); simpl; congruence).
      destruct (ci_prefix k (c :: a)) eqn:E2; [|congruence].
      eapply occurs_here; eassumption.
    + destruct (IH H) as [G|G]; [left | now right].
      cbn [occurs_ci]. now destruct (ci_prefix k (c :: a)).
Qed.

Lemma not_letter_ci p c : letter p = true -> letter c = false -> ci p c = false.
Proof.
  intros Hp Hc. destruct (ci p c) eqn:E; [|reflexivity].
  apply (ci_letter p c Hp) in E. congruence.
Qed.

Lemma michael_colon : Forall (fun p : char => ci p (ch ":") = false) (str "michael").
Proof. repeat constructor. Qed.

Lemma occurs_wrap_colon K l :
  occurs_ci (str "michael") l = true ->
  occurs_ci (str "michael") (wrap_colon K l) = true.
Proof.
  intros O. unfold wrap_colon, colon_form.
  destruct (ci_prefix K l) as [[|c rest]|] eqn:C; auto.
  destruct (N.eqb_spec c (ch ":")) as [->|]; auto.
  destruct (ci_prefix_split K l _ C) as [E _]. rewrite E in O.
  destruct (occurs_sep_split (ch ":") _ _ _ michael_colon ltac:(discriminate) O) as [G|G].
  - apply occurs_app_l. unfold bold. apply occurs_app_r. now apply occurs_app_l.
  - now apply occurs_app_r.
Qed.

Lemma occurs_wrap_alone K l :
  occurs_ci (str "michael") l = true ->
  occurs_ci (str "michael") (wrap_alone K l) = true.
Proof.
  intros O. unfold wrap_alone. destruct (alone_form K l); [|exact O].
  unfold bold. apply occurs_app_r. now apply occurs_app_l.
Qed.

Lemma occurs_fix_line l : no_nl l ->
  occurs_ci (str "michael") l = true ->
  occurs_ci (str "michael") (fix_line l) = true.
Proof.
  intros Nl O. rewrite fix_line_spec by assumption.
  destruct (bullet_line l) as [c|] eqn:E; [|exact O].
  destruct (bullet_line_split l c E) as (ws & mk & ws' & El & F & Mk & Hne & F' & _).
  apply occurs_app_r. rewrite El in O.
  change (ws ++ mk :: ws' ++ c) with (ws ++ (mk :: ws') ++ c) in O.
  rewrite app_assoc in O. apply (occurs_skip 109%N _ (ws ++ mk :: ws')); [|exact O].
  assert (S : forall u, all_space u -> Forall (fun c : char => ci 109%N c = false) u).
  { intros u Hu. eapply Forall_impl; [|exact Hu]. intros a Ha.
    apply not_letter_ci; [reflexivity|]. now apply space_canon. }
  apply Forall_app. split; [now apply S|]. constructor; [|now apply S].
  unfold is_marker in Mk. apply orb_true_iff in Mk.
  destruct Mk as [Mk|Mk]; apply N.eqb_eq in Mk; subst; reflexivity.
Qed.

Lemma occurs_format_header K t : header_ok K = true ->
  occurs_ci (str "michael") t = true ->
  occurs_ci (str "michael") (format_header t K) = true.
Proof.
  intros OK O. rewrite format_header_spec by assumption.
  destruct (wrapped K t); [exact O|]. destruct (has_colon K t).
  - apply occurs_lines; auto using michael_no_nl, occurs_wrap_colon. discriminate.
  - apply occurs_lines; auto using michael_no_nl, occurs_wrap_alone. discriminate.
Qed.

Lemma occurs_format_headers t :
  occurs_ci (str "michael") t = true ->
  occurs_ci (str "michael") (_format_section_headers t) = true.
Proof.
  unfold _format_section_headers.
  assert (G : forall Ks, (forall K, In K Ks -> header_ok K = true) ->
             forall t, occurs_ci (str "michael") t = true ->
                       occurs_ci (str "michael") (fold_left format_header Ks t) = true).
  { induction Ks as [|K Ks IH]; intros HK t0 O; [exact O|].
    simpl. apply IH; [intros K' I; apply HK; now right|].
    apply occurs_format_header; [apply HK; now left | exact O]. }
  apply G. apply headers_ok.
Qed.

Lemma occurs_fix_bullet t :
  occurs_ci (str "michael") t = true ->
  occurs_ci (str "michael") (_fix_bullet_format t) = true.
Proof.
  intros O. apply occurs_lines; auto using michael_no_nl, occurs_fix_line. discriminate.
Qed.

(* ================================================================= *)
(** * The claims *)

(** ** Idempotence of the pipeline *)

(** C1. Idempotence of the pipeline on every text in which the Signature
    Guarantor finds a signature, a trailing one in particular, whatever
    headers and bullets the text contains: applying Error Normalizer,
    Header Formatter, Bullet Normalizer and Signature Guarantor a second
    time changes nothing.  The word-character table is any table in which no
    white-space character is alphanumeric. *)
Theorem normalize_idempotent (ua : char -> bool) (x : text)
  (ua_space : forall c, isspace c = true -> ua c = false)
  (Hsig : re_search F_I signature_pattern x = true) :
  normalize ua (normalize ua x) = normalize ua x.
Proof.
  unfold normalize. rewrite search_signature in Hsig.
  set (e := _fix_common_errors ua x).
  set (h := _format_section_headers e).
  set (b := _fix_bullet_format h).
  assert (Ob : occurs_ci (str "michael") b = true).
  { now apply occurs_fix_bullet, occurs_format_headers, occurs_fix_common_errors. }
  rewrite (add_signature_found b Ob).
  assert (Cb : clean ua b).
  { apply fix_bullet_clean, format_headers_clean; auto.
    apply fix_common_errors_clean. }
  rewrite (clean_fixed ua b Cb).
  assert (Hb : _format_section_headers b = b).
  { apply headers_fixed. intros K I. apply settled_bullet; [now apply headers_ok|].
    now apply settled_headers. }
  rewrite Hb. unfold b at 1. rewrite fix_bullet_idem. fold b.
  apply add_signature_found, Ob.
Qed.

(** C1 on an example with a header, bullets and a trailing signature. *)
Lemma normalize_idempotent_witness :
  normalize no_high_word
    (normalize no_high_word
       (str "Attendees: John, MxL" ++ NL :: str "  - Buy milk" ++ NL :: NL
        :: str "Michael"))
  = normalize no_high_word
      (str "Attendees: John, MxL" ++ NL :: str "  - Buy milk" ++ NL :: NL
       :: str "Michael").
Proof.
  apply (normalize_idempotent no_high_word
           (str "Attendees: John, MxL" ++ NL :: str "  - Buy milk" ++ NL :: NL
            :: str "Michael")
           (fun c _ => eq_refl) eq_refl).
Defined.

(** The signature is needed: on a text without one the Signature Guarantor
    removes the trailing blank, which puts the header alone on its line, and
    the second application wraps it. *)
Example second_application_unsigned :
  normalize no_high_word (str "Attendees ")
  = str "Attendees" ++ [NL; NL] ++ str "Michael"
  /\ normalize no_high_word (normalize no_high_word (str "Attendees "))
     = str "**Attendees**" ++ [NL; NL] ++ str "Michael".
Proof. vm_compute. auto. Qed.

(** ** The Header Formatter *)

Lemma has_colon_line K t i l r :
  nth_error (split_nl t) i = Some l -> colon_form K l = Some r -> has_colon K t = true.
Proof.
  intros N C. unfold has_colon. apply existsb_exists. exists l.
  split; [eapply nth_error_In; eassumption | now rewrite C].
Qed.

Lemma form_prefix K l :
  (is_some (colon_form K l) = true \/ alone_form K l = true) -> ci_prefix K l <> None.
Proof.
  unfold colon_form, alone_form. destruct (ci_prefix K l); [discriminate|].
  intros [H|H]; discriminate.
Qed.

(** C2 (the code loses the colon). On ["Attendees: John, Mary"] the Header
    Formatter returns ["**Attendees** John, Mary"]: the match of the first
    pattern includes the colon and the replacement writes group 1 only.  It
    is so for that line in every text in which the header is not wrapped
    already. *)
Theorem header_colon_lost :
  _format_section_headers (str "Attendees: John, Mary")
  = str "**Attendees** John, Mary"
  /\ (forall t i,
        re_search F_IM (wrapped_pattern (str "Attendees")) t = false ->
        nth_error (split_nl t) i = Some (str "Attendees: John, Mary") ->
        nth_error (split_nl (_format_section_headers t)) i
        = Some (str "**Attendees** John, Mary")).
Proof.
  split; [vm_compute; reflexivity|]. intros t i W N.
  rewrite search_wrapped in W. fold (wrapped (str "Attendees") t) in W.
  rewrite (header_turn [] (str "Attendees")
             [str "Action Items"; str "General Notes"; str "Personal"]
             t eq_refl i _ N); [|discriminate].
  cbn [fold_left]. rewrite W.
  now rewrite (has_colon_line (str "Attendees") t i _ (str " John, Mary") N).
Qed.




(** C10 as stated fails: in this document ["Personal"] is wrapped nowhere
    and starts a line both with a colon and alone, yet its pass is skipped
    and the occurrence with the colon stays unwrapped, because the pass of
    ["Attendees"] has just produced the text ["**Attendees**Personal**"]. *)
Lemma earlier_pass_suppresses_colon_wrap :
  wrapped (str "Personal")
          (str "Attendees:Personal**" ++ NL :: str "Personal:" ++ NL :: str "Personal")
  = false
  /\ has_colon (str "Personal")
          (str "Attendees:Personal**" ++ NL :: str "Personal:" ++ NL :: str "Personal")
     = true
  /\ has_alone (str "Personal")
          (str "Attendees:Personal**" ++ NL :: str "Personal:" ++ NL :: str "Personal")
     = true
  /\ split_nl (_format_section_headers
          (str "Attendees:Personal**" ++ NL :: str "Personal:" ++ NL :: str "Personal"))
     = [str "**Attendees**Personal**"; str "Personal:"; str "Personal"].
Proof. vm_compute. auto. Qed.

(** C10, amended. When the text [tK] that reaches the pass of a header [K]
    has [K] wrapped nowhere and has a line that starts with [K] and a colon,
    then in the Header Formatter's result every line of [tK] that starts with
    [K] and a colon starts with the wrapped [K], and every line that is [K]
    alone is left as it is: the guard, which does not find [K] wrapped in
    [tK], finds it wrapped once the first pattern has been substituted, so
    the pattern for a header alone on its line is skipped. *)
Theorem colon_lines_win (pre : list text) (K : text) (post : list text)
  (t : text) (i : nat) (l : text)
  (Hturn : section_headers = pre ++ K :: post)
  (Hwrapped : wrapped K (at_turn pre t) = false)
  (Hcolon : has_colon K (at_turn pre t) = true)
  (Hline : nth_error (split_nl (at_turn pre t)) i = Some l) :
  (forall r, colon_form K l = Some r ->
     exists tail,
       nth_error (split_nl (_format_section_headers t)) i
       = Some (bold (firstn (length K) l) ++ tail))
  /\ (alone_form K l = true ->
      nth_error (split_nl (_format_section_headers t)) i = Some l)
  /\ re_search F_IM (wrapped_pattern K) (at_turn pre t) = false
  /\ re_search F_IM (wrapped_pattern K)
       (format_step K (at_turn pre t) (hp_bol_colon K)) = true.
Proof.
  unfold at_turn in *. split; [|split; [|split]].
  - intros r C. exists r. rewrite (header_turn pre K post t Hturn i l Hline).
    + rewrite Hwrapped, Hcolon. unfold wrap_colon. now rewrite C.
    + apply form_prefix. left. now rewrite C.
  - intros A. rewrite (header_turn pre K post t Hturn i l Hline).
    + rewrite Hwrapped, Hcolon. unfold wrap_colon, colon_form.
      unfold alone_form in A. destruct (ci_prefix K l) as [[|]|]; try discriminate.
      reflexivity.
    + apply form_prefix. now right.
  - now rewrite search_wrapped.
  - rewrite format_step_eq, Hwrapped, search_wrapped.
    rewrite sub_colon_lines; [now apply colon_lines_wrapped|].
    apply header_ok_plain, headers_ok. rewrite Hturn. apply in_elt.
Qed.

Lemma colon_lines_win_witness :
  nth_error (split_nl (_format_section_headers
                         (str "Personal: x" ++ NL :: str "Personal")))
            1
  = Some (str "Personal").
Proof.
  apply (proj1 (proj2 (colon_lines_win
           [str "Attendees"; str "Action Items"; str "General Notes"]
           (str "Personal") []
           (str "Personal: x" ++ NL :: str "Personal") 1 (str "Personal")
           eq_refl eq_refl eq_refl eq_refl)) eq_refl).
Defined.

(** ** The Error Normalizer *)

(** C4 as stated fails.  ["M x L"] and ["M", tab, "xL"] have no match of the
    specification's pattern (a blank behind the [x]; a separator that is
    neither a dot nor a blank), and the code rewrites them; ["mxL"] has one,
    and the code writes a capital [M], not the letter that was matched. *)
Lemma error_normalizer_not_the_spec_substitution :
  (re_search F_I (spec_error_pattern no_high_word) (str "M x L") = false
   /\ _fix_common_errors no_high_word (str "M x L") = str "MBL")
  /\ (re_search F_I (spec_error_pattern no_high_word) (str "M" ++ 9%N :: str "xL")
      = false
      /\ _fix_common_errors no_high_word (str "M" ++ 9%N :: str "xL") = str "MBL")
  /\ (spec_fix_common_errors no_high_word (str "mxL") = str "mBL"
      /\ _fix_common_errors no_high_word (str "mxL") = str "MBL").
Proof. vm_compute. auto. Qed.

(** C4, amended. The Error Normalizer is three substitutions in turn, each
    an edit script that replaces the matches it meets from the left and
    copies every other character: the word-bounded matches of
    "M, dots or white space, xL" and then of "M, dots or white space, x, white
    space, L" by ["MBL"], then those of "letter, dots or white space, xL" by
    the same letter and ["BL"], case ignored.  No match of any of the three
    patterns is left in the result, and ["MxL will attend"] becomes
    ["MBL will attend"], also inside a text when it starts at a word
    boundary. *)
Theorem error_normalizer_contract (ua : char -> bool) (t : text) :
  (exists t1 t2,
      edit (shape_cp (is_word ua) is_M no_gap)
           (shape_blk (is_word ua) is_M no_gap write_M) None t t1
      /\ edit (shape_cp (is_word ua) is_M isspace)
              (shape_blk (is_word ua) is_M isspace write_M) None t1 t2
      /\ edit (shape_cp (is_word ua) is_AZ no_gap)
              (shape_blk (is_word ua) is_AZ no_gap keep_first) None t2
              (_fix_common_errors ua t))
  /\ ~ occ (is_word ua) is_M no_gap None (_fix_common_errors ua t)
  /\ ~ occ (is_word ua) is_M isspace None (_fix_common_errors ua t)
  /\ ~ occ (is_word ua) is_AZ no_gap None (_fix_common_errors ua t)
  /\ _fix_common_errors ua (str "MxL will attend") = str "MBL will attend"
  /\ (forall a b, wbb (is_word ua) (lastc a None) (Some (ch "M")) = true ->
      exists a' b',
        _fix_common_errors ua (a ++ str "MxL will attend" ++ b)
        = a' ++ str "MBL will attend" ++ b').
Proof.
  split.
  - exists (re_sub F_I (pat_MxL ua) tpl_MBL t),
           (re_sub F_I (pat_MxsL ua) tpl_MBL (re_sub F_I (pat_MxL ua) tpl_MBL t)).
    rewrite fix_common_errors_eq. repeat split.
    + apply (sub_edit (is_word ua) is_M no_gap (pat_MxL ua) tpl_MBL []
                      (match_MxL ua) (length t)). lia.
    + eapply (sub_edit (is_word ua) is_M isspace (pat_MxsL ua) tpl_MBL []
                       (match_MxsL ua)). apply le_n.
    + apply (edit_blk_ext _ _ _ _ _ _ expand_1BL).
      eapply (sub_edit (is_word ua) is_AZ no_gap (pat_AxL ua) tpl_1BL [(1, (0, 1))]
                       (match_AxL ua)). apply le_n.
  - destruct (fix_common_errors_clean ua t) as [C2 C3].
    repeat split; auto using MxL_will_attend.
    intros (a & b & E & M). apply C3. exists a, b. split; [assumption|].
    revert M. apply e_head_mono. intros c H. rewrite is_AZ_letter.
    now apply is_M_letter.
Qed.

(** ** The Bullet Normalizer *)

(** C5 as stated fails: a marker followed by white space only is a line
    with a marker and no content, and it does not pass through unchanged when
    the white space has two characters: the pattern matches, with the second
    of them as group 3. *)
Lemma marker_only_line_rewritten :
  _fix_bullet_format (str "-  ") = str " -   "
  /\ _fix_bullet_format (str "-  ") <> str "-  "
  /\ _fix_bullet_format (str "Items" ++ NL :: str "-  " ++ NL :: str "Done")
     = str "Items" ++ NL :: str " -   " ++ NL :: str "Done".
Proof. vm_compute. repeat split; try reflexivity. discriminate. Qed.

(** C5, amended. The Bullet Normalizer works line by line: a line the bullet
    pattern matches becomes [" -  "] followed by group 3, and group 3 is what
    follows the white space behind the marker or, when nothing follows it,
    the last character of that white space; every other line is kept, so a
    line of white space and a line without marker.  A line of indentation,
    marker and white space only is kept when at most one character follows
    the marker, and becomes [" -  "] and its last character when more
    follow.  A line ["  - Buy milk"] becomes [" -  Buy milk"]. *)
Theorem bullet_normalizer_contract (t : text) :
  split_nl (_fix_bullet_format t) = map fix_line (split_nl t)
  /\ (forall l, In l (split_nl t) ->
        (bullet_shape l ->
           exists m ws mk ws',
             re_match F_0 bullet_pattern l = Some m
             /\ l = ws ++ mk :: ws' ++ group l m 3
             /\ all_space ws /\ is_marker mk = true
             /\ ws' <> [] /\ all_space ws'
             /\ ((exists d r, group l m 3 = d :: r /\ isspace d = false)
                 \/ (exists d, group l m 3 = [d] /\ isspace d = true))
             /\ fix_line l = str " -  " ++ group l m 3)
        /\ (~ bullet_shape l -> fix_line l = l)
        /\ (all_space l -> fix_line l = l)
        /\ (Forall (fun c : char => is_marker c = false) l -> fix_line l = l)
        /\ (forall ws mk tail,
              l = ws ++ mk :: tail ->
              all_space ws -> is_marker mk = true -> all_space tail ->
              (length tail <= 1 -> fix_line l = l)
              /\ (forall ws' d, tail = ws' ++ [d] -> ws' <> [] ->
                  fix_line l = str " -  " ++ [d])))
  /\ fix_line [] = []
  /\ fix_line (str "-") = str "-"
  /\ fix_line (str "  - ") = str "  - "
  /\ fix_line (str "-  ") = str " -   "
  /\ fix_line (str "Buy milk") = str "Buy milk"
  /\ (In (str "  - Buy milk") (split_nl t) ->
      In (str " -  Buy milk") (split_nl (_fix_bullet_format t))).
Proof.
  split; [apply split_fix_bullet|]. split; [|repeat split; try reflexivity].
  - intros l Hl.
    assert (N : no_nl l).
    { pose proof (split_no_nl t) as F. rewrite Forall_forall in F. now apply F. }
    pose proof (fix_line_spec l N) as FS. split; [|split; [|split; [|split]]].
    + intros Sh. apply bullet_line_shape in Sh.
      destruct (bullet_line l) as [c|] eqn:E; [|congruence].
      destruct (bullet_line_split l c E)
        as (ws & mk & ws' & El & Fw & Mk & Hne & Fw' & Hc & Fix).
      pose proof (bullet_match_spec l N) as BM. rewrite E in BM.
      destruct (re_match F_0 bullet_pattern l) as [m|] eqn:M; [|contradiction].
      exists m, ws, mk, ws'. rewrite BM.
      split; [reflexivity|]. split; [exact El|].
      repeat (split; [assumption|]).
      split; [now apply content_of_fixed_shape | exact FS].
    + intros Sh. destruct (bullet_line l) eqn:E; [|exact FS].
      exfalso. apply Sh. apply bullet_line_shape. congruence.
    + intros B. now rewrite FS, (bullet_line_blank l B).
    + intros B. now rewrite FS, (bullet_line_no_marker l B).
    + intros ws mk tail El Fw Mk Ft.
      destruct (bullet_line_marker_only ws mk tail Fw Mk Ft) as [A B].
      rewrite <- El in A, B. split.
      * intros L. now rewrite FS, (A L).
      * intros ws' d Et Hne. now rewrite FS, (B ws' d Et Hne).
  - intros H. rewrite split_fix_bullet.
    change (str " -  Buy milk") with (fix_line (str "  - Buy milk")).
    now apply in_map.
Qed.

(** ** The Signature Guarantor *)

(** C6. When the specification's pattern "optional signature prefix,
    michael" is found anywhere in the text, case ignored, the Signature
    Guarantor returns the text as it is, so the number of occurrences of the
    token is unchanged. *)
Theorem signature_found_unchanged (t : text)
  (Hfound : re_search F_I spec_signature_pattern t = true) :
  _add_signature t = t
  /\ count_ci (str "michael") (_add_signature t) = count_ci (str "michael") t.
Proof.
  rewrite search_spec_signature in Hfound.
  rewrite (add_signature_found t Hfound). auto.
Qed.

Lemma signature_found_unchanged_witness :
  _add_signature (str "Notes. Signature: Michael" ++ [NL]) =
  str "Notes. Signature: Michael" ++ [NL].
Proof.
  apply (proj1 (signature_found_unchanged
                  (str "Notes. Signature: Michael" ++ [NL]) eq_refl)).
Defined.

Lemma rstrip_keep_text u : rstrip (u ++ str "see you then.") = u ++ str "see you then.".
Proof.
  change (u ++ str "see you then.") with (u ++ str "see you then" ++ [46%N]).
  rewrite app_assoc. now apply rstrip_keep.
Qed.

(** C7. When the pattern is found nowhere, the result is the text without
    its trailing white space, two line breaks and ["Michael"]; the stripped
    text does not end in white space, so exactly two line breaks precede the
    token.  The empty text gives the two line breaks and the token; a text
    that ends in ["see you then."] is kept whole. *)
Theorem signature_appended (t : text)
  (Habsent : re_search F_I spec_signature_pattern t = false) :
  _add_signature t = rstrip t ++ [NL; NL] ++ str "Michael"
  /\ (exists ws, t = rstrip t ++ ws /\ all_space ws)
  /\ (forall u c, rstrip t = u ++ [c] -> isspace c = false)
  /\ (t = [] -> _add_signature t = [NL; NL] ++ str "Michael")
  /\ (forall u, t = u ++ str "see you then." ->
      _add_signature t = u ++ str "see you then." ++ [NL; NL] ++ str "Michael").
Proof.
  rewrite search_spec_signature in Habsent.
  pose proof (add_signature_append t Habsent) as A.
  split; [exact A|]. split; [apply rstrip_split|].
  split; [intros u c; apply rstrip_no_space|]. split.
  - intros ->. reflexivity.
  - intros u ->. rewrite A, rstrip_keep_text, <- app_assoc. reflexivity.
Qed.

Lemma signature_appended_witness :
  _add_signature (str "Call Anna, see you then.  ")
  = rstrip (str "Call Anna, see you then.  ") ++ [NL; NL] ++ str "Michael".
Proof.
  apply (proj1 (signature_appended (str "Call Anna, see you then.  ") eq_refl)).
Defined.

(** C8 as stated fails: a text that mentions the name is returned as it is
    and does not end with the token. *)
Lemma mention_is_taken_for_signature :
  normalize no_high_word (str "Michael went home.") = str "Michael went home."
  /\ endswith (normalize no_high_word (str "Michael went home.")) (str "Michael")
     = false.
Proof. vm_compute. auto. Qed.

Lemma occurs_rstrip k t : occurs_ci k t = false -> occurs_ci k (rstrip t) = false.
Proof.
  intros H. destruct (occurs_ci k (rstrip t)) eqn:E; [|reflexivity].
  destruct (rstrip_split t) as (ws & Et & _). rewrite Et in H.
  rewrite (occurs_app_l k _ ws E) in H. discriminate.
Qed.

(** C8, amended. The result of the pipeline always contains the token,
    case ignored.  When the text [t] left by the first three stages
    contains it, the result is [t] and nothing is appended; when it does
    not, the result is [t] without its trailing white space, two line
    breaks and ["Michael"], which contains the token exactly once. *)
Theorem signature_invariant (ua : char -> bool) (x : text) :
  let t := _fix_bullet_format (_format_section_headers (_fix_common_errors ua x)) in
  occurs_ci (str "michael") (normalize ua x) = true
  /\ (occurs_ci (str "michael") t = true -> normalize ua x = t)
  /\ (occurs_ci (str "michael") t = false ->
      normalize ua x = rstrip t ++ [NL; NL] ++ str "Michael"
      /\ (forall u c, rstrip t = u ++ [c] -> isspace c = false)
      /\ count_ci (str "michael") (normalize ua x) = 1).
Proof.
  intros t. unfold normalize. fold t. split; [apply occurs_add_signature|].
  split; [apply add_signature_found|]. intros A.
  rewrite (add_signature_append t A).
  split; [reflexivity|]. split; [intros u c; apply rstrip_no_space|].
  apply count_appended. now apply occurs_rstrip.
Qed.

(** C9. The result of the pipeline contains ["michael"], case ignored (the
    search of [_add_signature] finds it), and is therefore not empty.  The
    Signature Guarantor finds the token in the text [t] that the first three
    stages leave exactly when [t] contains it, and then the result is [t];
    otherwise the result is [t] up to its trailing white space, followed by
    two line breaks and the literal ["Michael"], as for the empty text. *)
Theorem signature_token_present (ua : char -> bool) (x : text) :
  let t := _fix_bullet_format (_format_section_headers (_fix_common_errors ua x)) in
  re_search F_I signature_pattern (normalize ua x) = true
  /\ occurs_ci (str "michael") (normalize ua x) = true
  /\ normalize ua x <> []
  /\ re_search F_I signature_pattern t = occurs_ci (str "michael") t
  /\ (occurs_ci (str "michael") t = true -> normalize ua x = t)
  /\ (occurs_ci (str "michael") t = false ->
      normalize ua x = rstrip t ++ [NL; NL] ++ str "Michael"
      /\ exists ws, t = rstrip t ++ ws /\ all_space ws)
  /\ normalize ua [] = [NL; NL] ++ str "Michael".
Proof.
  intros t.
  assert (O : occurs_ci (str "michael") (normalize ua x) = true)
    by apply occurs_add_signature.
  split; [now rewrite search_signature|]. split; [exact O|]. split.
  - intros E. rewrite E in O. discriminate.
  - split; [apply search_signature|]. split; [apply add_signature_found|].
    split; [|reflexivity].
    intros A. unfold normalize. fold t. rewrite (add_signature_append t A).
    split; [reflexivity | apply rstrip_split].
Qed.

(* ================================================================= *)
(** * Beyond the claims *)

(* ================================================================= *)
(** * White space and words *)

Lemma lstrip_all_space s : all_space s -> lstrip s = [].
Proof. induction 1 as [|c s Hc _ IH]; simpl; [reflexivity | now rewrite Hc]. Qed.

Lemma rstrip_all_space s : all_space s -> rstrip s = [].
Proof. induction 1 as [|c s Hc _ IH]; simpl; [reflexivity | now rewrite IH, Hc]. Qed.

Lemma lstrip_split s :
  exists ws, s = ws ++ lstrip s /\ all_space ws.
Proof.
  induction s as [|c s (ws & E & F)]; [exists []; split; [reflexivity | constructor]|].
  simpl. destruct (isspace c) eqn:Hc.
  - exists (c :: ws). simpl. split; [now f_equal | now constructor].
  - exists []. split; [reflexivity | constructor].
Qed.

Lemma lstrip_head s c r : lstrip s = c :: r -> isspace c = false.
Proof.
  induction s as [|d s IH]; simpl; [discriminate|].
  destruct (isspace d) eqn:Hd; [exact IH|]. intros E. inversion E; subst. exact Hd.
Qed.

Lemma lstrip_fixed s : (forall c r, s = c :: r -> isspace c = false) -> lstrip s = s.
Proof.
  destruct s as [|c s]; [reflexivity|]. intros H. simpl.
  now rewrite (H c s eq_refl).
Qed.

(** The stripped text is what is left between two runs of white space; it
    neither starts nor ends with white space. *)
Lemma strip_split s :
  exists a b, s = a ++ strip s ++ b /\ all_space a /\ all_space b.
Proof.
  destruct (rstrip_split s) as (b & E & Fb).
  destruct (lstrip_split (rstrip s)) as (a & Ea & Fa).
  exists a, b. unfold strip. rewrite app_assoc, <- Ea. auto.
Qed.

Lemma strip_head s c r : strip s = c :: r -> isspace c = false.
Proof. apply lstrip_head. Qed.

Lemma strip_last s u c : strip s = u ++ [c] -> isspace c = false.
Proof.
  unfold strip. intros E.
  destruct (lstrip_split (rstrip s)) as (ws & Es & _). rewrite E in Es.
  rewrite app_assoc in Es. now apply rstrip_no_space in Es.
Qed.

Lemma rstrip_fixed s : (forall u c, s = u ++ [c] -> isspace c = false) -> rstrip s = s.
Proof.
  intros H. induction s as [|c u _] using rev_ind; [reflexivity|].
  apply rstrip_keep. now apply (H u c).
Qed.

Lemma strip_idem s : strip (strip s) = strip s.
Proof.
  unfold strip at 1. rewrite rstrip_fixed by apply strip_last.
  apply lstrip_fixed. apply strip_head.
Qed.

Lemma strip_all_space s : all_space s -> strip s = [].
Proof. intros H. unfold strip. now rewrite rstrip_all_space. Qed.

Lemma strip_nil s : strip s = [] -> all_space s.
Proof.
  intros E. destruct (strip_split s) as (a & b & Es & Fa & Fb).
  rewrite E in Es. rewrite Es. apply Forall_app. auto.
Qed.

Lemma truthy_strip s : truthy (strip s) = false <-> all_space s.
Proof.
  split.
  - intros H. apply strip_nil. now destruct (strip s).
  - intros H. now rewrite strip_all_space.
Qed.

Lemma strip_word w : word w -> strip w = w.
Proof.
  intros [Hn F]. unfold strip. rewrite rstrip_fixed.
  - apply lstrip_fixed. intros c r ->. now inversion F.
  - intros u c ->. apply Forall_app in F. destruct F as [_ F]. now inversion F.
Qed.

(** ** [split()] *)

Lemma split_ws_space c s : isspace c = true -> split_ws (c :: s) = split_ws s.
Proof. intros H. simpl. now rewrite H. Qed.

Lemma split_ws_eq c d s :
  split_ws (c :: d :: s) =
  if isspace c then split_ws (d :: s)
  else if isspace d then [c] :: split_ws (d :: s)
       else match split_ws (d :: s) with
            | w :: ws => (c :: w) :: ws
            | [] => [[c]]
            end.
Proof. reflexivity. Qed.

(** A word in front of white space, or of the end, is the first word. *)
Lemma split_ws_word w : word w -> forall s,
  match s with [] => True | d :: _ => isspace d = true end ->
  split_ws (w ++ s) = w :: split_ws s.
Proof.
  intros [Hn F]. induction F as [|c w Hc F IH]; [congruence|]. intros s Hs.
  destruct w as [|d w].
  - destruct s as [|e s]; simpl; rewrite Hc; [reflexivity|]. now rewrite Hs.
  - change ((c :: d :: w) ++ s) with (c :: d :: (w ++ s)).
    rewrite split_ws_eq, Hc. inversion F as [|? ? Hd _]; subst. rewrite Hd.
    change (d :: w ++ s) with ((d :: w) ++ s).
    rewrite IH by (auto; discriminate). reflexivity.
Qed.

Lemma split_ws_words s : Forall word (split_ws s).
Proof.
  induction s as [|c s IH]; [constructor|].
  destruct s as [|d s].
  - simpl. destruct (isspace c) eqn:Hc; [constructor|].
    repeat constructor; [discriminate | exact Hc].
  - rewrite split_ws_eq. destruct (isspace c) eqn:Hc; [exact IH|].
    destruct (isspace d) eqn:Hd.
    + constructor; [|exact IH]. repeat constructor; [discriminate | exact Hc].
    + destruct (split_ws (d :: s)) as [|w ws].
      * repeat constructor; [discriminate | exact Hc].
      * inversion IH as [|? ? [Hw Fw] Fws]; subst.
        constructor; [|exact Fws]. split; [discriminate | now constructor].
Qed.

Lemma split_ws_all_space s : all_space s -> split_ws s = [].
Proof. induction 1 as [|c s Hc _ IH]; [reflexivity|]. now rewrite split_ws_space. Qed.

Lemma split_ws_nil s : split_ws s = [] -> all_space s.
Proof.
  induction s as [|c s IH]; [constructor|].
  destruct s as [|d s].
  - simpl. destruct (isspace c) eqn:Hc; [repeat constructor; exact Hc | discriminate].
  - rewrite split_ws_eq. destruct (isspace c) eqn:Hc;
      [intros H; constructor; [exact Hc | exact (IH H)]|].
    destruct (isspace d); [discriminate|].
    destruct (split_ws (d :: s)); discriminate.
Qed.

(** The filter of the word count keeps every word. *)
Lemma word_count_words t : word_count t = length (split_ws t).
Proof.
  unfold word_count. f_equal.
  pose proof (split_ws_words t) as F.
  induction F as [|w ws Hw _ IH]; [reflexivity|]. simpl.
  rewrite (strip_word w Hw). destruct Hw as [Hn _].
  destruct w; [congruence|]. simpl. now rewrite IH.
Qed.

(** ** [' '.join] *)

Lemma join_cons sep l l' ls :
  join sep (l :: l' :: ls) = l ++ sep ++ join sep (l' :: ls).
Proof. reflexivity. Qed.

(** Splitting what was joined by blanks gives the words back. *)
Lemma split_ws_join ws : Forall word ws -> split_ws (join (str " ") ws) = ws.
Proof.
  induction 1 as [|w ws Hw F IH]; [reflexivity|].
  destruct ws as [|w' ws].
  - simpl. rewrite <- (app_nil_r w) at 1. now rewrite split_ws_word.
  - rewrite join_cons, split_ws_word by (auto; reflexivity).
    change (str " " ++ join (str " ") (w' :: ws)) with (32%N :: join (str " ") (w' :: ws)).
    rewrite split_ws_space by reflexivity. now rewrite IH.
Qed.

Lemma join_words_truthy ws : Forall word ws -> ws <> [] ->
  truthy (strip (join (str " ") ws)) = true.
Proof.
  intros F Hn. destruct (truthy (strip (join (str " ") ws))) eqn:E; [reflexivity|].
  apply truthy_strip, split_ws_all_space in E. rewrite split_ws_join in E; congruence.
Qed.

(* ================================================================= *)
(** * The fallbacks of the analysis *)

Lemma firstn_in {A} n (l : list A) x : In x (firstn n l) -> In x l.
Proof.
  revert l. induction n as [|n IH]; intros [|y l]; simpl; try tauto.
  intros [->|H]; [now left | right; auto].
Qed.

Lemma Forall_firstn {A} (P : A -> Prop) n l : Forall P l -> Forall P (firstn n l).
Proof.
  intros F. apply Forall_forall. intros x Hx. apply firstn_in in Hx.
  rewrite Forall_forall in F. auto.
Qed.

Lemma join_nonempty ws : Forall word ws -> ws <> [] -> join (str " ") ws <> [].
Proof.
  intros F Hn E. apply (f_equal split_ws) in E. rewrite split_ws_join in E; auto.
Qed.

Lemma last_of_app (a b u : text) c : b <> [] -> a ++ b = u ++ [c] ->
  exists b', b = b' ++ [c].
Proof.
  intros Hb E. induction b as [|x b' _] using rev_ind; [congruence|].
  rewrite app_assoc in E. apply app_inj_tail in E. destruct E as [_ ->]. now exists b'.
Qed.

Lemma join_last ws : Forall word ws -> ws <> [] ->
  forall u c, join (str " ") ws = u ++ [c] -> isspace c = false.
Proof.
  induction 1 as [|w ws Hw F IH]; [congruence|]. intros _ u c E.
  destruct ws as [|w' ws].
  - simpl in E. destruct Hw as [_ Fw]. rewrite E in Fw.
    apply Forall_app in Fw. destruct Fw as [_ Fw]. now inversion Fw.
  - rewrite join_cons, app_assoc in E.
    apply last_of_app in E; [|apply join_nonempty; auto; discriminate].
    destruct E as (b' & E). apply (IH ltac:(discriminate) b' c E).
Qed.

(** Words joined by single blanks: nothing to strip. *)
Lemma strip_join ws : Forall word ws -> strip (join (str " ") ws) = join (str " ") ws.
Proof.
  intros F. destruct ws as [|w ws]; [reflexivity|].
  unfold strip. rewrite rstrip_fixed.
  - apply lstrip_fixed. intros c r E. inversion F as [|? ? [Hn Fw] _]; subst.
    destruct w as [|d w]; [congruence|]. inversion Fw; subst.
    destruct ws; simpl in E; inversion E; subst; assumption.
  - apply join_last; [exact F | discriminate].
Qed.

Lemma first_words_blank t : all_space t -> first_words t = str "Untitled Note".
Proof. intros H. unfold first_words. now rewrite split_ws_all_space. Qed.

Lemma first_words_join t : ~ all_space t ->
  first_words t = join (str " ") (firstn 5 (split_ws t))
  /\ firstn 5 (split_ws t) <> [].
Proof.
  intros H. unfold first_words. destruct (split_ws t) as [|w ws] eqn:E.
  - exfalso. apply H. now apply split_ws_nil.
  - split; [reflexivity | discriminate].
Qed.

Lemma all_space_dec t : all_space t \/ ~ all_space t.
Proof.
  destruct (forallb isspace t) eqn:E.
  - left. apply Forall_forall. rewrite forallb_forall in E. exact E.
  - right. intros H. unfold all_space in H. rewrite Forall_forall in H.
    assert (forallb isspace t = true) by (apply forallb_forall; exact H). congruence.
Qed.

(** The first five words, joined: what splitting gives back, and a fixed
    point of the fallback. *)
Lemma first_words_spec t :
  (all_space t -> first_words t = str "Untitled Note")
  /\ (~ all_space t -> split_ws (first_words t) = firstn 5 (split_ws t))
  /\ length (split_ws (first_words t)) <= 5
  /\ strip (first_words t) = first_words t
  /\ truthy (first_words t) = true
  /\ first_words (first_words t) = first_words t.
Proof.
  split; [apply first_words_blank|].
  destruct (all_space_dec t) as [B|B].
  - rewrite (first_words_blank t B). repeat split; try reflexivity; try tauto.
    simpl. lia.
  - destruct (first_words_join t B) as [E Hn]. rewrite E.
    assert (F : Forall word (firstn 5 (split_ws t)))
      by apply Forall_firstn, split_ws_words.
    assert (S : split_ws (join (str " ") (firstn 5 (split_ws t))) = firstn 5 (split_ws t))
      by now apply split_ws_join.
    repeat split.
    + intros _. exact S.
    + rewrite S. apply firstn_le_length.
    + now apply strip_join.
    + pose proof (join_nonempty _ F Hn) as N.
      now destruct (join (str " ") (firstn 5 (split_ws t))).
    + unfold first_words at 1. rewrite S, firstn_firstn, Nat.min_id.
      destruct (firstn 5 (split_ws t)); [congruence | reflexivity].
Qed.

(** ** The truncated summary *)

Lemma truncated_spec t :
  length (truncated t) <= 203
  /\ firstn 200 (truncated t) = firstn 200 t
  /\ (length t <= 200 -> truncated t = t)
  /\ (200 < length t ->
      truncated t = firstn 200 t ++ str "..." /\ length (truncated t) = 203).
Proof.
  unfold truncated. destruct (Nat.ltb_spec 200 (length t)) as [H|H].
  - assert (L : length (firstn 200 t) = 200) by (rewrite firstn_length_le; lia).
    repeat split; try lia.
    + rewrite length_app, L. change (length (str "...")) with 3. lia.
    + rewrite firstn_app, L, Nat.sub_diag, firstn_O, app_nil_r.
      now rewrite firstn_firstn, Nat.min_id.
    + rewrite length_app, L. reflexivity.
  - repeat split; try lia.
Qed.

(** ** The first sentences *)

Lemma split_chr_nonempty sep s : split_chr sep s <> [].
Proof.
  destruct s as [|c s]; simpl; [discriminate|].
  destruct (N.eqb c sep); [discriminate|]. destruct (split_chr sep s); discriminate.
Qed.

Lemma join_split_chr sep s : join [sep] (split_chr sep s) = s.
Proof.
  induction s as [|c s IH]; [reflexivity|]. simpl.
  pose proof (split_chr_nonempty sep s) as N.
  destruct (N.eqb_spec c sep) as [->|E].
  - destruct (split_chr sep s) as [|l ls]; [congruence|].
    now rewrite join_cons, IH.
  - destruct (split_chr sep s) as [|l ls]; [congruence|].
    destruct ls as [|l' ls]; simpl in *; now rewrite IH.
Qed.

Lemma infix_join sep ls : forall l, In l ls -> infix l (join sep ls).
Proof.
  induction ls as [|x ls IH]; intros l H; [destruct H|].
  destruct ls as [|y ls].
  - destruct H as [<-|[]]. exists [], []. simpl. now rewrite app_nil_r.
  - rewrite join_cons. destruct H as [<-|H].
    + now exists [], (sep ++ join sep (y :: ls)).
    + destruct (IH l H) as (a & b & ->). exists (x ++ sep ++ a), b.
      now rewrite <- !app_assoc.
Qed.

Lemma split_chr_free sep s :
  Forall (Forall (fun c : char => N.eqb c sep = false)) (split_chr sep s).
Proof.
  induction s as [|c s IH]; simpl; [repeat constructor|].
  destruct (N.eqb c sep) eqn:E; [constructor; [constructor | exact IH]|].
  destruct (split_chr sep s) as [|l ls]; [repeat constructor; exact E|].
  inversion IH; subst. constructor; [now constructor | assumption].
Qed.

Lemma infix_trans a b c : infix a b -> infix b c -> infix a c.
Proof.
  intros (x & y & ->) (u & v & ->). exists (u ++ x), (y ++ v).
  now rewrite <- !app_assoc.
Qed.

Lemma strip_infix s : infix (strip s) s.
Proof. destruct (strip_split s) as (a & b & E & _). now exists a, b. Qed.

Lemma infix_forall (P : char -> Prop) p t : infix p t -> Forall P t -> Forall P p.
Proof.
  intros (a & b & ->) F. apply Forall_app in F. destruct F as [_ F].
  apply Forall_app in F. tauto.
Qed.

(** The elements of [[s.strip() for s in ls if s.strip()]]. *)
Lemma stripped_in ls p : In p (stripped ls) ->
  p <> [] /\ strip p = p /\ exists s, In s ls /\ p = strip s.
Proof.
  unfold stripped. intros H. apply in_map_iff in H. destruct H as (s & <- & H).
  apply filter_In in H. destruct H as [I T]. repeat split.
  - intros E. now rewrite E in T.
  - apply strip_idem.
  - now exists s.
Qed.

Lemma stripped_length ls : length (stripped ls) <= length ls.
Proof. unfold stripped. rewrite length_map. apply filter_length_le. Qed.

(** The key points of the fallback: at most three, none empty, none with
    white space around it or with a full stop in it, each a piece of the
    text. *)
Lemma first_sentences_spec t :
  length (first_sentences t) <= 3
  /\ forall p, In p (first_sentences t) ->
       p <> [] /\ strip p = p /\ ~ In (ch ".") p /\ infix p t.
Proof.
  unfold first_sentences. split.
  - etransitivity; [apply stripped_length | apply firstn_le_length].
  - intros p H. apply stripped_in in H. destruct H as (Hn & Hs & s & I & ->).
    apply firstn_in in I. repeat split; auto.
    + intros D. pose proof (split_chr_free (ch ".") t) as F.
      rewrite Forall_forall in F. specialize (F s I).
      pose proof (infix_forall _ _ _ (strip_infix s) F) as F'.
      rewrite Forall_forall in F'. specialize (F' _ D). discriminate.
    + apply (infix_trans _ s); [apply strip_infix|].
      rewrite <- (join_split_chr (ch ".") t). now apply infix_join.
Qed.

(* ================================================================= *)
(** * More on the pipeline *)

(** ** A text of white space *)

Lemma all_space_not_letter c : isspace c = true -> letter c = false.
Proof. intros H. now apply space_canon in H. Qed.

Lemma e_head_space w isc gap pv s :
  (forall c, isc c = true -> letter c = true) -> all_space s ->
  e_head w isc gap pv s = None.
Proof.
  intros Hisc F. destruct F as [|c s Hc _]; [reflexivity|]. simpl.
  destruct (isc c) eqn:E; [|now rewrite andb_false_r].
  apply Hisc in E. rewrite (all_space_not_letter c Hc) in E. discriminate.
Qed.

Lemma blank_clean ua t : all_space t -> clean ua t.
Proof.
  intros F. split; intros (a & b & E & M); apply M; rewrite E in F;
    apply Forall_app in F; destruct F as [_ F];
    apply e_head_space; auto using is_M_letter, isc_AZ.
Qed.

Lemma split_nl_space t : all_space t -> Forall all_space (split_nl t).
Proof.
  induction 1 as [|c t Hc F IH]; simpl; [repeat constructor|].
  destruct (N.eqb c NL); [constructor; [constructor | exact IH]|].
  destruct (split_nl t) as [|l ls]; [repeat constructor; exact Hc|].
  inversion IH; subst. constructor; [now constructor | assumption].
Qed.

Lemma header_not_blank K l : header_ok K = true -> all_space l -> ci_prefix K l = None.
Proof.
  intros OK F. destruct F as [|c l Hc _].
  - destruct K; [discriminate | reflexivity].
  - apply letter_head_none; [exact OK | now apply all_space_not_letter].
Qed.

Lemma blank_settled K t : header_ok K = true -> all_space t -> settled K t.
Proof.
  intros OK F. right. pose proof (split_nl_space t F) as L. unfold all_space in L.
  rewrite Forall_forall in L. unfold has_colon, has_alone.
  split; apply not_true_is_false; intros H; apply existsb_exists in H;
    destruct H as (l & I & H); specialize (L l I);
    unfold colon_form, alone_form in H; rewrite (header_not_blank K l OK L) in H;
    discriminate.
Qed.

Lemma blank_bullets t : all_space t -> _fix_bullet_format t = t.
Proof.
  intros F. unfold _fix_bullet_format. rewrite map_id_on; [apply join_split|].
  intros l I. pose proof (split_no_nl t) as N. rewrite Forall_forall in N.
  rewrite fix_line_spec by exact (N l I).
  pose proof (split_nl_space t F) as L. unfold all_space in L. rewrite Forall_forall in L.
  now rewrite bullet_line_blank by exact (L l I).
Qed.

Lemma blank_no_signature t : all_space t -> occurs_ci (str "michael") t = false.
Proof.
  induction 1 as [|c t Hc _ IH]; [reflexivity|]. cbn [occurs_ci].
  replace (ci_prefix (str "michael") (c :: t)) with (@None text); [exact IH|].
  change (str "michael") with (109%N :: str "ichael"). cbn [ci_prefix].
  rewrite not_letter_ci; [reflexivity | reflexivity | now apply all_space_not_letter].
Qed.

Lemma normalize_all_space (ua : char -> bool) (t : text) : all_space t ->
  normalize ua t = [NL; NL] ++ str "Michael".
Proof.
  intros Hblank. unfold normalize.
  rewrite (clean_fixed ua t (blank_clean ua t Hblank)).
  rewrite headers_fixed by (intros K I; apply blank_settled; auto using headers_ok).
  rewrite blank_bullets by assumption.
  rewrite add_signature_append by now apply blank_no_signature.
  now rewrite rstrip_all_space.
Qed.

(** X1. A text of white space only, the empty text included, comes out of
    the pipeline as two line breaks and the signature. *)
Theorem normalize_blank (ua : char -> bool) (t : text) (Hblank : all_space t) :
  normalize ua t = [NL; NL] ++ str "Michael".
Proof. now apply normalize_all_space. Qed.

(** ** Each stage alone *)

(** X2. Each of the four stages is idempotent, on every text. *)
Theorem stages_idempotent (ua : char -> bool) (t : text) :
  _fix_common_errors ua (_fix_common_errors ua t) = _fix_common_errors ua t
  /\ _format_section_headers (_format_section_headers t) = _format_section_headers t
  /\ _fix_bullet_format (_fix_bullet_format t) = _fix_bullet_format t
  /\ _add_signature (_add_signature t) = _add_signature t.
Proof.
  split; [apply fix_common_errors_idem|]. split.
  - apply headers_fixed. intros K I. now apply settled_headers.
  - split; [apply fix_bullet_idem|].
    apply add_signature_found, occurs_add_signature.
Qed.

(** ** The second application is the last that changes anything *)

Lemma normalize_fixed ua x :
  (forall c, isspace c = true -> ua c = false) ->
  occurs_ci (str "michael") x = true ->
  normalize ua (normalize ua x) = normalize ua x.
Proof.
  intros ua_space Hsig. unfold normalize.
  set (e := _fix_common_errors ua x).
  set (h := _format_section_headers e).
  set (b := _fix_bullet_format h).
  assert (Ob : occurs_ci (str "michael") b = true).
  { now apply occurs_fix_bullet, occurs_format_headers, occurs_fix_common_errors. }
  rewrite (add_signature_found b Ob).
  assert (Cb : clean ua b).
  { apply fix_bullet_clean, format_headers_clean; auto.
    apply fix_common_errors_clean. }
  rewrite (clean_fixed ua b Cb).
  assert (Hb : _format_section_headers b = b).
  { apply headers_fixed. intros K I. apply settled_bullet; [now apply headers_ok|].
    now apply settled_headers. }
  rewrite Hb. unfold b at 1. rewrite fix_bullet_idem. fold b.
  apply add_signature_found, Ob.
Qed.

(** X3. On every text the pipeline reaches a fixed point with its second
    application: a third one changes nothing, because the first has put a
    signature in. *)
Theorem normalize_third (ua : char -> bool) (x : text)
  (ua_space : forall c, isspace c = true -> ua c = false) :
  normalize ua (normalize ua (normalize ua x)) = normalize ua (normalize ua x).
Proof.
  apply normalize_fixed; [exact ua_space|].
  unfold normalize at 1. apply occurs_add_signature.
Qed.

(** ** Lines the Header Formatter leaves alone *)

Lemma headers_line_count Ks : (forall K, In K Ks -> header_ok K = true) ->
  forall t, length (split_nl (fold_left format_header Ks t)) = length (split_nl t).
Proof.
  induction Ks as [|K Ks IH]; intros H t; [reflexivity|]. simpl.
  rewrite IH by (intros K' I; apply H; now right).
  destruct (pass_lines K t (H K (or_introl eq_refl))) as (g & E & _).
  now rewrite E, length_map.
Qed.

(** X4. The Header Formatter keeps the number of lines, and every line that
    does not start with one of the four keywords, case ignored, stays where
    it is and as it is. *)
Theorem header_formatter_other_lines (t : text) :
  length (split_nl (_format_section_headers t)) = length (split_nl t)
  /\ forall i x,
       nth_error (split_nl t) i = Some x ->
       (forall K, In K section_headers -> ci_prefix K x = None) ->
       nth_error (split_nl (_format_section_headers t)) i = Some x.
Proof.
  split; [apply headers_line_count, headers_ok|].
  intros i x N H. apply passes_keep; [|exact N].
  intros K I. split; [now apply headers_ok | now apply H].
Qed.

(** ** The Error Normalizer does not lengthen a text *)

Lemma fin_length w gap s : forall l r, fin w gap s = Some (l, r) ->
  1 + length r <= length s.
Proof.
  induction s as [|d s IH]; intros l r H; simpl in H; [discriminate|].
  destruct (is_L d).
  - destruct (wbb w (Some d) (hd_error s)); inversion H; subst. simpl. lia.
  - destruct (gap d); [|discriminate]. apply IH in H. simpl. lia.
Qed.

Lemma mid_length w gap s : forall l r, mid w gap s = Some (l, r) ->
  2 + length r <= length s.
Proof.
  induction s as [|d s IH]; intros l r H; simpl in H; [discriminate|].
  destruct (is_x d).
  - apply fin_length in H. simpl. lia.
  - destruct (is_sep d); [|discriminate]. apply IH in H. simpl. lia.
Qed.

Lemma e_head_length w isc gap pv s l r : e_head w isc gap pv s = Some (l, r) ->
  3 + length r <= length s.
Proof.
  destruct s as [|c s]; simpl; [discriminate|].
  destruct (wbb w pv (Some c) && isc c); [|discriminate].
  intros H. apply mid_length in H. lia.
Qed.

Lemma edit_length cp blk :
  (forall pv m r s, blk pv m r s -> length r <= length m) ->
  forall pv s o, edit cp blk pv s o -> length o <= length s.
Proof.
  intros H pv s o E. induction E as [pv|pv c s o C E IH|pv m r s o B E IH].
  - reflexivity.
  - simpl. lia.
  - rewrite !length_app. apply H in B. lia.
Qed.

Lemma shape_blk_length w isc gap repl :
  (forall s, length (repl s) <= 3) ->
  forall pv m r s, shape_blk w isc gap repl pv m r s -> length r <= length m.
Proof.
  intros H pv m r s (l & E & _ & _ & ->). apply e_head_length in E.
  rewrite length_app in E. specialize (H (m ++ s)). lia.
Qed.

Lemma sub_shape_length w isc gap p tpl caps0 t :
  (forall prev s, option_map proj (match_here F_I p prev s)
                  = option_map (inj caps0) (e_head w isc gap prev s)) ->
  (forall s, length (expand tpl s (MState None [] 0 caps0)) <= 3) ->
  length (re_sub F_I p tpl t) <= length t.
Proof.
  intros Hp Hr. rewrite re_sub_eq.
  eapply edit_length; [|apply (sub_edit w isc gap p tpl caps0 Hp (length t)), le_n].
  now apply shape_blk_length.
Qed.

(** X5. The Error Normalizer never makes a text longer: a match has three
    characters at least and becomes three. *)
Theorem fix_common_errors_length (ua : char -> bool) (t : text) :
  length (_fix_common_errors ua t) <= length t.
Proof.
  rewrite fix_common_errors_eq.
  assert (M : forall s caps, length (expand tpl_MBL s (MState None [] 0 caps)) <= 3)
    by (intros; apply le_n).
  assert (A : forall s, length (expand tpl_1BL s (MState None [] 0 [(1, (0, 1))])) <= 3).
  { intros s. rewrite expand_1BL. unfold keep_first. rewrite length_app.
    pose proof (firstn_le_length 1 s). destruct s; simpl; lia. }
  etransitivity; [apply (sub_shape_length _ _ _ _ _ _ _ (match_AxL ua) A)|].
  etransitivity; [apply (sub_shape_length _ _ _ _ _ _ _ (match_MxsL ua) (fun s => M s _))|].
  apply (sub_shape_length _ _ _ _ _ _ _ (match_MxL ua) (fun s => M s _)).
Qed.

(** X1 on two blanks and a line break. *)
Lemma normalize_blank_witness :
  normalize no_high_word (str "  " ++ [NL]) = [NL; NL] ++ str "Michael".
Proof.
  apply (normalize_blank no_high_word (str "  " ++ [NL])). repeat constructor.
Defined.

(** X3 on the text whose second application still changes something. *)
Lemma normalize_third_witness :
  normalize no_high_word (normalize no_high_word (normalize no_high_word (str "Attendees ")))
  = normalize no_high_word (normalize no_high_word (str "Attendees ")).
Proof.
  apply (normalize_third no_high_word (str "Attendees ") (fun c _ => eq_refl)).
Defined.

(* ================================================================= *)
(** * The extraction *)

Lemma signature_not_blank t : occurs_ci (str "michael") t = true -> ~ all_space t.
Proof. intros O B. rewrite (blank_no_signature t B) in O. discriminate. Qed.

Lemma signature_length t : occurs_ci (str "michael") t = true -> 7 <= length t.
Proof.
  intros O. destruct (occurs_split _ _ O) as (u & v & r & -> & C).
  apply ci_prefix_len in C. rewrite length_app. simpl in C. lia.
Qed.

Lemma not_blank_words t : ~ all_space t -> 1 <= length (split_ws t).
Proof.
  intros B. destruct (split_ws t) eqn:E; [|simpl; lia].
  exfalso. apply B. now apply split_ws_nil.
Qed.

Lemma not_blank_truthy t : ~ all_space t -> truthy (strip t) = true.
Proof.
  intros B. destruct (truthy (strip t)) eqn:E; [reflexivity|].
  exfalso. apply B. now apply truthy_strip.
Qed.

Lemma pair_inr_inv {A B C} (a r : B) (w w' : C) :
  (@inr A B a, w) = (inr r, w') -> a = r /\ w = w'.
Proof. intros H. inversion H. auto. Qed.

Lemma pair_inl_inv {A B C} (a e : A) (w w' : C) :
  (@inl A B a, w) = (inl e, w') -> a = e /\ w = w'.
Proof. intros H. inversion H. auto. Qed.

Section Extraction.

Variables (W : Type) (ua : char -> bool).

(** The loop returns exactly when every page is answered, and then with the
    stripped contents in order. *)
Lemma extract_pages_answered c p imgs w answers w' :
  answered c p imgs w answers w' ->
  extract_pages W c p imgs w = (inr (map strip answers), w').
Proof.
  induction 1 as [w|image images w content others w1 contents w' C A IH]; simpl.
  - reflexivity.
  - now rewrite C, IH.
Qed.

Lemma extract_pages_returned c p imgs : forall w parts w',
  extract_pages W c p imgs w = (inr parts, w') ->
  exists answers, answered c p imgs w answers w' /\ parts = map strip answers.
Proof.
  induction imgs as [|img imgs IH]; intros w parts w' H; simpl in H.
  - apply pair_inr_inv in H. destruct H as [<- <-]. exists []. split; [constructor | reflexivity].
  - destruct (c (vision_request p img) w) as [[e|[|[content|] others]] w1] eqn:C;
      simpl in H; try discriminate.
    destruct (extract_pages W c p imgs w1) as [[e|ps] w2] eqn:E; [discriminate|].
    apply pair_inr_inv in H. destruct H as [<- <-].
    destruct (IH _ _ _ E) as (answers & A & ->).
    exists (content :: answers). split; [econstructor; eassumption | reflexivity].
Qed.

(** The loop ends at the first page that fails, with the exception of that
    page and the world that its call left. *)
Lemma extract_pages_fails c p pre image post answers w w1 e w' :
  answered c p pre w answers w1 ->
  page_fails c p image w1 e w' ->
  extract_pages W c p (pre ++ image :: post) w = (inl e, w').
Proof.
  induction 1 as [w|img images w content others w1 contents w2 C A IH]; intros F.
  - simpl. destruct F as [F | [[F ->] | (others & F & ->)]]; now rewrite F.
  - simpl. rewrite C. simpl. now rewrite (IH F).
Qed.

Lemma extract_pages_failed c p imgs : forall w e w',
  extract_pages W c p imgs w = (inl e, w') ->
  exists pre image post answers w1,
    imgs = pre ++ image :: post
    /\ answered c p pre w answers w1
    /\ page_fails c p image w1 e w'.
Proof.
  induction imgs as [|img imgs IH]; intros w e w' H; simpl in H; [discriminate|].
  destruct (c (vision_request p img) w) as [[e0|[|[content|] others]] w1] eqn:C;
    simpl in H.
  - apply pair_inl_inv in H. destruct H as [<- <-].
    exists [], img, imgs, [], w. split; [reflexivity|]. split; [constructor|].
    now left.
  - apply pair_inl_inv in H. destruct H as [<- <-].
    exists [], img, imgs, [], w. split; [reflexivity|]. split; [constructor|].
    right. left. auto.
  - destruct (extract_pages W c p imgs w1) as [[e1|ps] w2] eqn:E; [|discriminate].
    apply pair_inl_inv in H. destruct H as [<- <-].
    destruct (IH _ _ _ E) as (pre & image & post & answers & w3 & -> & A & F).
    exists (img :: pre), image, post, (content :: answers), w3.
    split; [reflexivity|]. split; [econstructor; eassumption | exact F].
  - apply pair_inl_inv in H. destruct H as [<- <-].
    exists [], img, imgs, [], w. split; [reflexivity|]. split; [constructor|].
    right. right. exists others. auto.
Qed.

(** What every text out of the pipeline has. *)
Lemma normalized_text t :
  occurs_ci (str "michael") (normalize ua t) = true
  /\ truthy (strip (normalize ua t)) = true
  /\ word_count (normalize ua t) = length (split_ws (normalize ua t))
  /\ 1 <= length (split_ws (normalize ua t))
  /\ 7 <= length (normalize ua t).
Proof.
  assert (O : occurs_ci (str "michael") (normalize ua t) = true)
    by apply occurs_add_signature.
  pose proof (signature_not_blank _ O) as B.
  split; [exact O|]. split; [now apply not_blank_truthy|].
  split; [apply word_count_words|]. split; [now apply not_blank_words|].
  now apply signature_length.
Qed.

(** What a successful extraction returns, whatever the pages were. *)
Lemma extraction_returned (self : AIService W) (base64_images : list text)
  (prompt_template : option text) (w w' : W) (r : extraction) :
  extract_text_from_base64_images W ua self base64_images prompt_template w
  = (inr r, w') ->
  occurs_ci (str "michael") (ex_text r) = true
  /\ truthy (strip (ex_text r)) = true
  /\ ex_word_count r = length (split_ws (ex_text r))
  /\ 1 <= ex_word_count r
  /\ ex_character_count r = length (ex_text r)
  /\ 7 <= ex_character_count r
  /\ ex_page_count r = length base64_images.
Proof.
  intros Hok. unfold extract_text_from_base64_images in Hok.
  destruct (client W self) as [c|]; [|discriminate].
  destruct (extract_pages W c _ base64_images w) as [[e|parts] w1] eqn:E; [discriminate|].
  apply pair_inr_inv in Hok. destruct Hok as [<- <-].
  cbn [ex_text ex_word_count ex_character_count ex_page_count].
  destruct (normalized_text (join [NL; NL] parts)) as (O & T & Wc & W1 & L7).
  rewrite Wc. auto 10.
Qed.

(** X6. An extraction returns exactly when the client answers the request of
    every page with a content, and what it returns then is built from these
    contents: its text is the pipeline's result on the stripped contents
    joined by blank lines, [word_count] is the number of its words (the filter
    on the words removes none), [character_count] its length, [page_count] the
    number of images, and the world is the one the last call left.  The text
    contains the signature, so it is never blank: one word and seven
    characters at least. *)
Theorem extraction_of_answers (self : AIService W) (c : Client W)
  (base64_images : list text) (prompt_template : option text) (w : W)
  (Hclient : client W self = Some c) :
  (forall (r : extraction) (w' : W),
      extract_text_from_base64_images W ua self base64_images prompt_template w
      = (inr r, w')
      <-> exists answers,
            answered c (prompt_of self prompt_template) base64_images w answers w'
            /\ let t := normalize ua (join [NL; NL] (map strip answers)) in
               r = Extraction t 95 (length (split_ws t)) (length t) (str "en")
                              (str "gpt4o-vision") (length base64_images))
  /\ (forall (r : extraction) (w' : W),
        extract_text_from_base64_images W ua self base64_images prompt_template w
        = (inr r, w') ->
        occurs_ci (str "michael") (ex_text r) = true
        /\ truthy (strip (ex_text r)) = true
        /\ 1 <= ex_word_count r
        /\ 7 <= ex_character_count r).
Proof.
  split.
  - intros r w'. unfold extract_text_from_base64_images, prompt_of.
    rewrite Hclient. split.
    + intros H.
      destruct (extract_pages W c _ base64_images w) as [[e|parts] w1] eqn:E;
        [discriminate|].
      apply pair_inr_inv in H. destruct H as [<- <-].
      destruct (extract_pages_returned _ _ _ _ _ _ E) as (answers & A & ->).
      exists answers. split; [exact A|]. cbv zeta. now rewrite word_count_words.
    + intros (answers & A & ->). rewrite (extract_pages_answered _ _ _ _ _ _ A).
      cbv zeta. now rewrite word_count_words.
  - intros r w' H.
    destruct (extraction_returned _ _ _ _ _ _ H) as (O & T & _ & W1 & _ & L7 & _).
    auto.
Qed.

(** X7. An extraction raises exactly when the request of some page fails
    after the pages before it were answered, and it stops there: the exception
    is the one the client raised for that page, unchanged, or the
    [IndexError] or [AttributeError] of a response without a choice or
    without a content, and the world is the one that call left, so no page
    behind it is requested.  Without a client it raises the [ValueError] of
    the missing key and makes no request. *)
Theorem extraction_error (self : AIService W) (base64_images : list text)
  (prompt_template : option text) (w : W) :
  (client W self = None ->
     extract_text_from_base64_images W ua self base64_images prompt_template w
     = (inl (ValueError (str "OpenAI API key is required for text extraction")), w))
  /\ (forall c, client W self = Some c ->
      forall (e : exn) (w' : W),
        extract_text_from_base64_images W ua self base64_images prompt_template w
        = (inl e, w')
        <-> exists pre image post answers w1,
              base64_images = pre ++ image :: post
              /\ answered c (prompt_of self prompt_template) pre w answers w1
              /\ page_fails c (prompt_of self prompt_template) image w1 e w').
Proof.
  unfold extract_text_from_base64_images, prompt_of. split.
  - now intros ->.
  - intros c ->. intros e w'. split.
    + intros H.
      destruct (extract_pages W c _ base64_images w) as [[e0|parts] w1] eqn:E;
        [|discriminate].
      apply pair_inl_inv in H. destruct H as [<- <-].
      now apply extract_pages_failed.
    + intros (pre & image & post & answers & w1 & -> & A & F).
      now rewrite (extract_pages_fails _ _ _ _ post _ _ _ _ _ A F).
Qed.

Lemma join_blank parts : Forall (fun q : text => q = []) parts ->
  all_space (join [NL; NL] parts).
Proof.
  induction 1 as [|q parts -> F IH]; [constructor|].
  destruct parts as [|q' parts]; [constructor|].
  rewrite join_cons. repeat constructor. exact IH.
Qed.

Lemma extract_pages_blank c p imgs :
  (forall rq w, exists page others w',
      c rq w = (inr (Some page :: others), w') /\ all_space page) ->
  forall w, exists parts w',
    extract_pages W c p imgs w = (inr parts, w')
    /\ Forall (fun q : text => q = []) parts.
Proof.
  intros H. induction imgs as [|img imgs IH]; intros w; simpl.
  - exists [], w. auto.
  - destruct (H (vision_request p img) w) as (page & others & w1 & -> & B).
    simpl. destruct (IH w1) as (parts & w2 & -> & F).
    exists (strip page :: parts), w2. split; [reflexivity|].
    constructor; [now apply strip_all_space | exact F].
Qed.

(** X8. When the model answers every page with white space (or with
    nothing), and also when there is no page at all, the extraction is the
    signature alone: one word, nine characters. *)
Theorem extraction_blank_pages (self : AIService W) (c : Client W)
  (base64_images : list text) (prompt_template : option text) (w : W)
  (Hclient : client W self = Some c)
  (Hblank : forall rq w0, exists page others w1,
      c rq w0 = (inr (Some page :: others), w1) /\ all_space page) :
  fst (extract_text_from_base64_images W ua self base64_images prompt_template w)
  = inr (Extraction ([NL; NL] ++ str "Michael") 95 1 9 (str "en")
                    (str "gpt4o-vision") (length base64_images)).
Proof.
  unfold extract_text_from_base64_images. rewrite Hclient.
  destruct (extract_pages_blank c
              (match prompt_template with
               | Some p => p
               | None => default_prompt_template W self
               end) base64_images Hblank w) as (parts & w1 & -> & F).
  cbn [fst]. now rewrite (normalize_all_space ua _ (join_blank parts F)).
Qed.

End Extraction.

(** X6 on one page that the model answers with a header line. *)
Lemma extraction_of_answers_witness :
  extract_text_from_base64_images unit no_high_word
    (service_with (answering (str " Attendees: Ann "))) [str "cGFnZTE="] None tt
  = (inr (Extraction (str "**Attendees** Ann" ++ [NL; NL] ++ str "Michael") 95 3 26
                     (str "en") (str "gpt4o-vision") 1), tt).
Proof.
  apply (proj2 (proj1 (extraction_of_answers unit no_high_word
                         (service_with (answering (str " Attendees: Ann ")))
                         (answering (str " Attendees: Ann "))
                         [str "cGFnZTE="] None tt eq_refl) _ _)).
  exists [str " Attendees: Ann "]. split; [|reflexivity].
  apply (answered_page _ _ _ _ _ _ [] tt _ tt eq_refl). constructor.
Defined.

(** X7 on three pages with a client that answers its first call only: the
    exception of the second call leaves the extraction, and the world has seen
    two calls, not three; and on one page with a client whose response has no
    content. *)
Lemma extraction_error_witness :
  extract_text_from_base64_images nat no_high_word
    (Build_AIService nat (Some second_call_fails) (str "gpt-4o")
                     (str "Transcribe the notes."))
    [str "cGFnZTE="; str "cGFnZTI="; str "cGFnZTM="] None 0
  = (inl (OtherError (str "Rate limit reached.")), 2)
  /\ extract_text_from_base64_images unit no_high_word (service_with silent)
       [str "cGFnZTE="] None tt
     = (inl (AttributeError (str "'NoneType' object has no attribute 'strip'")), tt).
Proof.
  split.
  - apply (proj2 (proj2 (extraction_error nat no_high_word
                           (Build_AIService nat (Some second_call_fails) (str "gpt-4o")
                                            (str "Transcribe the notes."))
                           [str "cGFnZTE="; str "cGFnZTI="; str "cGFnZTM="] None 0)
                    second_call_fails eq_refl _ _)).
    exists [str "cGFnZTE="], (str "cGFnZTI="), [str "cGFnZTM="], [str "Page one"], 1.
    split; [reflexivity|]. split.
    + eapply answered_page; [reflexivity | constructor].
    + left. reflexivity.
  - apply (proj2 (proj2 (extraction_error unit no_high_word (service_with silent)
                           [str "cGFnZTE="] None tt) silent eq_refl _ _)).
    exists [], (str "cGFnZTE="), [], [], tt.
    split; [reflexivity|]. split; [constructor|].
    right. right. exists []. split; reflexivity.
Defined.

(** X8 on two pages answered with blanks. *)
Lemma extraction_blank_pages_witness :
  fst (extract_text_from_base64_images unit no_high_word
         (service_with (answering (str "  "))) [str "cGFnZTE="; str "cGFnZTI="]
         None tt)
  = inr (Extraction ([NL; NL] ++ str "Michael") 95 1 9 (str "en")
                    (str "gpt4o-vision") 2).
Proof.
  apply (extraction_blank_pages unit no_high_word
           (service_with (answering (str "  "))) (answering (str "  "))
           [str "cGFnZTE="; str "cGFnZTI="] None tt eq_refl).
  intros rq w0. exists (str "  "), [], w0. split; [reflexivity | repeat constructor].
Defined.

(* ================================================================= *)
(** * The analysis without a usable API *)

Lemma first_content_stripped_fixed r s :
  first_content_stripped r = inr s -> strip s = s.
Proof.
  destruct r as [|[content|] others]; simpl; intros H; inversion H.
  apply strip_idem.
Qed.

Section Analysis.

Variables (W J : Type) (json_loads : text -> jres J) (ulower : text -> text).

Ltac fails H :=
  match goal with
  | |- context [match ?c ?rq ?w with _ => _ end] =>
      let e := fresh "e" in let w' := fresh "w" in let E := fresh "E" in
      destruct (H rq w) as (e & w' & E); rewrite E
  end.

Lemma title_unavailable (self : AIService W) t w : unavailable self ->
  exists w', _generate_title W self t w = (first_words t, w').
Proof.
  unfold unavailable, _generate_title. destruct (client W self) as [c|]; intros H.
  - fails H. eauto.
  - eauto.
Qed.

Lemma category_unavailable (self : AIService W) t w : unavailable self ->
  exists w', _categorize_text W self t w = (str "General", w').
Proof.
  unfold unavailable, _categorize_text. destruct (client W self) as [c|]; intros H.
  - fails H. eauto.
  - eauto.
Qed.

Lemma key_points_unavailable (self : AIService W) t w : unavailable self ->
  exists w', _extract_key_points W J json_loads self t w = (Strs (first_sentences t), w').
Proof.
  unfold unavailable, _extract_key_points. destruct (client W self) as [c|]; intros H.
  - fails H. eauto.
  - eauto.
Qed.

Lemma summary_unavailable (self : AIService W) t w : unavailable self ->
  exists w', _generate_summary W self t w = (truncated t, w').
Proof.
  unfold unavailable, _generate_summary. destruct (client W self) as [c|]; intros H.
  - fails H. eauto.
  - eauto.
Qed.

Lemma sentiment_unavailable (self : AIService W) t w : unavailable self ->
  exists w', _analyze_sentiment W ulower self t w = (str "neutral", w').
Proof.
  unfold unavailable, _analyze_sentiment. destruct (client W self) as [c|]; intros H.
  - fails H. eauto.
  - eauto.
Qed.

Lemma tags_unavailable (self : AIService W) t w : unavailable self ->
  exists w', _generate_tags W J json_loads ulower self t (str "General") w
             = (Strs [str "general"; str "notes"], w').
Proof.
  unfold unavailable, _generate_tags. destruct (client W self) as [c|]; intros H.
  - fails H. eauto.
  - eauto.
Qed.

(** X9. The title when the API gives none: the first five words at most,
    joined by single blanks, or ["Untitled Note"] for a text without a word;
    never empty, nothing to strip, and a fixed point of the method. *)
Theorem generate_title_fallback (self : AIService W) (t : text) (w : W)
  (Hself : unavailable self) :
  let title := fst (_generate_title W self t w) in
  (all_space t -> title = str "Untitled Note")
  /\ (~ all_space t -> split_ws title = firstn 5 (split_ws t))
  /\ length (split_ws title) <= 5
  /\ strip title = title
  /\ truthy title = true
  /\ forall w', fst (_generate_title W self title w') = title.
Proof.
  destruct (title_unavailable self t w Hself) as (w1 & E). rewrite E. cbn [fst].
  destruct (first_words_spec t) as (A & B & C & D & F & G).
  repeat split; auto. intros w'.
  destruct (title_unavailable self (first_words t) w' Hself) as (w2 & E2).
  now rewrite E2.
Qed.

(** X10. The summary when the API gives none: the text itself up to 200
    characters, otherwise its first 200 characters and three full stops; never
    more than 203 characters. *)
Theorem generate_summary_fallback (self : AIService W) (t : text) (w : W)
  (Hself : unavailable self) :
  let summary := fst (_generate_summary W self t w) in
  length summary <= 203
  /\ firstn 200 summary = firstn 200 t
  /\ (length t <= 200 -> summary = t)
  /\ (200 < length t ->
      summary = firstn 200 t ++ str "..." /\ length summary = 203).
Proof.
  destruct (summary_unavailable self t w Hself) as (w1 & E). rewrite E. cbn [fst].
  apply truncated_spec.
Qed.

(** X11. The key points when the API gives none: at most three, taken from
    the first three stretches between full stops only, each a piece of the
    text, not empty, with no white space around it and no full stop in it. *)
Theorem extract_key_points_fallback (self : AIService W) (t : text) (w : W)
  (Hself : unavailable self) :
  exists l,
    fst (_extract_key_points W J json_loads self t w) = Strs l
    /\ l = stripped (firstn 3 (split_chr (ch ".") t))
    /\ length l <= 3
    /\ forall p, In p l -> p <> [] /\ strip p = p /\ ~ In (ch ".") p /\ infix p t.
Proof.
  destruct (key_points_unavailable self t w Hself) as (w1 & E). rewrite E. cbn [fst].
  exists (first_sentences t). split; [reflexivity|]. split; [reflexivity|].
  apply first_sentences_spec.
Qed.

(** X12. The whole analysis without a usable API, be it that there is no
    client or that every call raises: the category is ["General"], so the
    table of tags is never consulted and the tags are ["general"] and
    ["notes"]; title, summary and key points are the fallbacks.  A failing
    client gives what no client gives. *)
Theorem analyze_text_unavailable (self : AIService W) (t : text) (w : W)
  (Hself : unavailable self) :
  fst (analyze_text W J json_loads ulower self t w)
  = (if truthy (strip t)
     then Analysis (join (str " ") (firstn 5 (split_ws t))) (str "General")
                   (Strs [str "general"; str "notes"]) (truncated t)
                   (str "neutral") (Strs (first_sentences t))
     else Analysis (str "Untitled Note") (str "Unknown") (Strs [])
                   (str "No text found") (str "neutral") (Strs []))
  /\ forall w',
       fst (analyze_text W J json_loads ulower self t w)
       = fst (analyze_text W J json_loads ulower (without_client self) t w').
Proof.
  assert (G : forall (s : AIService W) w0, unavailable s ->
            fst (analyze_text W J json_loads ulower s t w0)
            = (if truthy (strip t)
               then Analysis (join (str " ") (firstn 5 (split_ws t))) (str "General")
                      (Strs [str "general"; str "notes"]) (truncated t)
                      (str "neutral") (Strs (first_sentences t))
               else Analysis (str "Untitled Note") (str "Unknown") (Strs [])
                      (str "No text found") (str "neutral") (Strs []))).
  { intros s w0 Hs. unfold analyze_text.
    destruct (truthy (strip t)) eqn:T; [|reflexivity]. cbn [negb].
    destruct (title_unavailable s t w0 Hs) as (w1 & ->).
    destruct (category_unavailable s t w1 Hs) as (w2 & ->).
    destruct (key_points_unavailable s t w2 Hs) as (w3 & ->).
    destruct (summary_unavailable s t w3 Hs) as (w4 & ->).
    destruct (sentiment_unavailable s t w4 Hs) as (w5 & ->).
    destruct (tags_unavailable s t w5 Hs) as (w6 & ->).
    cbn [fst]. f_equal.
    assert (B : ~ all_space t).
    { intros B. apply truthy_strip in B. congruence. }
    now destruct (first_words_join t B) as [-> _]. }
  split; [now apply G|]. intros w'. rewrite !G; auto. exact I.
Qed.

(** X13. A text without a character that is not white space is not sent
    anywhere: the analysis is the fixed answer and the world is as it
    was, whatever the client. *)
Theorem analyze_text_blank (self : AIService W) (t : text) (w : W)
  (Hblank : all_space t) :
  analyze_text W J json_loads ulower self t w
  = (Analysis (str "Untitled Note") (str "Unknown") (Strs [])
              (str "No text found") (str "neutral") (Strs []), w).
Proof.
  unfold analyze_text. apply truthy_strip in Hblank. now rewrite Hblank.
Qed.

(** X14. Whatever the API answers or raises, the title and the category of
    an analysis have no white space around them. *)
Theorem analysis_title_category_stripped (self : AIService W) (t : text) (w : W) :
  let a := fst (analyze_text W J json_loads ulower self t w) in
  strip (an_title a) = an_title a /\ strip (an_category a) = an_category a.
Proof.
  unfold analyze_text. destruct (truthy (strip t)); cbn [negb]; [|split; reflexivity].
  assert (T : forall w0, strip (fst (_generate_title W self t w0))
                         = fst (_generate_title W self t w0)).
  { intros w0. pose proof (first_words_spec t) as (_ & _ & _ & D & _).
    unfold _generate_title. destruct (client W self) as [c|]; [|exact D].
    match goal with |- context [c ?rq w0] => destruct (c rq w0) as [[e|r] w1] end;
      [exact D|].
    destruct (first_content_stripped r) as [e|title] eqn:F; [exact D|].
    exact (first_content_stripped_fixed r title F). }
  assert (C : forall w0, strip (fst (_categorize_text W self t w0))
                         = fst (_categorize_text W self t w0)).
  { intros w0. unfold _categorize_text. destruct (client W self) as [c|]; [|reflexivity].
    match goal with |- context [c ?rq w0] => destruct (c rq w0) as [[e|r] w1] end;
      [reflexivity|].
    destruct (first_content_stripped r) as [e|category] eqn:F; [reflexivity|].
    exact (first_content_stripped_fixed r category F). }
  specialize (T w). destruct (_generate_title W self t w) as [title w1].
  specialize (C w1). destruct (_categorize_text W self t w1) as [category w2].
  destruct (_extract_key_points W J json_loads self t w2) as [kp w3].
  destruct (_generate_summary W self t w3) as [su w4].
  destruct (_analyze_sentiment W ulower self t w4) as [se w5].
  destruct (_generate_tags W J json_loads ulower self t category w5) as [tg w6].
  cbn [fst an_title an_category] in *. auto.
Qed.

(** X15. Whatever the client does, key points that the code has built, not
    decoded from JSON, are not empty and have no white space around them. *)
Theorem key_points_built (self : AIService W) (t : text) (w : W) (l : list text)
  (Hbuilt : fst (_extract_key_points W J json_loads self t w) = Strs l) :
  forall p, In p l -> p <> [] /\ strip p = p.
Proof.
  clear ulower.
  assert (G : forall ls p, In p (stripped ls) -> p <> [] /\ strip p = p).
  { intros ls p H. apply stripped_in in H. tauto. }
  unfold _extract_key_points, first_sentences in Hbuilt.
  destruct (client W self) as [c|].
  - match type of Hbuilt with context [c ?rq w] => destruct (c rq w) as [[e|r] w1] end;
      cbn [fst] in Hbuilt.
    + injection Hbuilt as <-. apply G.
    + destruct (first_content_stripped r) as [e|result]; cbn [fst] in Hbuilt;
        [injection Hbuilt as <-; apply G|].
      destruct (json_loads result); cbn [fst] in Hbuilt;
        [discriminate | injection Hbuilt as <-; apply G
         | injection Hbuilt as <-; apply G].
  - cbn [fst] in Hbuilt. injection Hbuilt as <-. apply G.
Qed.

End Analysis.

(** X9 on a text of six words. *)
Lemma generate_title_fallback_witness :
  split_ws (fst (_generate_title unit offline_service
                   (str "  one two  three four five six ") tt))
  = firstn 5 (split_ws (str "  one two  three four five six ")).
Proof.
  apply (proj1 (proj2 (generate_title_fallback unit offline_service
                         (str "  one two  three four five six ") tt I))).
  intros H. inversion H as [|? ? _ F]. inversion F as [|? ? _ G].
  inversion G as [|? ? D _]. discriminate.
Defined.

(** X10 on a text of 250 characters. *)
Lemma generate_summary_fallback_witness :
  length (fst (_generate_summary unit offline_service (repeat 120%N 250) tt)) = 203.
Proof.
  apply (proj2 (proj2 (proj2 (generate_summary_fallback unit offline_service
                                (repeat 120%N 250) tt I)))).
  vm_compute. lia.
Defined.

(** X11 on four sentences, one of them blank. *)
Lemma extract_key_points_fallback_witness :
  exists l,
    fst (_extract_key_points unit unit no_json offline_service
           (str "Buy milk. . Call Ann. Fix bike.") tt) = Strs l
    /\ l = stripped (firstn 3 (split_chr (ch ".") (str "Buy milk. . Call Ann. Fix bike.")))
    /\ length l <= 3
    /\ forall p, In p l ->
         p <> [] /\ strip p = p /\ ~ In (ch ".") p
         /\ infix p (str "Buy milk. . Call Ann. Fix bike.").
Proof.
  apply (extract_key_points_fallback unit unit no_json offline_service
           (str "Buy milk. . Call Ann. Fix bike.") tt I).
Defined.

(** X12 on a client whose calls raise. *)
Lemma analyze_text_unavailable_witness :
  fst (analyze_text unit unit no_json same_text (service_with failing)
         (str "Buy milk. Call Ann.") tt)
  = Analysis (str "Buy milk. Call Ann.") (str "General")
             (Strs [str "general"; str "notes"]) (str "Buy milk. Call Ann.")
             (str "neutral") (Strs [str "Buy milk"; str "Call Ann"]).
Proof.
  apply (proj1 (analyze_text_unavailable unit unit no_json same_text
                  (service_with failing) (str "Buy milk. Call Ann.") tt
                  (fun rq w => ex_intro _ _ (ex_intro _ w eq_refl)))).
Defined.

(** X13 on two blanks, with a client that would answer. *)
Lemma analyze_text_blank_witness :
  analyze_text unit unit no_json same_text (service_with (answering (str "x")))
               (str "  ") tt
  = (Analysis (str "Untitled Note") (str "Unknown") (Strs [])
              (str "No text found") (str "neutral") (Strs []), tt).
Proof.
  apply (analyze_text_blank unit unit no_json same_text
           (service_with (answering (str "x"))) (str "  ") tt).
  repeat constructor.
Defined.

(** X15 on an answer that is no JSON. *)
Lemma key_points_built_witness :
  str "Second point" <> [] /\ strip (str "Second point") = str "Second point".
Proof.
  apply (key_points_built unit unit no_json
           (service_with (answering (str "First point" ++ NL :: NL :: str "  Second point ")))
           (str "text") tt [str "First point"; str "Second point"] eq_refl
           (str "Second point")).
  right. left. reflexivity.
Defined.

(* ================================================================= *)
(** * The upload endpoint *)


Section UploadFacts.

Variables (W J : Type) (json_loads : text -> jres J) (ulower : text -> text)
          (ua : char -> bool).
Variable save_uploaded_file : upload_file -> W -> (exn + text) * W.
Variable convert_pdf_to_base64_images : text -> W -> (exn + list text) * W.
Variable save_processed_note : note_data J -> W -> (exn + stored_note) * W.

Lemma extraction_fields (self : AIService W) imgs tmpl w w' r :
  extract_text_from_base64_images W ua self imgs tmpl w = (inr r, w') ->
  ex_confidence r = 95%N /\ ex_language r = str "en"
  /\ ex_extraction_method r = str "gpt4o-vision".
Proof.
  unfold extract_text_from_base64_images.
  destruct (client W self) as [c|]; [|discriminate].
  destruct (extract_pages W c _ imgs w) as [[e|parts] w1]; [discriminate|].
  intros H. apply pair_inr_inv in H. destruct H as [<- _]. auto.
Qed.


(** X17. Without an API key the upload of a PDF that was saved and converted
    ends with status 400 and the text of the [ValueError] of the extraction,
    not with status 500. *)
Theorem upload_note_missing_key (ai_service : AIService W) (file : upload_file)
  (prompt_template : option text) (w w1 w2 : W) (file_path : text)
  (base64_images : list text)
  (Hpdf : is_pdf (up_content_type file) = true)
  (Hkey : client W ai_service = None)
  (Hsave : save_uploaded_file file w = (inr file_path, w1))
  (Hconv : convert_pdf_to_base64_images file_path w1 = (inr base64_images, w2))
  (Hpages : base64_images <> []) :
  upload_note W J json_loads ulower ua save_uploaded_file
    convert_pdf_to_base64_images save_processed_note ai_service file prompt_template w
  = (inl (HTTPException 400 (str "OpenAI API key is required for text extraction")),
     w2).
Proof.
  unfold upload_note. rewrite Hpdf, Hsave, Hconv. cbn [negb].
  destruct base64_images as [|img imgs]; [congruence|].
  unfold extract_text_from_base64_images. now rewrite Hkey.
Qed.

(** X18. The check for an empty extraction never rejects an upload: when the
    file is a PDF, is saved, has pages, the extraction returns and the
    database stores what it is given, the upload succeeds.  The note stored
    has the text of the extraction as content and as raw text, with the
    signature in it and a word count of 1 at least. *)
Theorem upload_note_succeeds (ai_service : AIService W) (file : upload_file)
  (prompt_template : option text) (w w1 w2 w3 : W) (file_path : text)
  (base64_images : list text) (r : extraction)
  (Hpdf : is_pdf (up_content_type file) = true)
  (Hsave : save_uploaded_file file w = (inr file_path, w1))
  (Hconv : convert_pdf_to_base64_images file_path w1 = (inr base64_images, w2))
  (Hpages : base64_images <> [])
  (Hext : extract_text_from_base64_images W ua ai_service base64_images
            prompt_template w2 = (inr r, w3))
  (Hdb : forall nd w4, exists note w5, save_processed_note nd w4 = (inr note, w5)) :
  exists nd w4 note w5,
    save_processed_note nd w4 = (inr note, w5)
    /\ upload_note W J json_loads ulower ua save_uploaded_file
    convert_pdf_to_base64_images save_processed_note ai_service file prompt_template w
       = (inr (UploadResponse (str "Note processed successfully")
                 (note_id note) (note_title note) 95 (nd_category nd)
                 (up_content_type file) (str "gpt4o-vision")
                 (length base64_images)), w5)
    /\ nd_content nd = ex_text r
    /\ nd_raw_text nd = ex_text r
    /\ occurs_ci (str "michael") (nd_content nd) = true
    /\ 1 <= nd_word_count nd
    /\ nd_page_count nd = length base64_images.
Proof.
  destruct (extraction_returned W ua _ _ _ _ _ _ Hext)
    as (O & T & _ & Wc & _ & _ & Pc).
  destruct (extraction_fields _ _ _ _ _ _ Hext) as (Cf & _ & Em).
  unfold upload_note. rewrite Hpdf, Hsave, Hconv. cbn [negb].
  destruct base64_images as [|img imgs]; [congruence|].
  rewrite Hext, T. cbn [negb].
  destruct (analyze_text W J json_loads ulower ai_service (ex_text r) w3) as [a w4].
  match goal with
  | |- context [save_processed_note ?nd w4] =>
      destruct (Hdb nd w4) as (note & w5 & E); exists nd, w4, note, w5; rewrite E
  end.
  unfold note_data_of.
  cbn [nd_content nd_raw_text nd_word_count nd_page_count nd_category].
  rewrite Cf, Em, Pc. auto 10.
Qed.

End UploadFacts.


(** X17 on a service without a client. *)
Lemma upload_note_missing_key_witness :
  upload_note unit unit no_json same_text no_high_word save_ok convert_one store_ok
    offline_service pdf_file None tt
  = (inl (HTTPException 400 (str "OpenAI API key is required for text extraction")),
     tt).
Proof.
  apply (upload_note_missing_key unit unit no_json same_text no_high_word
           save_ok convert_one store_ok offline_service pdf_file None tt tt tt
           (str "uploads/1.pdf") [str "cGFnZTE="] eq_refl eq_refl eq_refl eq_refl).
  discriminate.
Defined.

(** X18 on a PDF of one page that the model answers with a blank. *)
Lemma upload_note_succeeds_witness :
  exists nd w4 note w5,
    store_ok nd w4 = (inr note, w5)
    /\ upload_note unit unit no_json same_text no_high_word save_ok convert_one store_ok
         (service_with (answering (str " "))) pdf_file None tt
       = (inr (UploadResponse (str "Note processed successfully")
                 (note_id note) (note_title note) 95 (nd_category nd)
                 (up_content_type pdf_file) (str "gpt4o-vision") 1), w5)
    /\ nd_content nd = [NL; NL] ++ str "Michael".
Proof.
  destruct (upload_note_succeeds unit unit no_json same_text no_high_word
              save_ok convert_one store_ok
              (service_with (answering (str " "))) pdf_file None tt tt tt tt
              (str "uploads/1.pdf") [str "cGFnZTE="]
              (Extraction ([NL; NL] ++ str "Michael") 95 1 9 (str "en")
                          (str "gpt4o-vision") 1)
              eq_refl eq_refl eq_refl ltac:(discriminate) eq_refl
              (fun nd w4 => ex_intro _ _ (ex_intro _ w4 eq_refl)))
    as (nd & w4 & note & w5 & S & U & C & _).
  exists nd, w4, note, w5. auto.
Defined.
